(** * GMPE residuals: a shallow embedding of [smtk/residuals/gmpe_residuals.py]

    The residual engine of the strong-motion toolkit is embedded as pure
    functions over Python-like values:

    - a numpy [float64] array is a [list R]: floating-point numbers are
      idealised as real numbers (no rounding, no NaN, no infinities);
    - a Python [dict] / [OrderedDict] is an association list in insertion
      order ([dict]);
    - a raised exception is the [Raise] branch of the [result] monad;
    - mutation of [self] is explicit state passing over the [Residuals]
      record.

    External collaborators (the prediction models, the registry of models,
    the IMT parser, the unit conversion, scipy's special functions) are
    record fields or section variables; the random draws of the bootstrap are
    an argument. A division of Python floats by zero raises
    [ZeroDivisionError] ([py_div]); a numpy division is the division of [R],
    and the statements that depend on the value of a quotient assume a
    non-zero divisor. [numpy.linalg.slogdet] and [scipy.linalg.solve] are
    taken in exact arithmetic. *)

From Stdlib Require Import Ascii String.
From Stdlib Require Import ZArith Reals Lra Lia List Bool Arith Psatz.
Import ListNotations.

Open Scope string_scope.
Open Scope list_scope.
Open Scope R_scope.

(** * Part I: the embedding *)

(** ** Python runtime: exceptions and dictionaries *)

Inductive exn : Type :=
| KeyError
| TypeError
| ValueError
| IndexError
| ZeroDivisionError
| AttributeError
| LinAlgError.

Inductive result (A : Type) : Type :=
| Ok (a : A)
| Raise (e : exn).

Arguments Ok {A} a.
Arguments Raise {A} e.

Definition bind {A B : Type} (c : result A) (k : A -> result B) : result B :=
  match c with
  | Ok a => k a
  | Raise e => Raise e
  end.

Notation "x <- c ;; k" := (bind c (fun x => k))
  (at level 61, c at next level, right associativity).
Notation "' p <- c ;; k" := (bind c (fun p => k))
  (at level 61, p pattern, c at next level, right associativity).

Definition dict (V : Type) : Type := list (string * V).

Fixpoint dict_get {V : Type} (d : dict V) (k : string) : option V :=
  match d with
  | [] => None
  | (k', v) :: d' => if String.eqb k k' then Some v else dict_get d' k
  end.

(** [d[k]] *)
Definition getitem {V : Type} (d : dict V) (k : string) : result V :=
  match dict_get d k with
  | Some v => Ok v
  | None => Raise KeyError
  end.

(** [d[k] = v]: an existing key keeps its position, a new key goes last. *)
Fixpoint dict_set {V : Type} (d : dict V) (k : string) (v : V) : dict V :=
  match d with
  | [] => [(k, v)]
  | (k', v') :: d' =>
      if String.eqb k k' then (k', v) :: d' else (k', v') :: dict_set d' k v
  end.

Definition dict_keys {V : Type} (d : dict V) : list string := map fst d.

(** [k in d] *)
Definition dict_in {V : Type} (k : string) (d : dict V) : bool :=
  match dict_get d k with
  | Some _ => true
  | None => false
  end.

(** [for x in xs: st = body(st, x)] with exceptions. *)
Fixpoint for_each {A S : Type} (xs : list A) (body : S -> A -> result S)
  (st : S) : result S :=
  match xs with
  | [] => Ok st
  | x :: xs' => st' <- body st x ;; for_each xs' body st'
  end.

(** ** numpy: one-dimensional arrays *)

Abbreviation array := (list R) (only parsing).

Definition Rltb (x y : R) : bool := if Rlt_dec x y then true else false.

(** Element-wise binary operation with numpy's broadcasting rule for
    one-dimensional operands. *)
Definition broadcast (f : R -> R -> R) (a b : array) : result array :=
  if (length a =? length b)%nat then Ok (map (fun p => f (fst p) (snd p)) (combine a b))
  else if (length a =? 1)%nat then Ok (map (f (nth 0 a 0)) b)
  else if (length b =? 1)%nat then Ok (map (fun x => f x (nth 0 b 0)) a)
  else Raise ValueError.

Definition np_add : array -> array -> result array := broadcast Rplus.
Definition np_sub : array -> array -> result array := broadcast Rminus.
Definition np_mul : array -> array -> result array := broadcast Rmult.
Definition np_div : array -> array -> result array := broadcast Rdiv.

(** [a ** 2.] *)
Definition np_sq (a : array) : array := map (fun x => x ^ 2) a.
(** [c * a] and [a * c] for a Python float [c] *)
Definition np_scale (c : R) (a : array) : array := map (Rmult c) a.
Definition np_log (a : array) : array := map ln a.
Definition np_fabs (a : array) : array := map Rabs a.

(** The builtin [sum(a)] and [np.sum(a)]: left fold from [0]. *)
Definition np_sum (a : array) : R := fold_left Rplus a 0.

(** The element an operand contributes at position [i] under broadcasting. *)
Definition bget (a : array) (i : nat) : R :=
  if (length a =? 1)%nat then nth 0 a 0 else nth i a 0.

(** ** Residual calculator *)

(** [Residuals._get_random_effects_residuals] *)
Definition _get_random_effects_residuals (obs mean inter intra : array)
  (normalise : bool) : result (array * array) :=
  let nvals := INR (length mean) in
  d <- np_sub obs mean ;;
  let numer := np_scale (np_sum d) (np_sq inter) in
  denom <- np_add (np_scale nvals (np_sq inter)) (np_sq intra) ;;
  inter_res <- np_div numer denom ;;
  m <- np_add mean inter_res ;;
  intra_res <- np_sub obs m ;;
  if normalise then
    a <- np_div inter_res inter ;;
    b <- np_div intra_res intra ;;
    Ok (a, b)
  else Ok (inter_res, intra_res).

(** ** Data model *)

(** One (model, IMT) cell of an [Expected], [Residual], residual-store or
    modelled-store structure: a dict from ["Mean"], ["Total"],
    ["Inter event"], ["Intra event"] to arrays, or [None] when the model's
    period range excludes the IMT. *)
Definition entry : Type := dict array.
Definition cell : Type := option entry.
Definition store : Type := dict (dict cell).

(** Truth value of a cell, as tested by [if not cell]: [None] and the empty
    dict are false. *)
Definition truthy (c : cell) : bool :=
  match c with
  | Some (_ :: _) => true
  | _ => false
  end.

(** [OrderedDict(pairs)] *)
Definition OrderedDict {V : Type} (pairs : list (string * V)) : dict V :=
  fold_left (fun d p => dict_set d (fst p) (snd p)) pairs [].

(** [d[k1][k2]] *)
Definition getitem2 {V : Type} (d : dict (dict V)) (k1 k2 : string) : result V :=
  d1 <- getitem d k1 ;; getitem d1 k2.

(** [c[k]] on a cell: subscripting [None] is a [TypeError]. *)
Definition cell_getitem (c : cell) (k : string) : result array :=
  match c with
  | None => Raise TypeError
  | Some e => getitem e k
  end.

(** [k in c] on a cell: [None] is not iterable. *)
Definition cell_in (k : string) (c : cell) : result bool :=
  match c with
  | None => Raise TypeError
  | Some e => Ok (dict_in k e)
  end.

(** [s[gmpe][imtx][res_type].extend(xs)] *)
Definition store_extend (s : store) (gmpe imtx res_type : string) (xs : array)
  : result store :=
  sg <- getitem s gmpe ;;
  c <- getitem sg imtx ;;
  match c with
  | None => Raise TypeError
  | Some e =>
      old <- getitem e res_type ;;
      Ok (dict_set s gmpe (dict_set sg imtx (Some (dict_set e res_type (old ++ xs)))))
  end.

(** [u[gmpe][imtx].append(idx)] *)
Definition indices_append (u : dict (dict (list (list nat)))) (gmpe imtx : string)
  (idx : list nat) : result (dict (dict (list (list nat)))) :=
  ug <- getitem u gmpe ;;
  l <- getitem ug imtx ;;
  Ok (dict_set u gmpe (dict_set ug imtx (l ++ [idx]))).

(** [needle in s] on strings *)
Fixpoint contains (needle s : string) : bool :=
  match s with
  | EmptyString => String.prefix needle s
  | String _ s' => String.prefix needle s || contains needle s'
  end.

(** The rupture part of a context, as far as the engine reads it. *)
Record RuptureContext : Type := {
  rake : option R;
  mag : R
}.

(** A prediction model instance (external collaborator): its declared
    standard-deviation types, the periods of its coefficient table, and its
    prediction function, which returns a mean array and one array per
    requested standard-deviation type. *)
Record GMPE : Type := {
  DEFINED_FOR_STANDARD_DEVIATION_TYPES : list string;
  sa_coeffs_periods : list R;
  get_mean_and_stddevs : RuptureContext -> string -> list string -> array * list array
}.

(** A context: one event with its records. *)
Record Context : Type := {
  Ctx : RuptureContext;
  Num_Sites : nat;
  Observations : dict array;
  Expected : store;
  Residual : store
}.

Definition set_Observations (c : Context) (o : dict array) : Context :=
  {| Ctx := Ctx c; Num_Sites := Num_Sites c; Observations := o;
     Expected := Expected c; Residual := Residual c |}.

Definition set_Expected (c : Context) (ctx : RuptureContext) (e : store) : Context :=
  {| Ctx := ctx; Num_Sites := Num_Sites c; Observations := Observations c;
     Expected := e; Residual := Residual c |}.

Definition set_Residual (c : Context) (r : store) : Context :=
  {| Ctx := Ctx c; Num_Sites := Num_Sites c; Observations := Observations c;
     Expected := Expected c; Residual := r |}.

(** The state of a [Residuals] object. *)
Record Residuals : Type := {
  gmpe_list : dict GMPE;
  types : dict (dict (list string));
  residuals : store;
  modelled : store;
  imts : list string;
  unique_indices : dict (dict (list (list nat)));
  gmpe_sa_limits : dict (R * R);
  contexts : list Context
}.

Definition set_residuals (self : Residuals) (r : store) : Residuals :=
  {| gmpe_list := gmpe_list self; types := types self; residuals := r;
     modelled := modelled self; imts := imts self;
     unique_indices := unique_indices self;
     gmpe_sa_limits := gmpe_sa_limits self; contexts := contexts self |}.

Definition set_modelled (self : Residuals) (m : store) : Residuals :=
  {| gmpe_list := gmpe_list self; types := types self; residuals := residuals self;
     modelled := m; imts := imts self;
     unique_indices := unique_indices self;
     gmpe_sa_limits := gmpe_sa_limits self; contexts := contexts self |}.

Definition set_unique_indices (self : Residuals)
  (u : dict (dict (list (list nat)))) : Residuals :=
  {| gmpe_list := gmpe_list self; types := types self; residuals := residuals self;
     modelled := modelled self; imts := imts self;
     unique_indices := u;
     gmpe_sa_limits := gmpe_sa_limits self; contexts := contexts self |}.

Definition set_contexts (self : Residuals) (cs : list Context) : Residuals :=
  {| gmpe_list := gmpe_list self; types := types self; residuals := residuals self;
     modelled := modelled self; imts := imts self;
     unique_indices := unique_indices self;
     gmpe_sa_limits := gmpe_sa_limits self; contexts := cs |}.

(** [min(pers)], [max(pers)] *)
Definition py_min (l : list R) : result R :=
  match l with
  | [] => Raise ValueError
  | x :: l' => Ok (fold_left Rmin l' x)
  end.

Definition py_max (l : list R) : result R :=
  match l with
  | [] => Raise ValueError
  | x :: l' => Ok (fold_left Rmax l' x)
  end.

(** ** Expected motions, residuals and their aggregation *)

Section Pipeline.

(** [imt.from_string(imtx).period] (external IMT parser) *)
Variable imt_period : string -> R.
(** [convert_accel_units(a, 'cm/s/s', 'g')] (external unit conversion) *)
Variable convert_accel_units : array -> array.

(** The period-range test of [__init__] and [get_expected_motions]. *)
Definition outside_period_range (imtx : string) (min_per max_per : R) : bool :=
  contains "SA(" imtx &&
  (Rltb (imt_period imtx) min_per || Rltb max_per (imt_period imtx)).

(** Body of the loop over the IMTs in [Residuals.__init__]; the state is
    [(gmpe_dict_1, gmpe_dict_2, unique_indices[gmpe], types[gmpe])]. *)
Definition init_imt (res_types : list string) (min_per max_per : R)
  (st : dict cell * dict cell * dict (list (list nat)) * dict (list string))
  (imtx : string)
  : dict cell * dict cell * dict (list (list nat)) * dict (list string) :=
  let '(gmpe_dict_1, gmpe_dict_2, ui, ty) := st in
  if outside_period_range imtx min_per max_per then
    (dict_set gmpe_dict_1 imtx None, dict_set gmpe_dict_2 imtx None, ui, ty)
  else
    let e := fold_left (fun e res_type => dict_set e res_type []) res_types [] in
    (dict_set gmpe_dict_1 imtx (Some e),
     dict_set gmpe_dict_2 imtx (Some (dict_set e "Mean" [])),
     dict_set ui imtx [],
     dict_set ty imtx res_types).

(** Body of the loop over the models in [Residuals.__init__]. *)
Definition init_gmpe (imts0 : list string) (self : Residuals) (gmpe : string)
  : result Residuals :=
  gmpe_i <- getitem (gmpe_list self) gmpe ;;
  min_per <- py_min (sa_coeffs_periods gmpe_i) ;;
  max_per <- py_max (sa_coeffs_periods gmpe_i) ;;
  let '(gmpe_dict_1, gmpe_dict_2, ui, ty) :=
    fold_left (init_imt (DEFINED_FOR_STANDARD_DEVIATION_TYPES gmpe_i) min_per max_per)
      imts0 ([], [], [], []) in
  Ok {| gmpe_list := gmpe_list self;
        types := dict_set (types self) gmpe ty;
        residuals := dict_set (residuals self) gmpe gmpe_dict_1;
        modelled := dict_set (modelled self) gmpe gmpe_dict_2;
        imts := imts self;
        unique_indices := dict_set (unique_indices self) gmpe ui;
        gmpe_sa_limits := dict_set (gmpe_sa_limits self) gmpe (min_per, max_per);
        contexts := contexts self |}.

(** [Residuals.__init__]; [gsims] is the list of (name, instance) bindings
    that [_check_gsim_list] resolved from the model identifiers. *)
Definition __init__ (gsims : list (string * GMPE)) (imts0 : list string)
  : result Residuals :=
  let gl := OrderedDict gsims in
  for_each (dict_keys gl) (init_gmpe imts0)
    {| gmpe_list := gl;
       types := OrderedDict (map (fun gmpe => (gmpe, [])) (dict_keys gl));
       residuals := []; modelled := []; imts := imts0;
       unique_indices := []; gmpe_sa_limits := []; contexts := [] |}.

(** [for i, res_type in enumerate(types): e[res_type] = stddev[i]] *)
Fixpoint set_stddevs (e : entry) (res_types : list string) (stddev : list array)
  : result entry :=
  match res_types with
  | [] => Ok e
  | res_type :: res_types' =>
      match stddev with
      | [] => Raise IndexError
      | s :: stddev' => set_stddevs (dict_set e res_type s) res_types' stddev'
      end
  end.

(** What the loop over the IMTs in [get_expected_motions] stores in
    [expected[gmpe][imtx]]. *)
Definition expected_cell (self : Residuals) (ctx : RuptureContext) (gmpe : string)
  (imtx : string) : result cell :=
  gsim <- getitem (gmpe_list self) gmpe ;;
  skip <- (if contains "SA(" imtx then
             lim <- getitem (gmpe_sa_limits self) gmpe ;;
             Ok (Rltb (imt_period imtx) (fst lim) || Rltb (snd lim) (imt_period imtx))
           else Ok false) ;;
  if (skip : bool) then Ok None
  else
    ty <- getitem2 (types self) gmpe imtx ;;
    let '(mean, stddev) := get_mean_and_stddevs gsim ctx imtx ty in
    e <- set_stddevs [("Mean", mean)] ty stddev ;;
    Ok (Some e).

(** [Residuals.get_expected_motions] *)
Definition get_expected_motions (self : Residuals) (context : Context)
  : result Context :=
  let ctx := {| rake := Some (match rake (Ctx context) with
                              | Some r => r
                              | None => 0
                              end);
                mag := mag (Ctx context) |} in
  expected <-
    for_each (dict_keys (gmpe_list self))
      (fun expected gmpe =>
         eg <- for_each (imts self)
                 (fun eg imtx =>
                    c <- expected_cell self ctx gmpe imtx ;; Ok (dict_set eg imtx c))
                 (OrderedDict (map (fun imtx => (imtx, Some [])) (imts self))) ;;
         Ok (dict_set expected gmpe eg))
      (OrderedDict (map (fun gmpe => (gmpe, [])) (dict_keys (gmpe_list self)))) ;;
  Ok (set_Expected context ctx expected).

(** What the loop over the IMTs in [calculate_residuals] stores in
    [residual[gmpe][imtx]]. *)
Definition residual_cell (self : Residuals) (context : Context) (normalise : bool)
  (gmpe : string) (imtx : string) : result cell :=
  o <- getitem (Observations context) imtx ;;
  let obs := np_log o in
  ec <- getitem2 (Expected context) gmpe imtx ;;
  if negb (truthy ec) then Ok None
  else
    mean <- cell_getitem ec "Mean" ;;
    total_stddev <- cell_getitem ec "Total" ;;
    d <- np_sub obs mean ;;
    total <- np_div d total_stddev ;;
    sc <- getitem2 (residuals self) gmpe imtx ;;
    match sc with
    | None => Raise AttributeError
    | Some sd =>
        if dict_in "Inter event" sd then
          inter0 <- cell_getitem ec "Inter event" ;;
          intra0 <- cell_getitem ec "Intra event" ;;
          ' (inter, intra) <-
            _get_random_effects_residuals obs mean inter0 intra0 normalise ;;
          Ok (Some [("Total", total); ("Inter event", inter); ("Intra event", intra)])
        else Ok (Some [("Total", total)])
    end.

(** [Residuals.calculate_residuals] *)
Definition calculate_residuals (self : Residuals) (context : Context)
  (normalise : bool) : result Context :=
  residual <-
    for_each (dict_keys (gmpe_list self))
      (fun residual gmpe =>
         rg <- for_each (imts self)
                 (fun rg imtx =>
                    c <- residual_cell self context normalise gmpe imtx ;;
                    Ok (dict_set rg imtx c))
                 [] ;;
         Ok (dict_set residual gmpe rg))
      [] ;;
  Ok (set_Residual context residual).

(** [np.all(np.fabs(inter_ev - inter_ev[0]) < 1.0E-12)], with
    [x0 = inter_ev[0]] *)
Definition inter_event_constant (inter_ev : array) (x0 : R) : bool :=
  forallb (fun x => Rltb (Rabs (x - x0)) 1e-12) inter_ev.

(** Body of the loop over the residual types in [get_residuals]. *)
Definition aggregate_res_type (context : Context) (gmpe imtx : string)
  (self : Residuals) (res_type : string) : result Residuals :=
  self1 <-
    (if String.eqb res_type "Inter event" then
       rc <- getitem2 (Residual context) gmpe imtx ;;
       inter_ev <- cell_getitem rc res_type ;;
       match inter_ev with
       | [] => Raise IndexError
       | x0 :: _ =>
           if inter_event_constant inter_ev x0 then
             r <- store_extend (residuals self) gmpe imtx res_type [x0] ;;
             u <- indices_append (unique_indices self) gmpe imtx [0%nat] ;;
             Ok (set_unique_indices (set_residuals self r) u)
           else
             r <- store_extend (residuals self) gmpe imtx res_type inter_ev ;;
             u <- indices_append (unique_indices self) gmpe imtx
                    (seq 0 (length inter_ev)) ;;
             Ok (set_unique_indices (set_residuals self r) u)
       end
     else
       rc <- getitem2 (Residual context) gmpe imtx ;;
       v <- cell_getitem rc res_type ;;
       r <- store_extend (residuals self) gmpe imtx res_type v ;;
       Ok (set_residuals self r)) ;;
  ec <- getitem2 (Expected context) gmpe imtx ;;
  ev <- cell_getitem ec res_type ;;
  m <- store_extend (modelled self1) gmpe imtx res_type ev ;;
  Ok (set_modelled self1 m).

(** Body of the loop over the IMTs in [get_residuals]. *)
Definition aggregate_imt (context : Context) (gmpe : string)
  (self : Residuals) (imtx : string) : result Residuals :=
  rc <- getitem2 (Residual context) gmpe imtx ;;
  if negb (truthy rc) then Ok self
  else
    sc <- getitem2 (residuals self) gmpe imtx ;;
    match sc with
    | None => Raise AttributeError
    | Some e =>
        self1 <- for_each (dict_keys e) (aggregate_res_type context gmpe imtx) self ;;
        ec <- getitem2 (Expected context) gmpe imtx ;;
        mean <- cell_getitem ec "Mean" ;;
        m <- store_extend (modelled self1) gmpe imtx "Mean" mean ;;
        Ok (set_modelled self1 m)
    end.

(** Body of the loop over the models in [get_residuals]. *)
Definition aggregate_gmpe (context : Context) (self : Residuals) (gmpe : string)
  : result Residuals :=
  sg <- getitem (residuals self) gmpe ;;
  for_each (dict_keys sg) (aggregate_imt context gmpe) self.

(** Body of the loop over the contexts in [get_residuals]. *)
Definition get_residuals_context (normalise : bool) (self : Residuals)
  (context : Context) : result Residuals :=
  let accel_imts :=
    filter (fun imtx => String.eqb imtx "PGA" || contains "SA(" imtx) (imts self) in
  observations <-
    for_each accel_imts
      (fun o a_imt => v <- getitem o a_imt ;; Ok (dict_set o a_imt (convert_accel_units v)))
      (Observations context) ;;
  context1 <- get_expected_motions self (set_Observations context observations) ;;
  context2 <- calculate_residuals self context1 normalise ;;
  self1 <- for_each (dict_keys (residuals self)) (aggregate_gmpe context2) self ;;
  Ok (set_contexts self1 (contexts self1 ++ [context2])).

(** [Residuals.get_residuals]; [database_contexts] is what
    [database.get_contexts] returned. The closing conversion of the
    accumulated lists to arrays is the identity on [list R]. *)
Definition get_residuals (self : Residuals) (database_contexts : list Context)
  (normalise : bool) : result Residuals :=
  for_each database_contexts (get_residuals_context normalise) (set_contexts self []).

End Pipeline.

(** *** What one context adds to the stores *)

(** [s[gmpe][imtx][res_type]], when the cell is populated and has the key *)
Definition store_get (s : store) (gmpe imtx res_type : string) : option array :=
  match dict_get s gmpe with
  | Some sg =>
      match dict_get sg imtx with
      | Some (Some e) => dict_get e res_type
      | _ => None
      end
  | None => None
  end.

(** [u[gmpe][imtx]] *)
Definition indices_get (u : dict (dict (list (list nat)))) (gmpe imtx : string)
  : option (list (list nat)) :=
  match dict_get u gmpe with
  | Some ug => dict_get ug imtx
  | None => None
  end.

(** Every dict of the store has distinct keys. *)
Definition wf_cell (ic : string * cell) : Prop :=
  match snd ic with
  | Some e => NoDup (dict_keys e)
  | None => True
  end.

Definition wf_store (s : store) : Prop :=
  NoDup (dict_keys s) /\
  Forall (fun gs => NoDup (dict_keys (snd gs)) /\ Forall wf_cell (snd gs)) s.

(** The elements the context adds to the residual array of the key path:
    its residual array or, for the inter-event type, the first entry alone
    when the array is constant within [1e-12]; nothing when its [Residual]
    entry is [None]. *)
Definition residual_contribution (c : Context) (gmpe imtx res_type : string) : array :=
  match getitem2 (Residual c) gmpe imtx with
  | Ok rc =>
      if truthy rc then
        match cell_getitem rc res_type with
        | Ok v =>
            if String.eqb res_type "Inter event" then
              match v with
              | [] => []
              | x0 :: _ => if inter_event_constant v x0 then [x0] else v
              end
            else v
        | Raise _ => []
        end
      else []
  | Raise _ => []
  end.

(** The elements the context adds to the modelled array of the key path: its
    whole expected array. *)
Definition modelled_contribution (c : Context) (gmpe imtx res_type : string) : array :=
  match getitem2 (Residual c) gmpe imtx with
  | Ok rc =>
      if truthy rc then
        match getitem2 (Expected c) gmpe imtx with
        | Ok ec => match cell_getitem ec res_type with
                   | Ok v => v
                   | Raise _ => []
                   end
        | Raise _ => []
        end
      else []
  | Raise _ => []
  end.

(** The index array the context records for the pair: [[0]] for a constant
    inter-event array, the full range otherwise. *)
Definition index_contribution (c : Context) (gmpe imtx : string) : list (list nat) :=
  match getitem2 (Residual c) gmpe imtx with
  | Ok rc =>
      if truthy rc then
        match cell_getitem rc "Inter event" with
        | Ok ((x0 :: _) as v) =>
            [if inter_event_constant v x0 then [0%nat] else seq 0 (length v)]
        | _ => []
        end
      else []
  | Raise _ => []
  end.

(** The three collections of one key path: the residual array, the modelled
    array and, for the inter-event type, the recorded index arrays. *)
Definition store_observation (gmpe imtx res_type : string) (self : Residuals)
  : option array * option array * option (list (list nat)) :=
  (store_get (residuals self) gmpe imtx res_type,
   store_get (modelled self) gmpe imtx res_type,
   if String.eqb res_type "Inter event"
   then indices_get (unique_indices self) gmpe imtx
   else None).

(** What the aggregation of one context does to them. *)
Definition context_effect (gmpe imtx res_type : string) (c : Context)
  (o : option array * option array * option (list (list nat)))
  : option array * option array * option (list (list nat)) :=
  let '(a, b, u) := o in
  (option_map (fun a => a ++ residual_contribution c gmpe imtx res_type) a,
   option_map (fun b => b ++ modelled_contribution c gmpe imtx res_type) b,
   option_map (fun u => u ++ index_contribution c gmpe imtx) u).

(** ** Statistics engine *)

(** [1.0 / float(n)] on Python floats: a zero divisor raises. *)
Definition py_div (x y : R) : result R :=
  if Req_dec_T y 0 then Raise ZeroDivisionError else Ok (x / y).

Fixpoint mapM {A B : Type} (f : A -> result B) (l : list A) : result (list B) :=
  match l with
  | [] => Ok []
  | x :: l' => y <- f x ;; ys <- mapM f l' ;; Ok (y :: ys)
  end.

(** [l[i]] on a list *)
Definition list_getitem {A : Type} (l : list A) (i : nat) : result A :=
  match nth_error l i with
  | Some x => Ok x
  | None => Raise IndexError
  end.

(** [np.nanmean], [np.nanstd] and [np.mean], [np.std] on real entries *)
Definition np_mean (a : array) : R := np_sum a / INR (length a).
Definition np_std (a : array) : R :=
  sqrt (np_mean (map (fun x => Rabs (x - np_mean a) ^ 2) a)).

(** [scipy.stats.norm.pdf(x, 0., 1.0)] and [np.log2] *)
Definition norm_pdf (x : R) : R := exp (- (x ^ 2) / 2) / sqrt (2 * PI).
Definition np_log2 (x : R) : R := ln x / ln 2.

(** [Residuals.get_residual_statistics_for] *)
Definition get_residual_statistics_for (self : Residuals) (gmpe imtx : string)
  : result (dict (dict R)) :=
  c <- getitem2 (residuals self) gmpe imtx ;;
  ty <- getitem2 (types self) gmpe imtx ;;
  for_each ty
    (fun d res_type =>
       v <- cell_getitem c res_type ;;
       Ok (dict_set d res_type [("Mean", np_mean v); ("Std Dev", np_std v)]))
    [].

(** [Residuals.get_residual_statistics] *)
Definition get_residual_statistics (self : Residuals)
  : result (dict (dict (dict (dict R)))) :=
  for_each (dict_keys (gmpe_list self))
    (fun statistics gmpe =>
       for_each (imts self)
         (fun statistics imtx =>
            c <- getitem2 (residuals self) gmpe imtx ;;
            if negb (truthy c) then Ok statistics
            else
              s <- get_residual_statistics_for self gmpe imtx ;;
              sg <- getitem statistics gmpe ;;
              Ok (dict_set statistics gmpe (dict_set sg imtx s)))
         statistics)
    (OrderedDict (map (fun gmpe => (gmpe, [])) (dict_keys (gmpe_list self)))).

Section Likelihood.

(** [scipy.special.erf] and [np.nanpercentile] (external) *)
Variable erf : R -> R.
Variable np_nanpercentile : array -> R -> R.

(** [Residuals._get_likelihood_values_for] *)
Definition _get_likelihood_values_for (self : Residuals) (gmpe imt : string)
  : result (dict (array * R)) :=
  ty <- getitem2 (types self) gmpe imt ;;
  for_each ty
    (fun ret res_type =>
       c <- getitem2 (residuals self) gmpe imt ;;
       v <- cell_getitem c res_type ;;
       let zvals := np_fabs v in
       let l_h := map (fun z => 1 - erf (z / sqrt 2)) zvals in
       let median_lh := np_nanpercentile l_h 50 in
       Ok (dict_set ret res_type (l_h, median_lh)))
    [].

(** [statistics[gmpe][imtx][res_type]["Median LH"] = median_lh] *)
Definition set_median_lh (statistics : dict (dict (dict (dict R))))
  (gmpe imtx res_type : string) (median_lh : R)
  : result (dict (dict (dict (dict R)))) :=
  sg <- getitem statistics gmpe ;;
  si <- getitem sg imtx ;;
  sr <- getitem si res_type ;;
  Ok (dict_set statistics gmpe
        (dict_set sg imtx (dict_set si res_type (dict_set sr "Median LH" median_lh)))).

(** [Residuals.get_likelihood_values] *)
Definition get_likelihood_values (self : Residuals)
  : result (dict (dict (dict array)) * dict (dict (dict (dict R)))) :=
  statistics0 <- get_residual_statistics self ;;
  for_each (dict_keys (gmpe_list self))
    (fun st gmpe =>
       for_each (imts self)
         (fun st imtx =>
            let '(lh_values, statistics) := st in
            c <- getitem2 (residuals self) gmpe imtx ;;
            if negb (truthy c) then Ok (lh_values, statistics)
            else
              values <- _get_likelihood_values_for self gmpe imtx ;;
              lg <- getitem lh_values gmpe ;;
              statistics1 <-
                for_each values
                  (fun s item => set_median_lh s gmpe imtx (fst item) (snd (snd item)))
                  statistics ;;
              Ok (dict_set lh_values gmpe
                    (dict_set lg imtx
                       (fold_left (fun d item => dict_set d (fst item) (fst (snd item)))
                          values [])),
                  statistics1))
         st)
    (OrderedDict (map (fun gmpe => (gmpe, [])) (dict_keys (gmpe_list self))),
     statistics0).

End Likelihood.

(** The per-IMT part of the loop over the IMTs in [get_loglikelihood_values]:
    the log-likelihoods [asll] of the total residuals, or [None] when the
    pair is skipped. *)
Definition llh_asll (self : Residuals) (gmpe imtx : string) : result (option array) :=
  if negb (existsb (String.eqb imtx) (imts self)) then Ok None
  else
    c <- getitem2 (residuals self) gmpe imtx ;;
    if negb (truthy c) then Ok None
    else
      total <- cell_getitem c "Total" ;;
      Ok (Some (map (fun x => np_log2 (norm_pdf x)) total)).

(** [-(1.0 / float(len(a))) * np.sum(a)] *)
Definition neg_mean_log (a : array) : result R :=
  inv <- py_div 1 (INR (length a)) ;;
  Ok (- inv * np_sum a).

(** Body of the loop over the IMTs in [get_loglikelihood_values]; the state
    is [(log_residuals[gmpe], llh[gmpe])]. *)
Definition llh_imt (self : Residuals) (gmpe : string)
  (st : array * dict (option R)) (imtx : string) : result (array * dict (option R)) :=
  let '(log_residuals, llh_g) := st in
  a <- llh_asll self gmpe imtx ;;
  match a with
  | None => Ok (log_residuals, llh_g)
  | Some asll =>
      v <- neg_mean_log asll ;;
      Ok (log_residuals ++ asll, dict_set llh_g imtx (Some v))
  end.

(** Body of the loop over the models in [get_loglikelihood_values]. *)
Definition llh_gmpe (self : Residuals) (imts0 : list string) (gmpe : string)
  : result (dict (option R)) :=
  ' (log_residuals, llh_g) <-
    for_each imts0 (llh_imt self gmpe)
      ([], OrderedDict (map (fun imtx => (imtx, None)) imts0 ++ [("All", None)])) ;;
  v <- neg_mean_log log_residuals ;;
  Ok (dict_set llh_g "All" (Some v)).

(** [llh[gmpe]["All"]] as a float operand *)
Definition llh_all (llh : dict (dict (option R))) (gmpe : string) : result R :=
  v <- getitem2 llh gmpe "All" ;;
  match v with
  | Some x => Ok x
  | None => Raise TypeError
  end.

(** [Residuals.get_loglikelihood_values] *)
Definition get_loglikelihood_values (self : Residuals) (imts0 : list string)
  : result (dict (dict (option R)) * dict R) :=
  llh <-
    for_each (dict_keys (gmpe_list self))
      (fun llh gmpe => l <- llh_gmpe self imts0 gmpe ;; Ok (dict_set llh gmpe l))
      (OrderedDict (map (fun gmpe => (gmpe, []))  (dict_keys (gmpe_list self)))) ;;
  weights0 <-
    mapM (fun gmpe => l <- llh_all llh gmpe ;; Ok (Rpower 2 (- l)))
      (dict_keys (gmpe_list self)) ;;
  let weights := map (fun w => w / np_sum weights0) weights0 in
  Ok (llh, OrderedDict (combine (dict_keys (gmpe_list self)) weights)).

(** The aggregate LLH of a model and its weight, read off the two values
    [get_loglikelihood_values] returns. *)
Definition aggregate_llh (llh : dict (dict (option R))) (gmpe : string) : R :=
  match llh_all llh gmpe with
  | Ok x => x
  | Raise _ => 0
  end.

Definition weight_of (model_weights : dict R) (gmpe : string) : R :=
  match dict_get model_weights gmpe with
  | Some w => w
  | None => 0
  end.

(** [np.sum(data_i < data_j)] for two arrays of one shape *)
Definition count_lt (data_i data_j : array) : Z :=
  Z.of_nat (length (filter (fun p => Rltb (fst p) (snd p)) (combine data_i data_j))).

(** The same count over two-dimensional slices [outputs[i, :, :]]. *)
Definition count_lt2 (data_i data_j : list array) : Z :=
  fold_left Z.add (map (fun p => count_lt (fst p) (snd p)) (combine data_i data_j)) 0%Z.

(** The value [get_distinctiveness] returns: a models x models matrix when
    summing over the IMTs, a models x models x IMTs cube otherwise. *)
Inductive distinctiveness_t : Type :=
| Summed (d : list (list R))
| PerIMT (d : list (list (list R))).

(** [Residuals.get_distinctiveness] *)
Definition get_distinctiveness (self : Residuals) (outputs : list (list array))
  (number_bootstraps : nat) (sum_imts : bool) : result distinctiveness_t :=
  let ngmpes := length (dict_keys (gmpe_list self)) in
  let nbs := INR number_bootstraps in
  let nimts := INR (length (imts self)) in
  if sum_imts then
    d <- mapM (fun i =>
           mapM (fun j =>
             if (i =? j)%nat then Ok 0
             else
               data_i <- list_getitem outputs i ;;
               data_j <- list_getitem outputs j ;;
               py_div (IZR (count_lt2 data_i data_j - count_lt2 data_j data_i))
                      (nbs * nimts))
             (seq 0 ngmpes))
           (seq 0 ngmpes) ;;
    Ok (Summed d)
  else
    d <- mapM (fun i =>
           mapM (fun j =>
             if (i =? j)%nat then Ok (repeat 0 (length (imts self)))
             else
               mapM (fun k =>
                 oi <- list_getitem outputs i ;;
                 data_i <- list_getitem oi k ;;
                 oj <- list_getitem outputs j ;;
                 data_j <- list_getitem oj k ;;
                 py_div (IZR (count_lt data_i data_j - count_lt data_j data_i)) nbs)
                 (seq 0 (length (imts self))))
             (seq 0 ngmpes))
           (seq 0 ngmpes) ;;
    Ok (PerIMT d).

(** ** Multivariate log-likelihood *)

Abbreviation matrix := (list (list R)) (only parsing).

Definition np_zeros (n : nat) : array := repeat 0 n.
Definition np_zeros2 (n m : nat) : matrix := repeat (np_zeros m) n.

(** [a[i:(i + n)] = v]: the slice is clipped to the array, the value has the
    length of the slice or a single element. *)
Definition set_slice (a : array) (i n : nat) (v : array) : result array :=
  let lo := Nat.min i (length a) in
  let hi := Nat.min (i + n) (length a) in
  if (length v =? hi - lo)%nat then Ok (firstn lo a ++ v ++ skipn hi a)
  else if (length v =? 1)%nat
       then Ok (firstn lo a ++ repeat (nth 0 v 0) (hi - lo) ++ skipn hi a)
       else Raise ValueError.

(** [row[j] = x] *)
Definition set_nth (row : array) (j : nat) (x : R) : array :=
  firstn j row ++ x :: skipn (S j) row.

(** [z[i:(i + n), j] = v] *)
Definition set_col_slice (z : matrix) (i n j : nat) (v : array) : result matrix :=
  let lo := Nat.min i (length z) in
  let hi := Nat.min (i + n) (length z) in
  vals <- (if (length v =? hi - lo)%nat then Ok v
           else if (length v =? 1)%nat then Ok (repeat (nth 0 v 0) (hi - lo))
                else Raise ValueError) ;;
  Ok (firstn lo z
      ++ map (fun p => set_nth (fst p) j (snd p)) (combine (firstn (hi - lo) (skipn lo z)) vals)
      ++ skipn hi z).

(** [u.dot(v)] for two vectors *)
Definition dotv (u v : array) : R :=
  np_sum (map (fun p => fst p * snd p) (combine u v)).

(** [np.diag(d)] *)
Definition np_diag (d : array) : matrix :=
  map (fun a => map (fun b => if (a =? b)%nat then nth a d 0 else 0) (seq 0 (length d)))
      (seq 0 (length d)).

(** [z.dot(z.T)] *)
Definition dot_T (z : matrix) : matrix :=
  map (fun ra => map (fun rb => dotv ra rb) z) z.

(** [a + b] on two matrices of one shape *)
Definition mat_add (a b : matrix) : matrix :=
  map (fun p => map (fun q => fst q + snd q) (combine (fst p) (snd p))) (combine a b).

Definition remove_nth {A : Type} (j : nat) (l : list A) : list A :=
  firstn j l ++ skipn (S j) l.

(** The determinant, by expansion along the first row. *)
Fixpoint det_rec (n : nat) (m : matrix) : R :=
  match n with
  | O => 1
  | S n' =>
      match m with
      | [] => 1
      | row :: rest =>
          np_sum (map (fun j => (-1) ^ j * nth j row 0 * det_rec n' (map (remove_nth j) rest))
                    (seq 0 (length row)))
      end
  end.

Definition det (m : matrix) : R := det_rec (length m) m.

(** [np.linalg.slogdet(m)[1]], the logarithm of the absolute determinant *)
Definition slogdet (m : matrix) : R := ln (Rabs (det m)).

(** [scipy.linalg.solve(a, b)] in exact arithmetic (Cramer's rule); a
    singular matrix raises. *)
Definition solve (a : matrix) (b : array) : result array :=
  if Req_dec_T (det a) 0 then Raise LinAlgError
  else Ok (map (fun k => det (map (fun p => set_nth (fst p) k (snd p)) (combine a b)) / det a)
             (seq 0 (length a))).

(** Body of the first loop of [_build_matrices]; the state is
    [(observations, i)]. *)
Definition build_observations (imtx : string) (st : array * nat) (ctxt : Context)
  : result (array * nat) :=
  let '(observations, i) := st in
  let n_s := Num_Sites ctxt in
  o <- getitem (Observations ctxt) imtx ;;
  observations' <- set_slice observations i n_s (np_log o) ;;
  Ok (observations', (i + n_s)%nat).

(** Body of the second loop of [_build_matrices]; the state is
    [(r_mat, z_g_mat, expected_mat, i)]. *)
Definition build_event (gmpe imtx : string) (st : array * matrix * array * nat)
  (jc : nat * Context) : result (array * matrix * array * nat) :=
  let '(r_mat, z_g_mat, expected_mat, i) := st in
  let '(j, ctxt) := jc in
  ec <- getitem2 (Expected ctxt) gmpe imtx ;;
  has_intra <- cell_in "Intra event" ec ;;
  has_inter <- cell_in "Inter event" ec ;;
  if negb has_intra && negb has_inter then
    total <- cell_getitem ec "Total" ;;
    let n_r := length total in
    r_mat' <- set_slice r_mat i n_r total ;;
    mean <- cell_getitem ec "Mean" ;;
    expected_mat' <- set_slice expected_mat i n_r mean ;;
    Ok (r_mat', z_g_mat, expected_mat', (i + n_r)%nat)
  else
    intra <- cell_getitem ec "Intra event" ;;
    let n_r := length intra in
    r_mat' <- set_slice r_mat i n_r intra ;;
    mean <- cell_getitem ec "Mean" ;;
    expected_mat' <- set_slice expected_mat i n_r mean ;;
    inter <- cell_getitem ec "Inter event" ;;
    z_g_mat' <- (if (length inter =? 1)%nat
                 then set_col_slice z_g_mat i n_r j [nth 0 inter 0]
                 else set_col_slice z_g_mat i n_r j inter) ;;
    Ok (r_mat', z_g_mat', expected_mat', (i + n_r)%nat).

(** [_build_matrices] *)
Definition _build_matrices (contexts0 : list Context) (gmpe imtx : string)
  : result (array * matrix * array * nat * nat) :=
  let neqs := length contexts0 in
  let nrecs := fold_left Nat.add (map Num_Sites contexts0) 0%nat in
  ' (observations, _) <-
    for_each contexts0 (build_observations imtx) (np_zeros nrecs, 0%nat) ;;
  ' (r_mat, z_g_mat, expected_mat, _) <-
    for_each (combine (seq 0 neqs) contexts0) (build_event gmpe imtx)
      (np_zeros nrecs, np_zeros2 nrecs neqs, np_zeros nrecs, 0%nat) ;;
  let v_mat := mat_add (np_diag (np_sq r_mat)) (dot_T z_g_mat) in
  Ok (observations, v_mat, expected_mat, neqs, nrecs).

(** [get_multivariate_ll] *)
Definition get_multivariate_ll (contexts0 : list Context) (gmpe imt : string)
  : result R :=
  ' (observations, v_mat, expected_mat, neqs, nrecs) <-
    _build_matrices contexts0 gmpe imt ;;
  let logdetv := slogdet v_mat in
  b_mat <- np_sub observations expected_mat ;;
  x <- solve v_mat b_mat ;;
  Ok ((INR nrecs * ln (2 * PI) + logdetv + dotv b_mat x) / 2).

(** [np.isnan]: no real number is a NaN. *)
Definition np_isnan (x : R) : bool := false.

(** The value stored per model by [get_multivariate_loglikelihood_values]:
    a dict over the IMTs, or the sum over the IMTs. *)
Inductive mllh_value : Type :=
| MllhPerIMT (d : dict R)
| MllhSummed (total_llh : R).

(** What the loop over the IMTs in [get_multivariate_loglikelihood_values]
    stores in [multi_llh_values[gmpe][imtx]]. *)
Definition multi_llh_value (self : Residuals) (gmpe imtx : string) : result R :=
  c <- getitem2 (residuals self) gmpe imtx ;;
  match c with
  | None => Ok 0
  | Some _ => get_multivariate_ll (contexts self) gmpe imtx
  end.

(** [Residuals.get_multivariate_loglikelihood_values] *)
Definition get_multivariate_loglikelihood_values (self : Residuals) (sum_imts : bool)
  : result (dict mllh_value) :=
  for_each (dict_keys (gmpe_list self))
    (fun multi_llh_values gmpe =>
       v <- (mg <- for_each (imts self)
                     (fun mg imtx => v <- multi_llh_value self gmpe imtx ;;
                                     Ok (dict_set mg imtx v))
                     [] ;;
             if sum_imts then
               total_llh <-
                 for_each (imts self)
                   (fun total_llh imtx =>
                      v <- getitem mg imtx ;;
                      if np_isnan v then Ok total_llh else Ok (total_llh + v))
                   0 ;;
               Ok (MllhSummed total_llh)
             else Ok (MllhPerIMT mg)) ;;
       Ok (dict_set multi_llh_values gmpe v))
    (OrderedDict (map (fun gmpe => (gmpe, MllhPerIMT [])) (dict_keys (gmpe_list self)))).

(** *** The covariance matrix in the words of the specification *)

(** The within-event standard deviations of an event's records: the
    intra-event standard deviation, or the total one when the model has no
    decomposition for the IMT. *)
Definition spec_event_phi (gmpe imtx : string) (ctxt : Context) : array :=
  match getitem2 (Expected ctxt) gmpe imtx with
  | Ok (Some e) =>
      match dict_get e "Intra event" with
      | Some phi => phi
      | None => match dict_get e "Total" with
                | Some sigma => sigma
                | None => []
                end
      end
  | _ => []
  end.

(** The inter-event standard deviation of record [k] of an event: zero when
    the model has no decomposition for the IMT. *)
Definition spec_event_tau (gmpe imtx : string) (ctxt : Context) (k : nat) : R :=
  match getitem2 (Expected ctxt) gmpe imtx with
  | Ok (Some e) =>
      match dict_get e "Inter event" with
      | Some tau => bget tau k
      | None => 0
      end
  | _ => 0
  end.

Definition spec_event_mean (gmpe imtx : string) (ctxt : Context) : array :=
  match getitem2 (Expected ctxt) gmpe imtx with
  | Ok (Some e) => match dict_get e "Mean" with
                   | Some m => m
                   | None => []
                   end
  | _ => []
  end.

Definition spec_event_log_obs (imtx : string) (ctxt : Context) : array :=
  match dict_get (Observations ctxt) imtx with
  | Some o => np_log o
  | None => []
  end.

(** The rows of [Z] that belong to the records of event [j]: the event's
    inter-event standard deviation in column [j], zero elsewhere. *)
Definition spec_Z_rows (gmpe imtx : string) (neqs j : nat) (ctxt : Context) : matrix :=
  map (fun k => map (fun col => if (col =? j)%nat then spec_event_tau gmpe imtx ctxt k else 0)
                  (seq 0 neqs))
      (seq 0 (Num_Sites ctxt)).

Definition spec_Z (gmpe imtx : string) (contexts0 : list Context) : matrix :=
  concat (map (fun jc => spec_Z_rows gmpe imtx (length contexts0) (fst jc) (snd jc))
            (combine (seq 0 (length contexts0)) contexts0)).

(** [V = diag(phi^2) + Z Z^T] *)
Definition spec_V (gmpe imtx : string) (contexts0 : list Context) : matrix :=
  mat_add (np_diag (np_sq (concat (map (spec_event_phi gmpe imtx) contexts0))))
          (dot_T (spec_Z gmpe imtx contexts0)).

(** The vector of log-observations minus expected means. *)
Definition spec_r (gmpe imtx : string) (contexts0 : list Context) : array :=
  map (fun p => fst p - snd p)
    (combine (concat (map (spec_event_log_obs imtx) contexts0))
             (concat (map (spec_event_mean gmpe imtx) contexts0))).

(** An event whose arrays have one entry per record, with either no
    decomposition or both parts of it (the inter-event deviation per record or
    as one shared element). *)
Definition event_shaped (gmpe imtx : string) (ctxt : Context) : Prop :=
  exists e o mean,
    getitem2 (Expected ctxt) gmpe imtx = Ok (Some e) /\
    dict_get (Observations ctxt) imtx = Some o /\
    length o = Num_Sites ctxt /\
    dict_get e "Mean" = Some mean /\ length mean = Num_Sites ctxt /\
    ((dict_get e "Intra event" = None /\ dict_get e "Inter event" = None /\
      exists sigma, dict_get e "Total" = Some sigma /\ length sigma = Num_Sites ctxt) \/
     (exists phi tau,
        dict_get e "Intra event" = Some phi /\ length phi = Num_Sites ctxt /\
        dict_get e "Inter event" = Some tau /\
        (length tau = 1%nat \/ length tau = Num_Sites ctxt))).

(** ** Euclidean distance-based ranking *)

(** [np.max(a)] *)
Definition np_max (a : list R) : result R :=
  match a with
  | [] => Raise ValueError
  | x :: a' => Ok (fold_left Rmax a' x)
  end.

(** [math.ceil(x)] *)
Definition py_ceil (x : R) : Z := (- Int_part (- x))%Z.

(** [len(np.arange(start, stop, step))] *)
Definition arange_len (start stop step : R) : nat :=
  Z.to_nat (py_ceil ((stop - start) / step)).

(** [Residuals._get_edr_gmpe_information] *)
Definition _get_edr_gmpe_information (self : Residuals) (gmpe : string)
  : result (list R * list R * list R) :=
  for_each (imts self)
    (fun st imtx =>
       for_each (contexts self)
         (fun st context =>
            let '(obs, expected, stddev) := st in
            o <- getitem (Observations context) imtx ;;
            ec <- getitem2 (Expected context) gmpe imtx ;;
            mean <- cell_getitem ec "Mean" ;;
            total <- cell_getitem ec "Total" ;;
            Ok (obs ++ np_log o, expected ++ mean, stddev ++ total))
         st)
    ([], [], []).

(** [Residuals._get_edr_kappa] *)
Definition _get_edr_kappa (obs expected : list R) : result R :=
  let mu_a := np_mean obs in
  let mu_y := np_mean expected in
  cross <- np_mul (map (fun x => x - mu_a) obs) (map (fun y => y - mu_y) expected) ;;
  let b_1 := np_sum cross / np_sum (np_sq (map (fun x => x - mu_a) obs)) in
  let b_0 := mu_y - b_1 * mu_a in
  shift <- np_sub (map (fun x => b_0 + b_1 * x) obs) obs ;;
  y_c <- np_sub expected shift ;;
  d_orig <- np_sub obs expected ;;
  let de_orig := np_sum (np_sq d_orig) in
  d_corr <- np_sub obs y_c ;;
  let de_corr := np_sum (np_sq d_corr) in
  Ok (de_orig / de_corr).

Section EDR.

(** [scipy.stats.norm.cdf] (external) *)
Variable norm_cdf : R -> R.

(** [norm.cdf((d - mu_d) / stddev) - norm.cdf((-d - mu_d) / stddev)] *)
Definition cdf_band (d mu_d stddev : list R) : result (list R) :=
  up0 <- np_sub d mu_d ;;
  up1 <- np_div up0 stddev ;;
  lo0 <- np_sub (map Ropp d) mu_d ;;
  lo1 <- np_div lo0 stddev ;;
  np_sub (map norm_cdf up1) (map norm_cdf lo1).

(** [Residuals._get_edr] *)
Definition _get_edr (obs expected stddev : list R) (bandwidth multiplier : R)
  : result (R * R * R) :=
  let nvals := length obs in
  let min_d := bandwidth / 2 in
  kappa <- _get_edr_kappa obs expected ;;
  mu_d <- np_sub obs expected ;;
  lower <- np_sub expected (np_scale multiplier stddev) ;;
  d1 <- np_sub obs lower ;;
  let d1c := np_fabs d1 in
  upper <- np_add expected (np_scale multiplier stddev) ;;
  d2 <- np_sub obs upper ;;
  let d2c := np_fabs d2 in
  m1 <- np_max d1c ;;
  m2 <- np_max d2c ;;
  let dc_max := py_ceil (Rmax m1 m2) in
  let num_d := arange_len min_d (IZR dc_max) bandwidth in
  mde <-
    for_each (seq 0 num_d)
      (fun mde iloc =>
         let d_val := np_scale (min_d + INR iloc * bandwidth) (repeat 1 nvals) in
         let d_1 := map (fun x => x - min_d) d_val in
         let d_2 := map (fun x => x + min_d) d_val in
         p_1 <- cdf_band d_1 mu_d stddev ;;
         p_2 <- cdf_band d_2 mu_d stddev ;;
         dp <- np_sub p_2 p_1 ;;
         inc <- np_mul dp d_val ;;
         np_add mde inc)
      (np_zeros nvals) ;;
  inv_n <- py_div 1 (INR nvals) ;;
  let mde_norm := sqrt (inv_n * np_sum (np_sq mde)) in
  let edr := sqrt (kappa * inv_n * np_sum (np_sq mde)) in
  Ok (mde_norm, sqrt kappa, edr).

(** [Residuals.get_edr_values] *)
Definition get_edr_values (self : Residuals) (bandwidth multiplier : R)
  : result (dict (dict R)) :=
  for_each (dict_keys (gmpe_list self))
    (fun edr_values gmpe =>
       ' (obs, expected, stddev) <- _get_edr_gmpe_information self gmpe ;;
       ' (mde_norm, sqrt_kappa, edr) <- _get_edr obs expected stddev bandwidth multiplier ;;
       Ok (dict_set edr_values gmpe
             [("MDE Norm", mde_norm); ("sqrt Kappa", sqrt_kappa); ("EDR", edr)]))
    (OrderedDict (map (fun gmpe => (gmpe, [])) (dict_keys (gmpe_list self)))).

End EDR.

(** ** Single-station analysis *)

(** The values kept in a [site_analysis] cell: the number of events, arrays
    of residuals, and scalars. *)
Inductive sa_value : Type :=
| SInt (n : nat)
| SArr (a : list R)
| SNum (x : R).

(** A per-site [Residuals] instance with its [site_analysis] attribute. *)
Record SiteResiduals : Type := {
  resid : Residuals;
  site_analysis : dict (dict (dict sa_value))
}.

Module SingleStation.

(** The state of a [SingleStationAnalysis] object. *)
Record t : Type := {
  site_ids : list string;
  input_gmpe_list : list (string * GMPE);
  gmpe_list : dict GMPE;
  imts : list string;
  site_residuals : list SiteResiduals
}.

End SingleStation.

Definition set_site_residuals (self : SingleStation.t) (l : list SiteResiduals)
  : SingleStation.t :=
  {| SingleStation.site_ids := SingleStation.site_ids self;
     SingleStation.input_gmpe_list := SingleStation.input_gmpe_list self;
     SingleStation.gmpe_list := SingleStation.gmpe_list self;
     SingleStation.imts := SingleStation.imts self;
     SingleStation.site_residuals := l |}.

(** [SingleStationAnalysis._set_empty_dict] *)
Definition _set_empty_dict {V : Type} (self : SingleStation.t) : dict (dict (dict V)) :=
  OrderedDict
    (map (fun gmpe => (gmpe, OrderedDict (map (fun imtx => (imtx, [])) (SingleStation.imts self))))
       (dict_keys (SingleStation.gmpe_list self))).

Section SiteResiduals.

Variable imt_period : string -> R.
Variable convert_accel_units : list R -> list R.
(** The contexts of the records of one site
    ([select_from_site_id] and [get_contexts], external). *)
Variable site_contexts : string -> list Context.

(** [SingleStationAnalysis.get_site_residuals] *)
Definition get_site_residuals (self : SingleStation.t) : result SingleStation.t :=
  l <- for_each (SingleStation.site_ids self)
         (fun acc site_id =>
            resid0 <- __init__ imt_period (SingleStation.input_gmpe_list self)
                        (SingleStation.imts self) ;;
            resid1 <- get_residuals imt_period convert_accel_units resid0
                        (site_contexts site_id) false ;;
            Ok (acc ++ [{| resid := resid1; site_analysis := _set_empty_dict self |}]))
         (SingleStation.site_residuals self) ;;
  Ok (set_site_residuals self l).

End SiteResiduals.

(** [SingleStationAnalysis._get_delta_s2ss] *)
Definition _get_delta_s2ss (intra_event : list R) (n_events : nat) : result R :=
  inv <- py_div 1 (INR n_events) ;;
  Ok (inv * np_sum intra_event).

(** [SingleStationAnalysis._get_single_station_phi] *)
Definition _get_single_station_phi (intra_event : list R) (delta_s2ss : R)
  (n_events : nat) : R :=
  let phiss :=
    np_sum (map (fun x => (x - delta_s2ss) ^ 2) intra_event)
    / IZR (Z.of_nat n_events - 1) in
  sqrt phiss.

(** [r.site_analysis[gmpe][imtx] = sa] *)
Definition set_site_analysis (r : SiteResiduals) (gmpe imtx : string)
  (sa : dict sa_value) : result SiteResiduals :=
  sg <- getitem (site_analysis r) gmpe ;;
  Ok {| resid := resid r;
        site_analysis := dict_set (site_analysis r) gmpe (dict_set sg imtx sa) |}.

(** Body of the loop over the IMTs in [residual_statistics]; [r] is the deep
    copy that is being filled. *)
Definition residual_statistics_imt (t_resid : SiteResiduals) (gmpe : string)
  (r : SiteResiduals) (imtx : string) : result SiteResiduals :=
  c <- getitem2 (residuals (resid r)) gmpe imtx ;;
  if negb (truthy c) then Ok r
  else
    total <- cell_getitem c "Total" ;;
    let n_events := length total in
    sa0 <- getitem2 (site_analysis r) gmpe imtx ;;
    tc <- getitem2 (residuals (resid t_resid)) gmpe imtx ;;
    t_total <- cell_getitem tc "Total" ;;
    tm <- getitem2 (modelled (resid t_resid)) gmpe imtx ;;
    t_expected_total <- cell_getitem tm "Total" ;;
    let sa1 := dict_set (dict_set (dict_set sa0 "events" (SInt n_events))
                           "Total" (SArr t_total))
                 "Expected Total" (SArr t_expected_total) in
    has_intra <- cell_in "Intra event" tc ;;
    if negb has_intra then set_site_analysis r gmpe imtx sa1
    else
      t_intra <- cell_getitem tc "Intra event" ;;
      t_inter <- cell_getitem tc "Inter event" ;;
      let sa2 := dict_set (dict_set sa1 "Intra event" (SArr t_intra))
                   "Inter event" (SArr t_inter) in
      intra <- cell_getitem c "Intra event" ;;
      delta_s2ss <- _get_delta_s2ss intra n_events ;;
      let delta_woes := map (fun x => x - delta_s2ss) t_intra in
      let sa3 := dict_set (dict_set sa2 "dS2ss" (SNum delta_s2ss))
                   "dWo,es" (SArr delta_woes) in
      let sa4 := dict_set sa3 "phi_ss,s"
                   (SNum (_get_single_station_phi intra delta_s2ss n_events)) in
      t_expected_inter <- cell_getitem tm "Inter event" ;;
      t_expected_intra <- cell_getitem tm "Intra event" ;;
      set_site_analysis r gmpe imtx
        (dict_set (dict_set sa4 "Expected Inter" (SArr t_expected_inter))
           "Expected Intra" (SArr t_expected_intra)).

(** Body of the loop over the sites in [residual_statistics]. *)
Definition residual_statistics_site (self : SingleStation.t) (t_resid : SiteResiduals)
  : result SiteResiduals :=
  for_each (dict_keys (SingleStation.gmpe_list self))
    (fun r gmpe =>
       for_each (SingleStation.imts self) (residual_statistics_imt t_resid gmpe) r)
    t_resid.

Definition sa_num (v : sa_value) : result R :=
  match v with
  | SNum x => Ok x
  | _ => Raise TypeError
  end.

Definition sa_int (v : sa_value) : result nat :=
  match v with
  | SInt n => Ok n
  | _ => Raise TypeError
  end.

Definition sa_arr (v : sa_value) : result (list R) :=
  match v with
  | SArr a => Ok a
  | _ => Raise TypeError
  end.

(** What the loop over the IMTs in [get_total_phi_ss] computes for one pair:
    [phi_ss[gmpe][imtx]] and the mean and standard deviation in
    [phi_s2ss[gmpe][imtx]], or [None] when the pair has no random-effects
    residuals. *)
Definition total_phi_ss_cell (self : SingleStation.t) (gmpe imtx : string)
  : result (option (R * (R * R))) :=
  first <- list_getitem (SingleStation.site_residuals self) 0 ;;
  sa_first <- getitem2 (site_analysis first) gmpe imtx ;;
  if negb (dict_in "Intra event" sa_first) then Ok None
  else
    ' (n_events, numerator_sum, d2ss) <-
      for_each (SingleStation.site_residuals self)
        (fun st r =>
           let '(n_events, numerator_sum, d2ss) := st in
           sa <- getitem2 (site_analysis r) gmpe imtx ;;
           d_v <- getitem sa "dS2ss" ;;
           d <- sa_num d_v ;;
           n_v <- getitem sa "events" ;;
           n <- sa_int n_v ;;
           i_v <- getitem sa "Intra event" ;;
           intra <- sa_arr i_v ;;
           Ok (n_events ++ [n],
               numerator_sum + np_sum (map (fun x => (x - d) ^ 2) intra),
               d2ss ++ [d]))
        ([], 0, []) ;;
    Ok (Some (sqrt (numerator_sum
                    / IZR (Z.of_nat (fold_left Nat.add n_events 0%nat) - 1)),
              (np_mean d2ss, np_std d2ss))).

(** [SingleStationAnalysis.get_total_phi_ss], without the printing: the two
    dictionaries [phi_ss] and [phi_s2ss] it computes. *)
Definition get_total_phi_ss (self : SingleStation.t)
  : result (dict (dict (option R)) * dict (dict (option (R * R)))) :=
  for_each (dict_keys (SingleStation.gmpe_list self))
    (fun st gmpe =>
       for_each (SingleStation.imts self)
         (fun st imtx =>
            let '(phi_ss, phi_s2ss) := st in
            c <- total_phi_ss_cell self gmpe imtx ;;
            match c with
            | None => Ok (phi_ss, phi_s2ss)
            | Some (p, ms) =>
                pg <- getitem phi_ss gmpe ;;
                sg <- getitem phi_s2ss gmpe ;;
                Ok (dict_set phi_ss gmpe (dict_set pg imtx (Some p)),
                    dict_set phi_s2ss gmpe (dict_set sg imtx (Some ms)))
            end)
         st)
    (OrderedDict
       (map (fun gmpe => (gmpe, OrderedDict (map (fun imtx => (imtx, None))
                                               (SingleStation.imts self))))
          (dict_keys (SingleStation.gmpe_list self))),
     OrderedDict
       (map (fun gmpe => (gmpe, OrderedDict (map (fun imtx => (imtx, None))
                                               (SingleStation.imts self))))
          (dict_keys (SingleStation.gmpe_list self)))).

(** [SingleStationAnalysis.residual_statistics]: the state with the filled
    copies in [site_residuals], and the outcome of the closing call of
    [get_total_phi_ss]. *)
Definition residual_statistics (self : SingleStation.t)
  : result (SingleStation.t
            * result (dict (dict (option R)) * dict (dict (option (R * R))))) :=
  output_resid <- mapM (residual_statistics_site self) (SingleStation.site_residuals self) ;;
  let self1 := set_site_residuals self output_resid in
  Ok (self1, get_total_phi_ss self1).

(** ** Example data *)

(** A model that declares only the total standard deviation and predicts,
    for two records, mean [0; 0] and total standard deviation [1; 2]. *)
Definition gmpe_total_only : GMPE :=
  {| DEFINED_FOR_STANDARD_DEVIATION_TYPES := ["Total"];
     sa_coeffs_periods := [0.1; 1];
     get_mean_and_stddevs := fun _ _ _ => ([0; 0], [[1; 2]]) |}.

(** An event with two records and peak ground accelerations [1] and [2]. *)
Definition event_two_records : Context :=
  {| Ctx := {| rake := None; mag := 6 |};
     Num_Sites := 2;
     Observations := [("PGA", [1; 2])];
     Expected := [];
     Residual := [] |}.

(** The analysis state [Residuals([G], ["PGA"])] for that model. *)
Definition residuals_total_only : Residuals :=
  {| gmpe_list := [("G", gmpe_total_only)];
     types := [("G", [("PGA", ["Total"])])];
     residuals := [("G", [("PGA", Some [("Total", [])])])];
     modelled := [("G", [("PGA", Some [("Total", []); ("Mean", [])])])];
     imts := ["PGA"];
     unique_indices := [("G", [("PGA", [])])];
     gmpe_sa_limits := [("G", (0.1, 1))];
     contexts := [] |}.

(** The event after [get_expected_motions]. *)
Definition event_two_records_expected : Context :=
  {| Ctx := {| rake := Some 0; mag := 6 |};
     Num_Sites := 2;
     Observations := [("PGA", [1; 2])];
     Expected := [("G", [("PGA", Some [("Mean", [0; 0]); ("Total", [1; 2])])])];
     Residual := [] |}.

(** Two models after aggregation over one event with two records: total
    residuals [0; 0] for ["G"] and [1; 1] for ["H"]. *)
Definition residuals_two_models : Residuals :=
  {| gmpe_list := [("G", gmpe_total_only); ("H", gmpe_total_only)];
     types := [("G", [("PGA", ["Total"])]); ("H", [("PGA", ["Total"])])];
     residuals := [("G", [("PGA", Some [("Total", [0; 0])])]);
                   ("H", [("PGA", Some [("Total", [1; 1])])])];
     modelled := [("G", [("PGA", Some [("Total", [1; 2]); ("Mean", [0; 0])])]);
                  ("H", [("PGA", Some [("Total", [1; 2]); ("Mean", [0; 0])])])];
     imts := ["PGA"];
     unique_indices := [("G", [("PGA", [])]); ("H", [("PGA", [])])];
     gmpe_sa_limits := [("G", (0.1, 1)); ("H", (0.1, 1))];
     contexts := [] |}.

(** A model with an inter-event / intra-event decomposition, valid for
    periods between 0.1 s and 1 s, that predicts for two records mean
    [0; 0] and standard deviations [1; 1] of every type. *)
Definition gmpe_decomposed : GMPE :=
  {| DEFINED_FOR_STANDARD_DEVIATION_TYPES := ["Total"; "Inter event"; "Intra event"];
     sa_coeffs_periods := [0.1; 1];
     get_mean_and_stddevs := fun _ _ _ => ([0; 0], [[1; 1]; [1; 1]; [1; 1]]) |}.

(** [Residuals([G], ["PGA", "SA(2.0)"])]: the spectral period 2 s is outside
    the period range of the model. *)
Definition residuals_mixed_init : Residuals :=
  {| gmpe_list := [("G", gmpe_decomposed)];
     types := [("G", [("PGA", ["Total"; "Inter event"; "Intra event"])])];
     residuals :=
       [("G", [("PGA", Some [("Total", []); ("Inter event", []); ("Intra event", [])]);
               ("SA(2.0)", None)])];
     modelled :=
       [("G", [("PGA", Some [("Total", []); ("Inter event", []); ("Intra event", []);
                             ("Mean", [])]);
               ("SA(2.0)", None)])];
     imts := ["PGA"; "SA(2.0)"];
     unique_indices := [("G", [("PGA", [])])];
     gmpe_sa_limits := [("G", (0.1, 1))];
     contexts := [] |}.

(** An event with two records, as the database provides it. *)
Definition event_mixed_raw : Context :=
  {| Ctx := {| rake := None; mag := 6 |};
     Num_Sites := 2;
     Observations := [("PGA", [1; 1]); ("SA(2.0)", [1; 1])];
     Expected := [];
     Residual := [] |}.

(** The same event after the expected motions and the residuals have been
    attached. *)
Definition event_mixed : Context :=
  {| Ctx := {| rake := Some 0; mag := 6 |};
     Num_Sites := 2;
     Observations := [("PGA", [1; 1]); ("SA(2.0)", [1; 1])];
     Expected :=
       [("G", [("PGA", Some [("Mean", [0; 0]); ("Total", [1; 1]);
                             ("Inter event", [1; 1]); ("Intra event", [1; 1])]);
               ("SA(2.0)", None)])];
     Residual :=
       [("G", [("PGA", Some [("Total", [0; 0]); ("Inter event", [0; 0]);
                             ("Intra event", [0; 0])]);
               ("SA(2.0)", None)])] |}.

(** The analysis state after [get_residuals] on that event. *)
Definition residuals_mixed : Residuals :=
  {| gmpe_list := [("G", gmpe_decomposed)];
     types := [("G", [("PGA", ["Total"; "Inter event"; "Intra event"])])];
     residuals :=
       [("G", [("PGA", Some [("Total", [0; 0]); ("Inter event", [0]);
                             ("Intra event", [0; 0])]);
               ("SA(2.0)", None)])];
     modelled :=
       [("G", [("PGA", Some [("Total", [1; 1]); ("Inter event", [1; 1]);
                             ("Intra event", [1; 1]); ("Mean", [0; 0])]);
               ("SA(2.0)", None)])];
     imts := ["PGA"; "SA(2.0)"];
     unique_indices := [("G", [("PGA", [[0%nat]])])];
     gmpe_sa_limits := [("G", (0.1, 1))];
     contexts := [event_mixed] |}.

(** One analysed site with four records. *)
Definition site_residuals_example : SiteResiduals :=
  {| resid :=
       {| gmpe_list := [("G", gmpe_decomposed)];
          types := [("G", [("PGA", ["Total"; "Inter event"; "Intra event"])])];
          residuals :=
            [("G", [("PGA", Some [("Total", [1; 2; 3; 4]); ("Inter event", [0; 0; 0; 1]);
                                  ("Intra event", [1; 2; 3; 6])])])];
          modelled :=
            [("G", [("PGA", Some [("Total", [1; 1; 1; 1]); ("Inter event", [1; 1; 1; 1]);
                                  ("Intra event", [1; 1; 1; 1]); ("Mean", [0; 0; 0; 0])])])];
          imts := ["PGA"];
          unique_indices := [("G", [("PGA", [])])];
          gmpe_sa_limits := [("G", (0.1, 1))];
          contexts := [] |};
     site_analysis := [("G", [("PGA", [])])] |}.

Definition station_example : SingleStation.t :=
  {| SingleStation.site_ids := ["S1"];
     SingleStation.input_gmpe_list := [("G", gmpe_decomposed)];
     SingleStation.gmpe_list := [("G", gmpe_decomposed)];
     SingleStation.imts := ["PGA"];
     SingleStation.site_residuals := [site_residuals_example] |}.

(** ** Model identifiers *)

(** An element of the [gmpe_list] argument of the constructors: an
    instantiated model, or a string. *)
Inductive gsim_arg : Type :=
| GsimInstance (gsim : GMPE)
| GsimName (gsim : string).

(** [s.split(sep)] for a one-character separator *)
Fixpoint py_split (sep : ascii) (s : string) : list string :=
  match s with
  | EmptyString => [EmptyString]
  | String c s' =>
      if Ascii.eqb c sep then EmptyString :: py_split sep s'
      else match py_split sep s' with
           | w :: ws => String c w :: ws
           | [] => [String c EmptyString]
           end
  end.

(** [s[:-1]] *)
Fixpoint drop_last (s : string) : string :=
  match s with
  | EmptyString => EmptyString
  | String c s' =>
      match s' with
      | EmptyString => EmptyString
      | String _ _ => String c (drop_last s')
      end
  end.

(** [s[1:-1]] *)
Definition strip_ends (s : string) : string :=
  match s with
  | EmptyString => EmptyString
  | String _ s' => drop_last s'
  end.

(** The characters before the first [")"] and those after it. *)
Fixpoint until_paren (s : string) : option (string * string) :=
  match s with
  | EmptyString => None
  | String c s' =>
      if Ascii.eqb c ")" then Some (EmptyString, s')
      else match until_paren s' with
           | Some (body, tail) => Some (String c body, tail)
           | None => None
           end
  end.

(** Group 1 of [re.match(r'^GMPETable\(([^)]+?)\)$', s)]: the characters
    between ["GMPETable("] and the first [")"]; there must be at least one,
    and the [")"] must be followed by the end of the string or by a final
    newline. *)
Definition match_gmpe_table (s : string) : option string :=
  if String.prefix "GMPETable(" s then
    match until_paren (substring 10 (String.length s - 10) s) with
    | Some (body, tail) =>
        if negb (String.eqb body "")
           && (String.eqb tail "" || String.eqb tail (String "010" ""))
        then Some body
        else None
    | None => None
    end
  else None.

Section CheckGsimList.

(** [_get_gmpe_name] of the trellis module, the registry
    [get_available_gsims()] with the outcome of instantiating each class, and
    the constructor [GMPETable(gmpe_table=...)] (external). *)
Variable _get_gmpe_name : GMPE -> string.
Variable GSIM_LIST : dict (result GMPE).
Variable GMPETable : string -> result GMPE.

(** Body of the loop of [_check_gsim_list]. *)
Definition check_gsim (output_gsims : list (string * GMPE)) (gsim : gsim_arg)
  : result (list (string * GMPE)) :=
  match gsim with
  | GsimInstance g => Ok (output_gsims ++ [(_get_gmpe_name g, g)])
  | GsimName s =>
      if String.prefix "GMPETable" s then
        match match_gmpe_table s with
        | None => Raise AttributeError
        | Some group1 =>
            filepath <- list_getitem (py_split "=" group1) 1 ;;
            gmpe_table <- GMPETable (strip_ends filepath) ;;
            Ok (output_gsims ++ [(_get_gmpe_name gmpe_table, gmpe_table)])
        end
      else
        match dict_get GSIM_LIST s with
        | None => Raise ValueError
        | Some instance => g <- instance ;; Ok (output_gsims ++ [(s, g)])
        end
  end.

(** [_check_gsim_list] *)
Definition _check_gsim_list (gsim_list : list gsim_arg) : result (dict GMPE) :=
  output_gsims <- for_each gsim_list check_gsim [] ;;
  Ok (OrderedDict output_gsims).

End CheckGsimList.

(** ** Cluster bootstrap *)

(** [bootstrap_llh]; [isamp] is the draw [np.random.randint(0, neqs, neqs)]
    of event positions. *)
Definition bootstrap_llh (isamp : list nat) (contexts0 : list Context)
  (gmpes imts0 : list string) : result (list (list R)) :=
  new_contexts <- mapM (list_getitem contexts0) isamp ;;
  mapM (fun gmpe =>
          mapM (fun imtx => get_multivariate_ll new_contexts gmpe imtx) imts0)
       gmpes.

(** What a call of [bootstrap_multivariate_llhvalues] does: it raises
    [NotImplementedError] or runs the bootstrap. *)
Inductive bootstrap_outcome : Type :=
| NotImplementedError
| Bootstrapped (r : result (distinctiveness_t * list (list (list R)))).

(** [Residuals.bootstrap_multivariate_llhvalues]; [draws j] is the draw of
    bootstrap [j]. The cube [outputs] is indexed by model, IMT and bootstrap. *)
Definition bootstrap_multivariate_llhvalues (draws : nat -> list nat)
  (self : Residuals) (number_bootstraps : nat) (sum_imts parallelize : bool)
  : bootstrap_outcome :=
  if parallelize then NotImplementedError
  else
    Bootstrapped
      (samples <-
         mapM (fun j => bootstrap_llh (draws j) (contexts self)
                          (dict_keys (gmpe_list self)) (imts self))
              (seq 0 number_bootstraps) ;;
       let outputs :=
         map (fun i =>
                map (fun k => map (fun sample => nth k (nth i sample []) 0) samples)
                    (seq 0 (length (imts self))))
             (seq 0 (length (dict_keys (gmpe_list self)))) in
       distinctiveness <- get_distinctiveness self outputs number_bootstraps sum_imts ;;
       Ok (distinctiveness, outputs)).

(** ** Further example data *)

(** The analysis state after [get_residuals] on the example event, for the
    IMT ["PGA"] alone. *)
Definition residuals_pga : Residuals :=
  {| gmpe_list := [("G", gmpe_decomposed)];
     types := [("G", [("PGA", ["Total"; "Inter event"; "Intra event"])])];
     residuals :=
       [("G", [("PGA", Some [("Total", [0; 0]); ("Inter event", [0]);
                             ("Intra event", [0; 0])])])];
     modelled :=
       [("G", [("PGA", Some [("Total", [1; 1]); ("Inter event", [1; 1]);
                             ("Intra event", [1; 1]); ("Mean", [0; 0])])])];
     imts := ["PGA"];
     unique_indices := [("G", [("PGA", [[0%nat]])])];
     gmpe_sa_limits := [("G", (0.1, 1))];
     contexts := [event_mixed] |}.

(** [c in s] for a character [c] *)
Fixpoint has_char (c : ascii) (s : string) : bool :=
  match s with
  | EmptyString => false
  | String a s' => Ascii.eqb a c || has_char c s'
  end.

(** * Part II: properties *)

(** ** Lemmas on the runtime and on broadcasting *)

Lemma bind_ok {A B : Type} (c : result A) (k : A -> result B) (b : B) :
  bind c k = Ok b -> exists a, c = Ok a /\ k a = Ok b.
Proof.
  destruct c as [a|e]; simpl; intros H; [exists a; auto | discriminate].
Qed.

Lemma nth_map_combine (f : R -> R -> R) (a b : array) (i : nat) :
  (i < length a)%nat -> (i < length b)%nat ->
  nth i (map (fun p => f (fst p) (snd p)) (combine a b)) 0 = f (nth i a 0) (nth i b 0).
Proof.
  revert b i; induction a as [|x a IH]; intros [|y b] [|i]; simpl; intros Ha Hb;
    try lia; auto.
  apply IH; lia.
Qed.

Lemma nth_map_R (g : R -> R) (a : array) (i : nat) :
  (i < length a)%nat -> nth i (map g a) 0 = g (nth i a 0).
Proof.
  revert i; induction a as [|x a IH]; intros [|i]; simpl; intros Ha; try lia; auto.
  apply IH; lia.
Qed.

Lemma length_map_combine (f : R -> R -> R) (a b : array) :
  length a = length b ->
  length (map (fun p => f (fst p) (snd p)) (combine a b)) = length a.
Proof.
  intros H. rewrite length_map, length_combine, <- H. apply Nat.min_id.
Qed.

(** What [broadcast] returns, position by position. *)
Lemma broadcast_nth (f : R -> R -> R) (a b c : array) :
  broadcast f a b = Ok c ->
  forall i, (i < length c)%nat -> nth i c 0 = f (bget a i) (bget b i).
Proof.
  unfold broadcast, bget. intros H i Hi.
  destruct (length a =? length b)%nat eqn:Eab.
  - apply Nat.eqb_eq in Eab. injection H as <-.
    rewrite length_map_combine in Hi by assumption.
    rewrite nth_map_combine by lia.
    rewrite <- Eab.
    destruct (length a =? 1)%nat eqn:E1; [|reflexivity].
    apply Nat.eqb_eq in E1. assert (i = 0)%nat by lia. subst i. reflexivity.
  - destruct (length a =? 1)%nat eqn:E1.
    + injection H as <-. rewrite length_map in Hi.
      rewrite nth_map_R by assumption.
      destruct (length b =? 1)%nat eqn:E2; [|reflexivity].
      apply Nat.eqb_eq in E1, E2. apply Nat.eqb_neq in Eab. lia.
    + destruct (length b =? 1)%nat eqn:E2; [|discriminate].
      injection H as <-. rewrite length_map in Hi.
      rewrite nth_map_R by assumption. reflexivity.
Qed.

(** The shape [broadcast] returns. *)
Lemma broadcast_length (f : R -> R -> R) (a b c : array) :
  broadcast f a b = Ok c ->
  length c = (if (length a =? 1)%nat then length b else length a).
Proof.
  unfold broadcast. intros H.
  destruct (length a =? length b)%nat eqn:Eab.
  - apply Nat.eqb_eq in Eab. injection H as <-.
    rewrite length_map_combine by assumption.
    destruct (length a =? 1)%nat; congruence.
  - destruct (length a =? 1)%nat eqn:E1.
    + injection H as <-. apply length_map.
    + destruct (length b =? 1)%nat; [|discriminate].
      injection H as <-. apply length_map.
Qed.

Lemma broadcast_same_length (f : R -> R -> R) (a b : array) :
  length a = length b ->
  broadcast f a b = Ok (map (fun p => f (fst p) (snd p)) (combine a b)).
Proof.
  intros H. unfold broadcast. rewrite H, Nat.eqb_refl. reflexivity.
Qed.

(** [broadcast] succeeds on two arrays of one length, or when one operand has
    a single element. *)
Lemma broadcast_total (f : R -> R -> R) (a b : array) :
  length a = length b \/ length a = 1%nat \/ length b = 1%nat ->
  exists c, broadcast f a b = Ok c.
Proof.
  unfold broadcast. intros H.
  destruct (length a =? length b)%nat eqn:Eab; [eauto|].
  destruct (length a =? 1)%nat eqn:E1; [eauto|].
  destruct (length b =? 1)%nat eqn:E2; [eauto|].
  apply Nat.eqb_neq in Eab, E1, E2. lia.
Qed.

Lemma bget_full (a : array) (i : nat) :
  (i < length a)%nat -> bget a i = nth i a 0.
Proof.
  unfold bget. intros Hi.
  destruct (length a =? 1)%nat eqn:E; [|reflexivity].
  apply Nat.eqb_eq in E. assert (i = 0)%nat by lia. subst i. reflexivity.
Qed.


Lemma bget_np_sq (a : array) (i : nat) : bget (np_sq a) i = (bget a i) ^ 2.
Proof.
  unfold bget, np_sq. rewrite length_map.
  destruct (length a =? 1)%nat eqn:E.
  - apply Nat.eqb_eq in E. apply nth_map_R. lia.
  - destruct (Nat.lt_ge_cases i (length a)) as [Hi|Hi].
    + apply nth_map_R; assumption.
    + rewrite !nth_overflow by (try rewrite length_map; lia). ring.
Qed.

Lemma bget_np_scale (c : R) (a : array) (i : nat) :
  bget (np_scale c a) i = c * bget a i.
Proof.
  unfold bget, np_scale. rewrite length_map.
  destruct (length a =? 1)%nat eqn:E.
  - apply Nat.eqb_eq in E. apply nth_map_R. lia.
  - destruct (Nat.lt_ge_cases i (length a)) as [Hi|Hi].
    + apply nth_map_R; assumption.
    + rewrite !nth_overflow by (try rewrite length_map; lia). ring.
Qed.

Lemma length_np_sq (a : array) : length (np_sq a) = length a.
Proof. apply length_map. Qed.

Lemma length_np_scale (c : R) (a : array) : length (np_scale c a) = length a.
Proof. apply length_map. Qed.

(** The steps of a run of the decomposition that returns. *)
Lemma random_effects_steps (obs mean inter intra eta intra_res : array) :
  _get_random_effects_residuals obs mean inter intra false = Ok (eta, intra_res) ->
  exists d denom m,
    np_sub obs mean = Ok d /\
    np_add (np_scale (INR (length mean)) (np_sq inter)) (np_sq intra) = Ok denom /\
    np_div (np_scale (np_sum d) (np_sq inter)) denom = Ok eta /\
    np_add mean eta = Ok m /\
    np_sub obs m = Ok intra_res.
Proof.
  unfold _get_random_effects_residuals. intros H.
  apply bind_ok in H as (d & Hd & H).
  apply bind_ok in H as (denom & Hden & H).
  apply bind_ok in H as (eta' & Heta & H).
  apply bind_ok in H as (m & Hm & H).
  apply bind_ok in H as (ir & Hir & H).
  injection H as -> ->.
  exists d, denom, m. auto.
Qed.

(** With per-record arrays (and a between-event deviation given per record or
    as one shared element) the decomposition returns, with and without
    normalisation, and the normalised values are the raw ones divided by the
    standard deviations. *)
Lemma random_effects_returns (obs mean inter intra : array) :
  length obs = length mean ->
  length inter = length mean \/ length inter = 1%nat ->
  length intra = length mean ->
  exists eta intra_res a b,
    _get_random_effects_residuals obs mean inter intra false = Ok (eta, intra_res) /\
    _get_random_effects_residuals obs mean inter intra true = Ok (a, b) /\
    length eta = length mean /\ length intra_res = length mean /\
    np_div eta inter = Ok a /\ np_div intra_res intra = Ok b /\
    length a = length mean /\ length b = length mean.
Proof.
  intros Hobs Hinter Hintra.
  unfold _get_random_effects_residuals, np_sub, np_add, np_div.
  destruct (broadcast_total Rminus obs mean) as [d Hd]; [auto|].
  rewrite Hd. simpl bind.
  destruct (broadcast_total Rplus (np_scale (INR (length mean)) (np_sq inter)) (np_sq intra))
    as [denom Hden].
  { rewrite length_np_scale, !length_np_sq. lia. }
  rewrite Hden. simpl bind.
  assert (Ldenom : length denom = length mean).
  { apply broadcast_length in Hden.
    rewrite length_np_scale, !length_np_sq in Hden.
    destruct (length inter =? 1)%nat eqn:E; [lia|].
    apply Nat.eqb_neq in E. lia. }
  destruct (broadcast_total Rdiv (np_scale (np_sum d) (np_sq inter)) denom) as [eta Heta].
  { rewrite length_np_scale, length_np_sq. lia. }
  rewrite Heta. simpl bind.
  assert (Leta : length eta = length mean).
  { apply broadcast_length in Heta.
    rewrite length_np_scale, length_np_sq in Heta.
    destruct (length inter =? 1)%nat eqn:E; [lia|].
    apply Nat.eqb_neq in E. lia. }
  destruct (broadcast_total Rplus mean eta) as [m Hm]; [lia|].
  rewrite Hm. simpl bind.
  assert (Lm : length m = length mean).
  { apply broadcast_length in Hm. destruct (length mean =? 1)%nat; lia. }
  destruct (broadcast_total Rminus obs m) as [ir Hir]; [lia|].
  rewrite Hir. simpl bind.
  assert (Lir : length ir = length mean).
  { apply broadcast_length in Hir. destruct (length obs =? 1)%nat; lia. }
  destruct (broadcast_total Rdiv eta inter) as [a Ha]; [lia|].
  destruct (broadcast_total Rdiv ir intra) as [b Hb]; [lia|].
  rewrite Ha, Hb. simpl bind.
  exists eta, ir, a, b. repeat split; auto.
  - apply broadcast_length in Ha.
    destruct (Nat.eqb_spec (length eta) 1); lia.
  - apply broadcast_length in Hb.
    destruct (Nat.eqb_spec (length ir) 1); lia.
Qed.

(** C2, as amended: for per-record arrays the inter-event residual returned
    without normalisation is an array with one entry per record,
    [eta_i = tau_i^2 * sum_k (y_k - m_k) / (n * tau_i^2 + phi_i^2)], computed
    with the standard deviations of record [i]; two records with the same
    [tau] and [phi] get the same entry, so the array holds a single value when
    the deviations are constant over the event. With normalisation the
    returned values are [eta_i / tau_i] and [intra_i / phi_i]. *)
Theorem random_effects_inter_formula (obs mean inter intra : array) :
  length obs = length mean ->
  length inter = length mean \/ length inter = 1%nat ->
  length intra = length mean ->
  exists eta intra_res a b,
    _get_random_effects_residuals obs mean inter intra false = Ok (eta, intra_res) /\
    _get_random_effects_residuals obs mean inter intra true = Ok (a, b) /\
    length eta = length mean /\
    (forall i, (i < length mean)%nat ->
       nth i eta 0 =
         (bget inter i) ^ 2 * np_sum (map (fun p => fst p - snd p) (combine obs mean)) /
         (INR (length mean) * (bget inter i) ^ 2 + (nth i intra 0) ^ 2)) /\
    (forall i j, (i < length mean)%nat -> (j < length mean)%nat ->
       bget inter i = bget inter j -> nth i intra 0 = nth j intra 0 ->
       nth i eta 0 = nth j eta 0) /\
    (forall i, (i < length mean)%nat ->
       nth i a 0 = nth i eta 0 / bget inter i /\
       nth i b 0 = nth i intra_res 0 / nth i intra 0).
Proof.
  intros Hobs Hinter Hintra.
  destruct (random_effects_returns obs mean inter intra Hobs Hinter Hintra)
    as (eta & ir & a & b & Hraw & Hnorm & Leta & Lir & Ha & Hb & La & Lb).
  exists eta, ir, a, b.
  assert (Hformula : forall i, (i < length mean)%nat ->
     nth i eta 0 =
       (bget inter i) ^ 2 * np_sum (map (fun p => fst p - snd p) (combine obs mean)) /
       (INR (length mean) * (bget inter i) ^ 2 + (nth i intra 0) ^ 2)).
  { intros i Hi.
    destruct (random_effects_steps _ _ _ _ _ _ Hraw)
      as (d & denom & m & Hd & Hden & Heta & _ & _).
    unfold np_sub in Hd. rewrite broadcast_same_length in Hd by assumption.
    injection Hd as <-.
    assert (Ldenom : length denom = length mean).
    { apply broadcast_length in Hden.
      rewrite length_np_scale, !length_np_sq in Hden.
      destruct (Nat.eqb_spec (length inter) 1); lia. }
    rewrite (broadcast_nth _ _ _ _ Heta) by lia.
    rewrite bget_np_scale, bget_np_sq.
    rewrite (bget_full denom) by lia.
    rewrite (broadcast_nth _ _ _ _ Hden) by lia.
    rewrite bget_np_scale, !bget_np_sq.
    rewrite (bget_full intra) by lia.
    unfold Rdiv. ring. }
  repeat split; auto.
  - intros i j Hi Hj Htau Hphi.
    rewrite (Hformula i Hi), (Hformula j Hj), Htau, Hphi. reflexivity.
  - rewrite (broadcast_nth _ _ _ _ Ha) by lia.
    rewrite (bget_full eta) by lia. reflexivity.
  - rewrite (broadcast_nth _ _ _ _ Hb) by lia.
    rewrite (bget_full ir), (bget_full intra) by lia. reflexivity.
Qed.

(** Witness for C2: two records, a shared [tau] and per-record [phi]. *)
Lemma random_effects_inter_formula_witness :
  exists eta intra_res a b,
    _get_random_effects_residuals [1; 1] [0; 0] [1] [1; 2] false = Ok (eta, intra_res) /\
    _get_random_effects_residuals [1; 1] [0; 0] [1] [1; 2] true = Ok (a, b) /\
    length eta = 2%nat.
Proof.
  destruct (random_effects_inter_formula [1; 1] [0; 0] [1] [1; 2])
    as (eta & ir & a & b & H1 & H2 & H3 & _); simpl; auto.
  exists eta, ir, a, b. auto.
Defined.

(** Counterexample to C2 as stated: with [phi] varying inside an event the
    returned inter-event residual is not one scalar for the event. *)
Lemma random_effects_inter_not_single_scalar :
  exists eta intra_res,
    _get_random_effects_residuals [1; 1] [0; 0] [1; 1] [1; 2] false = Ok (eta, intra_res) /\
    nth 0 eta 0 <> nth 1 eta 0.
Proof.
  eexists. eexists. split; [reflexivity|]. unfold np_sum. simpl. lra.
Qed.

(** C3: without normalisation the decomposition round-trips: for every
    record, predicted mean + inter-event residual + intra-event residual gives
    back the (log) observation; when the inter-event array holds a single
    value [eta0] for the event, [mean_i + eta0 + intra_i = obs_i]. *)
Theorem random_effects_round_trip (obs mean inter intra : array) :
  length obs = length mean ->
  length inter = length mean \/ length inter = 1%nat ->
  length intra = length mean ->
  exists eta intra_res,
    _get_random_effects_residuals obs mean inter intra false = Ok (eta, intra_res) /\
    length intra_res = length mean /\
    (forall i, (i < length mean)%nat ->
       nth i mean 0 + nth i eta 0 + nth i intra_res 0 = nth i obs 0) /\
    (forall eta0, (forall i, (i < length mean)%nat -> nth i eta 0 = eta0) ->
       forall i, (i < length mean)%nat ->
       nth i mean 0 + eta0 + nth i intra_res 0 = nth i obs 0).
Proof.
  intros Hobs Hinter Hintra.
  destruct (random_effects_returns obs mean inter intra Hobs Hinter Hintra)
    as (eta & ir & a & b & Hraw & _ & Leta & Lir & _).
  exists eta, ir.
  assert (Hrt : forall i, (i < length mean)%nat ->
            nth i mean 0 + nth i eta 0 + nth i ir 0 = nth i obs 0).
  { intros i Hi.
    destruct (random_effects_steps _ _ _ _ _ _ Hraw)
      as (d & denom & m & _ & _ & _ & Hm & Hir).
    assert (Lm : length m = length mean).
    { apply broadcast_length in Hm. destruct (length mean =? 1)%nat; lia. }
    rewrite (broadcast_nth _ _ _ _ Hir) by lia.
    rewrite (bget_full obs), (bget_full m) by lia.
    rewrite (broadcast_nth _ _ _ _ Hm) by lia.
    rewrite (bget_full mean), (bget_full eta) by lia.
    ring. }
  repeat split; auto.
  intros eta0 Hconst i Hi. rewrite <- (Hconst i Hi). apply Hrt, Hi.
Qed.

(** Witness for C3: the two records of one event. *)
Lemma random_effects_round_trip_witness :
  exists eta intra_res,
    _get_random_effects_residuals [1; 3] [0; 1] [1] [1; 1] false = Ok (eta, intra_res) /\
    length intra_res = 2%nat.
Proof.
  destruct (random_effects_round_trip [1; 3] [0; 1] [1] [1; 1])
    as (eta & ir & H1 & H2 & _); simpl; auto.
  exists eta, ir. auto.
Defined.

(** ** Dictionaries and loops that fill them *)

Lemma dict_get_set_same {V : Type} (d : dict V) (k : string) (v : V) :
  dict_get (dict_set d k v) k = Some v.
Proof.
  induction d as [|[k' v'] d IH]; simpl.
  - rewrite String.eqb_refl. reflexivity.
  - destruct (String.eqb k k') eqn:E; simpl; rewrite E; auto.
Qed.

Lemma dict_get_set_other {V : Type} (d : dict V) (k k' : string) (v : V) :
  k <> k' -> dict_get (dict_set d k v) k' = dict_get d k'.
Proof.
  intros Hne. induction d as [|[k0 v0] d IH]; simpl.
  - destruct (String.eqb k' k) eqn:E; [|reflexivity].
    apply String.eqb_eq in E. congruence.
  - destruct (String.eqb k k0) eqn:E; simpl.
    + apply String.eqb_eq in E. subst k0.
      destruct (String.eqb k' k) eqn:E'; [|reflexivity].
      apply String.eqb_eq in E'. congruence.
    + rewrite IH. reflexivity.
Qed.

(** A loop [for x in xs: v = f(x); d[x] = v] leaves under every visited key
    the value computed for it, and every other key as it was. *)
Lemma for_each_set_lookup {V : Type} (f : string -> result V) (xs : list string) :
  forall (d0 d : dict V),
    for_each xs (fun d x => v <- f x ;; Ok (dict_set d x v)) d0 = Ok d ->
    forall k,
      (In k xs -> exists v, f k = Ok v /\ dict_get d k = Some v) /\
      (~ In k xs -> dict_get d k = dict_get d0 k).
Proof.
  induction xs as [|x xs IH]; simpl; intros d0 d H k.
  - injection H as <-. split; [tauto|reflexivity].
  - apply bind_ok in H as (d1 & H1 & H).
    apply bind_ok in H1 as (v & Hv & H1). injection H1 as <-.
    destruct (IH _ _ H k) as [IHin IHout].
    destruct (in_dec string_dec k xs) as [Hin|Hnin].
    + split; [intros _; apply IHin, Hin | tauto].
    + split.
      * intros [->|Hin]; [|tauto].
        exists v. split; [assumption|].
        rewrite (IHout Hnin). apply dict_get_set_same.
      * intros Hno. rewrite (IHout Hnin).
        apply dict_get_set_other. tauto.
Qed.

Lemma getitem_ok {V : Type} (d : dict V) (k : string) (v : V) :
  getitem d k = Ok v <-> dict_get d k = Some v.
Proof.
  unfold getitem. destruct (dict_get d k); split; intros H;
    try discriminate; congruence.
Qed.

(** ** The residual calculator *)

(** [calculate_residuals] stores, for every model and IMT, the cell computed
    by its loop body. *)
Lemma calculate_residuals_cell (self : Residuals) (context context' : Context)
  (normalise : bool) (gmpe imtx : string) :
  calculate_residuals self context normalise = Ok context' ->
  In gmpe (dict_keys (gmpe_list self)) -> In imtx (imts self) ->
  exists c,
    residual_cell self context normalise gmpe imtx = Ok c /\
    getitem2 (Residual context') gmpe imtx = Ok c.
Proof.
  unfold calculate_residuals. intros H Hg Hi.
  apply bind_ok in H as (residual & Hres & H). injection H as <-.
  destruct (for_each_set_lookup _ _ _ _ Hres gmpe) as [Hin _].
  destruct (Hin Hg) as (rg & Hrg & Hget).
  destruct (for_each_set_lookup _ _ _ _ Hrg imtx) as [Hin' _].
  destruct (Hin' Hi) as (c & Hc & Hget').
  exists c. split; [assumption|].
  unfold getitem2, set_Residual; simpl.
  apply getitem_ok in Hget. rewrite Hget. simpl.
  apply getitem_ok. assumption.
Qed.

(** C1: for every model and IMT whose [Expected] entry is populated, the
    ["Total"] residual stored by [calculate_residuals] is, record by record,
    [(ln(observation) - mean) / total_stddev]; for a positive observation and
    a non-zero total standard deviation, [exp(mean + total * stddev)] gives
    the observation back. *)
Theorem total_residual_formula (self : Residuals) (context context' : Context)
  (normalise : bool) (gmpe imtx : string) (e : entry) (observation mean stddev : array) :
  calculate_residuals self context normalise = Ok context' ->
  In gmpe (dict_keys (gmpe_list self)) -> In imtx (imts self) ->
  getitem2 (Expected context) gmpe imtx = Ok (Some e) ->
  dict_get e "Mean" = Some mean -> dict_get e "Total" = Some stddev ->
  dict_get (Observations context) imtx = Some observation ->
  length mean = length observation -> length stddev = length observation ->
  exists r total,
    getitem2 (Residual context') gmpe imtx = Ok (Some r) /\
    dict_get r "Total" = Some total /\
    length total = length observation /\
    forall i, (i < length observation)%nat ->
      nth i total 0 = (ln (nth i observation 0) - nth i mean 0) / nth i stddev 0 /\
      (0 < nth i observation 0 -> nth i stddev 0 <> 0 ->
       exp (nth i mean 0 + nth i total 0 * nth i stddev 0) = nth i observation 0).
Proof.
  intros Hcalc Hg Hi Hexp Hmean Htot Hobs Lmean Lsd.
  destruct (calculate_residuals_cell _ _ _ _ _ _ Hcalc Hg Hi) as (c & Hc & Hget).
  unfold residual_cell in Hc.
  apply getitem_ok in Hobs. rewrite Hobs in Hc. cbn [bind] in Hc.
  rewrite Hexp in Hc. cbn [bind] in Hc.
  assert (Htruthy : truthy (Some e) = true).
  { destruct e; [discriminate Hmean | reflexivity]. }
  rewrite Htruthy in Hc. cbn [negb cell_getitem] in Hc.
  apply getitem_ok in Hmean, Htot. rewrite Hmean, Htot in Hc. cbn [bind] in Hc.
  apply bind_ok in Hc as (d & Hd & Hc).
  apply bind_ok in Hc as (total & Htotal & Hc).
  assert (Ld : length d = length observation).
  { apply broadcast_length in Hd. unfold np_log in Hd. rewrite length_map in Hd.
    destruct (length observation =? 1)%nat; lia. }
  assert (Ltotal : length total = length observation).
  { apply broadcast_length in Htotal. destruct (length d =? 1)%nat; lia. }
  assert (Hform : forall i, (i < length observation)%nat ->
            nth i total 0 = (ln (nth i observation 0) - nth i mean 0) / nth i stddev 0).
  { intros i Hlt.
    rewrite (broadcast_nth _ _ _ _ Htotal) by lia.
    rewrite (bget_full d), (bget_full stddev) by lia.
    rewrite (broadcast_nth _ _ _ _ Hd) by lia.
    rewrite (bget_full mean) by lia.
    rewrite bget_full by (unfold np_log; rewrite length_map; lia).
    unfold np_log. rewrite nth_map_R by lia. reflexivity. }
  assert (Hcell : exists r, c = Some r /\ dict_get r "Total" = Some total).
  { apply bind_ok in Hc as (sc & Hsc & Hc).
    destruct sc as [sd|]; [|discriminate].
    destruct (dict_in "Inter event" sd).
    - apply bind_ok in Hc as (inter0 & _ & Hc).
      apply bind_ok in Hc as (intra0 & _ & Hc).
      apply bind_ok in Hc as ([inter intra] & _ & Hc).
      injection Hc as <-. eexists. split; reflexivity.
    - injection Hc as <-. eexists. split; reflexivity. }
  destruct Hcell as (r & -> & Hr).
  exists r, total. repeat split; auto.
  intros Hpos Hnz. rewrite (Hform i H).
  replace (nth i mean 0 + (ln (nth i observation 0) - nth i mean 0) / nth i stddev 0
             * nth i stddev 0) with (ln (nth i observation 0)) by (field; assumption).
  apply exp_ln, Hpos.
Qed.

Lemma Rmin_left (x y : R) : x <= y -> Rmin x y = x.
Proof. intros H. unfold Rmin. destruct (Rle_dec x y); [reflexivity|contradiction]. Qed.

Lemma Rmax_right (x y : R) : x <= y -> Rmax x y = y.
Proof. intros H. unfold Rmax. destruct (Rle_dec x y); [reflexivity|contradiction]. Qed.

(** The example state is the one the constructor and the expected-motion
    calculator build. *)
Lemma residuals_total_only_init (imt_period : string -> R) :
  __init__ imt_period [("G", gmpe_total_only)] ["PGA"] = Ok residuals_total_only.
Proof.
  unfold __init__, init_gmpe. cbn.
  rewrite Rmin_left, Rmax_right by lra. reflexivity.
Qed.

Lemma event_two_records_expected_ok (imt_period : string -> R) :
  get_expected_motions imt_period residuals_total_only event_two_records
  = Ok event_two_records_expected.
Proof. reflexivity. Qed.

(** Witness for C1: a model with only a total standard deviation, one event
    with two records. *)
Lemma total_residual_formula_witness :
  exists c2,
    calculate_residuals residuals_total_only event_two_records_expected true = Ok c2 /\
    exists r total,
      getitem2 (Residual c2) "G" "PGA" = Ok (Some r) /\
      dict_get r "Total" = Some total /\
      nth 1 total 0 = (ln 2 - 0) / 2.
Proof.
  eexists. split; [reflexivity|].
  destruct (total_residual_formula residuals_total_only event_two_records_expected _
              true "G" "PGA" [("Mean", [0; 0]); ("Total", [1; 2])] [1; 2] [0; 0] [1; 2]
              eq_refl)
    as (r & total & H1 & H2 & _ & H4);
    try reflexivity; simpl; auto.
  exists r, total. repeat split; auto.
  apply (H4 1%nat). simpl. lia.
Defined.

(** ** Bootstrap distinctiveness *)

Lemma mapM_length {A B : Type} (f : A -> result B) (l : list A) (ys : list B) :
  mapM f l = Ok ys -> length ys = length l.
Proof.
  revert ys; induction l as [|x l IH]; simpl; intros ys H.
  - injection H as <-. reflexivity.
  - apply bind_ok in H as (y & _ & H). apply bind_ok in H as (ys' & Hys & H).
    injection H as <-. simpl. f_equal. apply IH, Hys.
Qed.

Lemma mapM_nth {A B : Type} (f : A -> result B) (l : list A) (ys : list B)
  (da : A) (db : B) :
  mapM f l = Ok ys ->
  forall i, (i < length l)%nat -> f (nth i l da) = Ok (nth i ys db).
Proof.
  revert ys; induction l as [|x l IH]; simpl; intros ys H i Hi; [lia|].
  apply bind_ok in H as (y & Hy & H). apply bind_ok in H as (ys' & Hys & H).
  injection H as <-. destruct i as [|i]; simpl; [assumption|].
  apply IH; [assumption|lia].
Qed.

Lemma mapM_total {A B : Type} (f : A -> result B) (l : list A) :
  (forall x, In x l -> exists y, f x = Ok y) -> exists ys, mapM f l = Ok ys.
Proof.
  induction l as [|x l IH]; simpl; intros H; [eauto|].
  destruct (H x) as [y Hy]; [auto|].
  destruct IH as [ys Hys]; [auto|].
  rewrite Hy, Hys. simpl. eauto.
Qed.

Lemma py_div_ok (x y v : R) : py_div x y = Ok v -> y <> 0 /\ v = x / y.
Proof.
  unfold py_div. destruct (Req_dec_T y 0); [discriminate|].
  intros H. injection H as <-. auto.
Qed.

Lemma py_div_nonzero (x y : R) : y <> 0 -> py_div x y = Ok (x / y).
Proof.
  intros H. unfold py_div. destruct (Req_dec_T y 0); [contradiction|reflexivity].
Qed.

Lemma count_lt_bounds (a b : array) :
  (0 <= count_lt a b <= Z.of_nat (length a))%Z.
Proof.
  unfold count_lt. split; [lia|].
  apply Nat2Z.inj_le.
  eapply Nat.le_trans; [apply filter_length_le|].
  rewrite length_combine. lia.
Qed.

Lemma fold_left_Zadd_acc (l : list Z) (acc : Z) :
  fold_left Z.add l acc = (acc + fold_left Z.add l 0)%Z.
Proof.
  revert acc; induction l as [|x l IH]; simpl; intros acc; [lia|].
  rewrite (IH (acc + x)%Z), (IH x). lia.
Qed.

Lemma count_lt2_bounds (n : nat) (a b : list array) :
  (forall x, In x a -> length x = n) ->
  (0 <= count_lt2 a b <= Z.of_nat (length a * n))%Z.
Proof.
  unfold count_lt2. revert b; induction a as [|x a IH]; intros b Hlen.
  - simpl. lia.
  - destruct b as [|y b]; simpl; [lia|].
    rewrite fold_left_Zadd_acc.
    specialize (IH b (fun z Hz => Hlen z (or_intror Hz))).
    pose proof (count_lt_bounds x y) as Hc.
    rewrite (Hlen x (or_introl eq_refl)) in Hc. lia.
Qed.

Lemma quotient_in_unit_interval (c : Z) (n : nat) :
  (- Z.of_nat n <= c <= Z.of_nat n)%Z -> INR n <> 0 ->
  -1 <= IZR c / INR n <= 1.
Proof.
  intros [Hlo Hhi] Hn.
  assert (Hpos : 0 < INR n).
  { destruct n; [simpl in Hn; lra | apply lt_0_INR; lia]. }
  apply IZR_le in Hlo, Hhi. rewrite opp_IZR in Hlo.
  rewrite <- INR_IZR_INZ in Hlo, Hhi.
  split.
  - apply Rmult_le_reg_r with (INR n); [assumption|].
    unfold Rdiv. rewrite Rmult_assoc, Rinv_l by assumption. lra.
  - apply Rmult_le_reg_r with (INR n); [assumption|].
    unfold Rdiv. rewrite Rmult_assoc, Rinv_l by assumption. lra.
Qed.

Lemma quotient_antisym (c1 c2 : Z) (y : R) :
  IZR (c1 - c2) / y = - (IZR (c2 - c1) / y).
Proof. rewrite !minus_IZR. unfold Rdiv. ring. Qed.

(** C8: every distinctiveness value lies in [-1, 1], and for two distinct
    models [distinctiveness(i, j) = - distinctiveness(j, i)], in the summed
    mode and in the per-IMT mode; [outputs] is the models x IMTs x draws cube
    of [number_bootstraps] draws. *)
Theorem distinctiveness_range_antisym (self : Residuals) (outputs : list (list array))
  (number_bootstraps : nat) (sum_imts : bool) (D : distinctiveness_t) :
  get_distinctiveness self outputs number_bootstraps sum_imts = Ok D ->
  (forall o, In o outputs ->
     length o = length (imts self) /\
     forall a, In a o -> length a = number_bootstraps) ->
  match D with
  | Summed d =>
      forall i j, (i < length (gmpe_list self))%nat -> (j < length (gmpe_list self))%nat ->
        -1 <= nth j (nth i d []) 0 <= 1 /\
        (i <> j -> nth j (nth i d []) 0 = - nth i (nth j d []) 0)
  | PerIMT d =>
      forall i j k, (i < length (gmpe_list self))%nat -> (j < length (gmpe_list self))%nat ->
        (k < length (imts self))%nat ->
        -1 <= nth k (nth j (nth i d []) []) 0 <= 1 /\
        (i <> j -> nth k (nth j (nth i d []) []) 0 = - nth k (nth i (nth j d []) []) 0)
  end.
Proof.
  unfold get_distinctiveness, dict_keys. rewrite length_map.
  set (ng := length (gmpe_list self)). set (ni := length (imts self)).
  intros H Hshape. destruct sum_imts.
  - apply bind_ok in H as (d & Hd & H). injection H as <-.
    assert (Hentry : forall i j, (i < ng)%nat -> (j < ng)%nat ->
      (if (i =? j)%nat then Ok 0
       else
         data_i <- list_getitem outputs i ;;
         data_j <- list_getitem outputs j ;;
         py_div (IZR (count_lt2 data_i data_j - count_lt2 data_j data_i))
                (INR number_bootstraps * INR ni)) = Ok (nth j (nth i d []) 0)).
    { intros i j Hi Hj.
      pose proof (mapM_nth _ _ _ 0%nat [] Hd i) as Hrow.
      rewrite length_seq, seq_nth in Hrow by assumption. specialize (Hrow Hi).
      pose proof (mapM_nth _ _ _ 0%nat 0 Hrow j) as Hcell.
      rewrite length_seq, seq_nth in Hcell by assumption. apply Hcell, Hj. }
    intros i j Hi Hj.
    pose proof (Hentry i j Hi Hj) as Hij. pose proof (Hentry j i Hj Hi) as Hji.
    destruct (Nat.eqb_spec i j) as [->|Hne].
    + injection Hij as Hij. rewrite <- Hij. split; [lra|congruence].
    + destruct (Nat.eqb_spec j i) as [->|_]; [congruence|].
      apply bind_ok in Hij as (di & Hdi & Hij). apply bind_ok in Hij as (dj & Hdj & Hij).
      rewrite Hdj, Hdi in Hji. cbn [bind] in Hji.
      apply py_div_ok in Hij as [Hnz Hij]. apply py_div_ok in Hji as [_ Hji].
      rewrite Hij, Hji. split; [|intros _; apply quotient_antisym].
      assert (Hin : forall o idx, list_getitem outputs idx = Ok o -> In o outputs).
      { intros o idx Ho. unfold list_getitem in Ho.
        destruct (nth_error outputs idx) eqn:E; [|discriminate].
        injection Ho as <-. eapply nth_error_In, E. }
      destruct (Hshape di (Hin _ _ Hdi)) as [Li Hai].
      destruct (Hshape dj (Hin _ _ Hdj)) as [Lj Haj].
      pose proof (count_lt2_bounds number_bootstraps di dj Hai) as B1.
      pose proof (count_lt2_bounds number_bootstraps dj di Haj) as B2.
      rewrite Li in B1. rewrite Lj in B2.
      rewrite <- mult_INR, Nat.mul_comm.
      apply quotient_in_unit_interval; [lia|].
      rewrite Nat.mul_comm, mult_INR. assumption.
  - apply bind_ok in H as (d & Hd & H). injection H as <-.
    assert (Hrow : forall i j, (i < ng)%nat -> (j < ng)%nat ->
      (if (i =? j)%nat then Ok (repeat 0 ni)
       else
         mapM (fun k =>
                 oi <- list_getitem outputs i ;;
                 data_i <- list_getitem oi k ;;
                 oj <- list_getitem outputs j ;;
                 data_j <- list_getitem oj k ;;
                 py_div (IZR (count_lt data_i data_j - count_lt data_j data_i))
                        (INR number_bootstraps))
           (seq 0 ni)) = Ok (nth j (nth i d []) [])).
    { intros i j Hi Hj.
      pose proof (mapM_nth _ _ _ 0%nat [] Hd i) as Hr.
      rewrite length_seq, seq_nth in Hr by assumption. specialize (Hr Hi).
      pose proof (mapM_nth _ _ _ 0%nat [] Hr j) as Hcell.
      rewrite length_seq, seq_nth in Hcell by assumption. apply Hcell, Hj. }
    intros i j k Hi Hj Hk.
    pose proof (Hrow i j Hi Hj) as Hij. pose proof (Hrow j i Hj Hi) as Hji.
    destruct (Nat.eqb_spec i j) as [->|Hne].
    + injection Hij as Hij. rewrite <- Hij.
      rewrite nth_repeat. split; [lra|congruence].
    + destruct (Nat.eqb_spec j i) as [->|_]; [congruence|].
      pose proof (mapM_nth _ _ _ 0%nat 0 Hij k) as Hk1.
      pose proof (mapM_nth _ _ _ 0%nat 0 Hji k) as Hk2.
      rewrite length_seq, seq_nth in Hk1, Hk2 by assumption.
      specialize (Hk1 Hk). specialize (Hk2 Hk).
      apply bind_ok in Hk1 as (oi & Hoi & Hk1). apply bind_ok in Hk1 as (di & Hdi & Hk1).
      apply bind_ok in Hk1 as (oj & Hoj & Hk1). apply bind_ok in Hk1 as (dj & Hdj & Hk1).
      rewrite Hoj, Hoi in Hk2. cbn [bind] in Hk2. rewrite Hdj in Hk2. cbn [bind] in Hk2.
      rewrite Hdi in Hk2. cbn [bind] in Hk2.
      apply py_div_ok in Hk1 as [Hnz Hk1]. apply py_div_ok in Hk2 as [_ Hk2].
      rewrite Hk1, Hk2. split; [|intros _; apply quotient_antisym].
      assert (Hin : forall (A : Type) (l : list A) o idx,
                 list_getitem l idx = Ok o -> In o l).
      { intros A l o idx Ho. unfold list_getitem in Ho.
        destruct (nth_error l idx) eqn:E; [|discriminate].
        injection Ho as <-. eapply nth_error_In, E. }
      destruct (Hshape oi (Hin _ _ _ _ Hoi)) as [_ Hai].
      destruct (Hshape oj (Hin _ _ _ _ Hoj)) as [_ Haj].
      pose proof (count_lt_bounds di dj) as B1.
      pose proof (count_lt_bounds dj di) as B2.
      rewrite (Hai di (Hin _ _ _ _ Hdi)) in B1.
      rewrite (Haj dj (Hin _ _ _ _ Hdj)) in B2.
      apply quotient_in_unit_interval; [lia|assumption].
Qed.

Lemma list_getitem_lt {A : Type} (l : list A) (i : nat) :
  (i < length l)%nat -> exists x, list_getitem l i = Ok x /\ In x l.
Proof.
  intros Hi. unfold list_getitem.
  destruct (nth_error l i) eqn:E.
  - exists a. split; [reflexivity|]. eapply nth_error_In, E.
  - apply nth_error_None in E. lia.
Qed.

(** On a models x IMTs x draws cube with at least one draw (and, when
    summing, at least one IMT) [get_distinctiveness] returns. *)
Lemma get_distinctiveness_returns (self : Residuals) (outputs : list (list array))
  (number_bootstraps : nat) (sum_imts : bool) :
  length outputs = length (gmpe_list self) ->
  (forall o, In o outputs -> length o = length (imts self)) ->
  number_bootstraps <> 0%nat ->
  (sum_imts = true -> imts self <> []) ->
  exists D, get_distinctiveness self outputs number_bootstraps sum_imts = Ok D.
Proof.
  intros Hlen Hshape Hnbs Hni.
  unfold get_distinctiveness, dict_keys. rewrite length_map.
  assert (Hb : INR number_bootstraps <> 0) by (apply not_0_INR; assumption).
  destruct sum_imts.
  - assert (Hi : INR (length (imts self)) <> 0).
    { apply not_0_INR. destruct (imts self); [exfalso; apply Hni; auto | discriminate]. }
    match goal with
    | |- exists D, bind ?c _ = _ => destruct (mapM_total (B := list R)
        (fun i => mapM (fun j =>
             if (i =? j)%nat then Ok 0
             else
               data_i <- list_getitem outputs i ;;
               data_j <- list_getitem outputs j ;;
               py_div (IZR (count_lt2 data_i data_j - count_lt2 data_j data_i))
                      (INR number_bootstraps * INR (length (imts self))))
             (seq 0 (length (gmpe_list self))))
        (seq 0 (length (gmpe_list self)))) as [d Hd]
    end.
    { intros i Hin. apply in_seq in Hin. apply mapM_total.
      intros j Hjn. apply in_seq in Hjn.
      destruct (i =? j)%nat; [eauto|].
      destruct (list_getitem_lt outputs i) as (di & -> & _); [lia|].
      destruct (list_getitem_lt outputs j) as (dj & -> & _); [lia|].
      cbn [bind]. rewrite py_div_nonzero; [eauto|].
      apply Rmult_integral_contrapositive_currified; assumption. }
    rewrite Hd. cbn [bind]. eauto.
  - match goal with
    | |- exists D, bind ?c _ = _ => destruct (mapM_total (B := list (list R))
        (fun i => mapM (fun j =>
             if (i =? j)%nat then Ok (repeat 0 (length (imts self)))
             else
               mapM (fun k =>
                 oi <- list_getitem outputs i ;;
                 data_i <- list_getitem oi k ;;
                 oj <- list_getitem outputs j ;;
                 data_j <- list_getitem oj k ;;
                 py_div (IZR (count_lt data_i data_j - count_lt data_j data_i))
                        (INR number_bootstraps))
                 (seq 0 (length (imts self))))
             (seq 0 (length (gmpe_list self))))
        (seq 0 (length (gmpe_list self)))) as [d Hd]
    end.
    { intros i Hin. apply in_seq in Hin. apply mapM_total.
      intros j Hjn. apply in_seq in Hjn.
      destruct (i =? j)%nat; [eauto|].
      apply mapM_total. intros k Hkn. apply in_seq in Hkn.
      destruct (list_getitem_lt outputs i) as (oi & -> & Hoi); [lia|].
      destruct (list_getitem_lt outputs j) as (oj & -> & Hoj); [lia|].
      cbn [bind].
      destruct (list_getitem_lt oi k) as (di & -> & _); [rewrite (Hshape oi Hoi); lia|].
      destruct (list_getitem_lt oj k) as (dj & -> & _); [rewrite (Hshape oj Hoj); lia|].
      cbn [bind]. rewrite py_div_nonzero; [eauto|assumption]. }
    rewrite Hd. cbn [bind]. eauto.
Qed.

(** Witness for C8: two models, one IMT, two bootstrap draws. *)
Lemma distinctiveness_range_antisym_witness :
  exists D,
    get_distinctiveness residuals_two_models [[[1; 1]]; [[2; 2]]] 2 false = Ok D /\
    match D with
    | Summed _ => True
    | PerIMT d =>
        -1 <= nth 0 (nth 1 (nth 0 d []) []) 0 <= 1 /\
        nth 0 (nth 1 (nth 0 d []) []) 0 = - nth 0 (nth 0 (nth 1 d []) []) 0
    end.
Proof.
  destruct (get_distinctiveness_returns residuals_two_models [[[1; 1]]; [[2; 2]]] 2 false)
    as [D HD]; try (simpl; congruence).
  { simpl. intros o [<-|[<-|[]]]; reflexivity. }
  exists D. split; [assumption|].
  pose proof (distinctiveness_range_antisym residuals_two_models
                [[[1; 1]]; [[2; 2]]] 2 false D HD) as H.
  destruct D as [d|d]; [exact I|].
  destruct (H ltac:(simpl; intros o [<-|[<-|[]]]; split; try reflexivity;
                    simpl; intros a [<-|[]]; reflexivity)
              0%nat 1%nat 0%nat) as [Hr Ha]; simpl; try lia.
  split; [exact Hr | apply Ha; lia].
Defined.

(** ** Log-likelihood weights *)

Lemma fold_left_Rplus_acc (l : list R) (acc : R) :
  fold_left Rplus l acc = acc + fold_left Rplus l 0.
Proof.
  revert acc; induction l as [|x l IH]; simpl; intros acc; [ring|].
  rewrite (IH (acc + x)), (IH (0 + x)). ring.
Qed.

Lemma np_sum_cons (x : R) (l : array) : np_sum (x :: l) = x + np_sum l.
Proof. unfold np_sum. simpl. rewrite fold_left_Rplus_acc. ring. Qed.

Lemma np_sum_nil : np_sum [] = 0.
Proof. reflexivity. Qed.

Lemma np_sum_app (a b : array) : np_sum (a ++ b) = np_sum a + np_sum b.
Proof.
  induction a as [|x a IH]; simpl.
  - rewrite np_sum_nil. ring.
  - rewrite !np_sum_cons, IH. ring.
Qed.

Lemma np_sum_map_div (l : array) (s : R) :
  np_sum (map (fun w => w / s) l) = np_sum l / s.
Proof.
  induction l as [|x l IH]; simpl.
  - rewrite np_sum_nil. unfold Rdiv. ring.
  - rewrite !np_sum_cons, IH. unfold Rdiv. ring.
Qed.

Lemma np_sum_pos (l : array) :
  l <> [] -> (forall x, In x l -> 0 < x) -> 0 < np_sum l.
Proof.
  induction l as [|x l IH]; intros Hne Hpos; [congruence|].
  rewrite np_sum_cons.
  assert (0 < x) by (apply Hpos; left; reflexivity).
  destruct l as [|y l].
  - rewrite np_sum_nil. lra.
  - assert (0 < np_sum (y :: l)).
    { apply IH; [discriminate|]. intros z Hz. apply Hpos. right. assumption. }
    lra.
Qed.

Lemma dict_get_not_in {V : Type} (d : dict V) (k : string) :
  ~ In k (dict_keys d) -> dict_get d k = None.
Proof.
  induction d as [|[k' v] d IH]; simpl; intros H; [reflexivity|].
  destruct (String.eqb k k') eqn:E.
  - apply String.eqb_eq in E. subst. tauto.
  - apply IH. tauto.
Qed.

Lemma dict_set_new {V : Type} (d : dict V) (k : string) (v : V) :
  ~ In k (dict_keys d) -> dict_set d k v = d ++ [(k, v)].
Proof.
  induction d as [|[k' v'] d IH]; simpl; intros H; [reflexivity|].
  destruct (String.eqb k k') eqn:E.
  - apply String.eqb_eq in E. subst. tauto.
  - rewrite IH by tauto. reflexivity.
Qed.

(** [OrderedDict] on pairs with distinct keys keeps the pairs as they are. *)
Lemma fold_dict_set_NoDup {V : Type} (pairs : list (string * V)) (acc : dict V) :
  NoDup (dict_keys acc ++ map fst pairs) ->
  fold_left (fun d p => dict_set d (fst p) (snd p)) pairs acc = acc ++ pairs.
Proof.
  revert acc; induction pairs as [|[k v] pairs IH]; simpl; intros acc H.
  - rewrite app_nil_r. reflexivity.
  - rewrite dict_set_new.
    + rewrite IH.
      * rewrite <- app_assoc. reflexivity.
      * unfold dict_keys. rewrite map_app. simpl. rewrite <- app_assoc. exact H.
    + apply NoDup_remove_2 in H. intros Hin. apply H. apply in_or_app. auto.
Qed.

Lemma OrderedDict_NoDup {V : Type} (pairs : list (string * V)) :
  NoDup (map fst pairs) -> OrderedDict pairs = pairs.
Proof. intros H. unfold OrderedDict. rewrite fold_dict_set_NoDup; auto. Qed.

Lemma dict_get_combine_map {V : Type} (f : string -> V) (ks : list string) (k : string) :
  In k ks -> dict_get (combine ks (map f ks)) k = Some (f k).
Proof.
  induction ks as [|k0 ks IH]; simpl; intros H; [tauto|].
  destruct (String.eqb k k0) eqn:E.
  - apply String.eqb_eq in E. subst. reflexivity.
  - destruct H as [->|H]; [rewrite String.eqb_refl in E; discriminate|]. auto.
Qed.

Lemma map_fst_combine_eq {A B : Type} (ks : list A) (vs : list B) :
  length ks = length vs -> map fst (combine ks vs) = ks.
Proof.
  revert vs; induction ks as [|k ks IH]; intros [|v vs]; simpl; intros H;
    try discriminate; [reflexivity|].
  f_equal. apply IH. lia.
Qed.

Lemma mapM_bind_map {A B C : Type} (f : A -> result B) (g : B -> C) (dflt : B)
  (l : list A) (ys : list C) :
  mapM (fun x => y <- f x ;; Ok (g y)) l = Ok ys ->
  ys = map (fun x => g (match f x with Ok y => y | Raise _ => dflt end)) l /\
  forall x, In x l -> exists y, f x = Ok y.
Proof.
  revert ys; induction l as [|x l IH]; simpl; intros ys H.
  - injection H as <-. split; [reflexivity|tauto].
  - apply bind_ok in H as (c & Hc & H). apply bind_ok in H as (ys' & Hys & H).
    injection H as <-. apply bind_ok in Hc as (y & Hy & Hc). injection Hc as <-.
    destruct (IH _ Hys) as [-> Hall]. rewrite Hy. split; [reflexivity|].
    intros z [<-|Hz]; eauto.
Qed.

Lemma Rpower_2_pos (x : R) : 0 < Rpower 2 x.
Proof. unfold Rpower. apply exp_pos. Qed.

(** C7: the model weights are [2^(-LLH_all)] divided by the sum of these
    values over all models; they sum to [1] over the models, and of two
    models the one with the strictly lower aggregate LLH has the strictly
    higher weight. *)
Theorem llh_model_weights (self : Residuals) (imts0 : list string)
  (llh : dict (dict (option R))) (model_weights : dict R) :
  get_loglikelihood_values self imts0 = Ok (llh, model_weights) ->
  NoDup (dict_keys (gmpe_list self)) ->
  let gmpes := dict_keys (gmpe_list self) in
  let total := np_sum (map (fun g => Rpower 2 (- aggregate_llh llh g)) gmpes) in
  (forall g, In g gmpes ->
     exists l, llh_all llh g = Ok l /\
               dict_get model_weights g = Some (Rpower 2 (- l) / total)) /\
  (gmpes <> [] -> np_sum (map (weight_of model_weights) gmpes) = 1) /\
  (forall g h, In g gmpes -> In h gmpes ->
     aggregate_llh llh g < aggregate_llh llh h ->
     weight_of model_weights h < weight_of model_weights g).
Proof.
  intros H Hnd. cbv zeta.
  unfold get_loglikelihood_values in H.
  apply bind_ok in H as (llh' & _ & H).
  apply bind_ok in H as (weights0 & Hw & H).
  injection H as -> <-.
  destruct (mapM_bind_map _ (fun l => Rpower 2 (- l)) 0 _ _ Hw) as [Hw0 Hall].
  assert (Hw0' : weights0 =
            map (fun g => Rpower 2 (- aggregate_llh llh g)) (dict_keys (gmpe_list self)))
    by exact Hw0.
  clear Hw0 Hw. subst weights0.
  rewrite map_map.
  set (gmpes := dict_keys (gmpe_list self)) in *.
  set (total := np_sum (map (fun g => Rpower 2 (- aggregate_llh llh g)) gmpes)) in *.
  assert (Hget : forall g, In g gmpes ->
            dict_get (OrderedDict (combine gmpes
                        (map (fun g => Rpower 2 (- aggregate_llh llh g) / total) gmpes))) g
            = Some (Rpower 2 (- aggregate_llh llh g) / total)).
  { intros g Hg. rewrite OrderedDict_NoDup.
    - apply (dict_get_combine_map (fun g => Rpower 2 (- aggregate_llh llh g) / total)), Hg.
    - rewrite map_fst_combine_eq by (rewrite length_map; reflexivity). exact Hnd. }
  assert (Hwt : forall g, In g gmpes ->
            weight_of (OrderedDict (combine gmpes
                        (map (fun g => Rpower 2 (- aggregate_llh llh g) / total) gmpes))) g
            = Rpower 2 (- aggregate_llh llh g) / total).
  { intros g Hg. unfold weight_of. rewrite (Hget g Hg). reflexivity. }
  assert (Htotal : gmpes <> [] -> 0 < total).
  { intros Hne. apply np_sum_pos.
    - destruct gmpes; [congruence|discriminate].
    - intros x Hx. apply in_map_iff in Hx as (g & <- & _). apply Rpower_2_pos. }
  split; [|split].
  - intros g Hg. destruct (Hall g Hg) as [l Hl]. exists l. split; [assumption|].
    rewrite (Hget g Hg). unfold aggregate_llh. rewrite Hl. reflexivity.
  - intros Hne.
    rewrite (map_ext_in _ (fun g => Rpower 2 (- aggregate_llh llh g) / total)) by exact Hwt.
    rewrite <- (map_map (fun g => Rpower 2 (- aggregate_llh llh g)) (fun w => w / total)).
    rewrite np_sum_map_div. fold total.
    specialize (Htotal Hne). field. lra.
  - intros g h Hg Hh Hlt. rewrite (Hwt g Hg), (Hwt h Hh).
    assert (0 < total) by (apply Htotal; intros E; rewrite E in Hg; exact Hg).
    unfold Rdiv. apply Rmult_lt_compat_r; [apply Rinv_0_lt_compat; assumption|].
    apply Rpower_lt; lra.
Qed.

Lemma llh_two_models_returns :
  exists llh w, get_loglikelihood_values residuals_two_models ["PGA"] = Ok (llh, w).
Proof.
  unfold get_loglikelihood_values, llh_gmpe, llh_imt, llh_asll, neg_mean_log.
  cbn -[py_div Rpower norm_pdf np_log2 np_sum INR].
  repeat (rewrite py_div_nonzero by (simpl; lra);
          cbn -[py_div Rpower norm_pdf np_log2 np_sum INR]).
  eexists. eexists. reflexivity.
Qed.

(** Witness for C7: two models with total residuals [0; 0] and [1; 1]. *)
Lemma llh_model_weights_witness :
  exists llh w,
    get_loglikelihood_values residuals_two_models ["PGA"] = Ok (llh, w) /\
    np_sum (map (weight_of w) ["G"; "H"]) = 1.
Proof.
  destruct llh_two_models_returns as (llh & w & H).
  exists llh, w. split; [assumption|].
  assert (Hnd : NoDup (dict_keys (gmpe_list residuals_two_models))).
  { simpl. repeat constructor; simpl; intuition discriminate. }
  destruct (llh_model_weights residuals_two_models ["PGA"] llh w H Hnd) as (_ & Hsum & _).
  apply Hsum. simpl. discriminate.
Defined.

(** ** Multivariate log-likelihood values *)

Lemma sum_loop_value (mg : dict R) (vals : string -> R) (xs : list string) :
  (forall x, In x xs -> dict_get mg x = Some (vals x)) ->
  forall t0 t,
    for_each xs
      (fun total_llh imtx =>
         v <- getitem mg imtx ;;
         if np_isnan v then Ok total_llh else Ok (total_llh + v)) t0 = Ok t ->
    t = t0 + np_sum (map vals xs).
Proof.
  induction xs as [|x xs IH]; simpl; intros Hget t0 t H.
  - injection H as <-. rewrite np_sum_nil. ring.
  - apply bind_ok in H as (t1 & H1 & H).
    unfold getitem in H1. rewrite (Hget x (or_introl eq_refl)) in H1.
    cbn [bind np_isnan] in H1. injection H1 as <-.
    rewrite (IH (fun y Hy => Hget y (or_intror Hy)) _ _ H), np_sum_cons. ring.
Qed.

Lemma np_sum_filter_zero (vals : string -> R) (k : string) (xs : list string) :
  vals k = 0 ->
  np_sum (map vals xs)
  = np_sum (map vals (filter (fun x => negb (String.eqb x k)) xs)).
Proof.
  intros Hk. induction xs as [|x xs IH]; simpl; [reflexivity|].
  rewrite np_sum_cons, IH.
  destruct (String.eqb x k) eqn:E; simpl.
  - apply String.eqb_eq in E. subst x. rewrite Hk. ring.
  - rewrite np_sum_cons. reflexivity.
Qed.

(** C10: a pair whose residual-store entry is [None] gets the per-IMT value
    [0] exactly, and contributes nothing to the model's summed value: the sum
    is the sum over the other IMTs. *)
Theorem multivariate_llh_inapplicable_is_zero (self : Residuals) (gmpe imtx : string) :
  In gmpe (dict_keys (gmpe_list self)) -> In imtx (imts self) ->
  getitem2 (residuals self) gmpe imtx = Ok None ->
  (forall multi,
     get_multivariate_loglikelihood_values self false = Ok multi ->
     exists mg, dict_get multi gmpe = Some (MllhPerIMT mg) /\ dict_get mg imtx = Some 0) /\
  (forall multi,
     get_multivariate_loglikelihood_values self true = Ok multi ->
     exists vals : string -> R,
       vals imtx = 0 /\
       (forall x, In x (imts self) -> multi_llh_value self gmpe x = Ok (vals x)) /\
       dict_get multi gmpe
       = Some (MllhSummed
                 (np_sum (map vals (filter (fun x => negb (String.eqb x imtx)) (imts self)))))).
Proof.
  intros Hg Hi Hnone.
  assert (Hval : multi_llh_value self gmpe imtx = Ok 0).
  { unfold multi_llh_value. rewrite Hnone. reflexivity. }
  split; intros multi H; unfold get_multivariate_loglikelihood_values in H;
    destruct (for_each_set_lookup _ _ _ _ H gmpe) as [Hin _];
    destruct (Hin Hg) as (v & Hv & Hget); clear Hin;
    apply bind_ok in Hv as (mg & Hmg & Hv).
  - injection Hv as <-. exists mg. split; [assumption|].
    destruct (for_each_set_lookup _ _ _ _ Hmg imtx) as [Hin _].
    destruct (Hin Hi) as (v & Hv & Hgetv). congruence.
  - apply bind_ok in Hv as (total & Htotal & Hv). injection Hv as <-.
    set (vals := fun x => match multi_llh_value self gmpe x with
                          | Ok y => y
                          | Raise _ => 0
                          end).
    assert (Hvals : forall x, In x (imts self) ->
               multi_llh_value self gmpe x = Ok (vals x) /\ dict_get mg x = Some (vals x)).
    { intros x Hx. destruct (for_each_set_lookup _ _ _ _ Hmg x) as [Hin _].
      destruct (Hin Hx) as (y & Hy & Hgety). unfold vals. rewrite Hy. auto. }
    assert (Hzero : vals imtx = 0) by (unfold vals; rewrite Hval; reflexivity).
    exists vals. split; [assumption|]. split; [intros x Hx; apply Hvals, Hx|].
    rewrite Hget. do 2 f_equal.
    rewrite (sum_loop_value mg vals (imts self) (fun x Hx => proj2 (Hvals x Hx)) _ _ Htotal).
    rewrite <- (np_sum_filter_zero vals imtx _ Hzero). ring.
Qed.

(** ** The covariance matrix of the multivariate log-likelihood *)

Lemma fold_left_add_acc (l : list nat) (acc : nat) :
  fold_left Nat.add l acc = (acc + list_sum l)%nat.
Proof.
  revert acc; induction l as [|x l IH]; simpl; intros acc; [lia|].
  rewrite IH. lia.
Qed.

Lemma skipn_repeat {A : Type} (x : A) (n k : nat) :
  skipn n (repeat x k) = repeat x (k - n).
Proof.
  revert k; induction n as [|n IH]; intros k; simpl.
  - rewrite Nat.sub_0_r. reflexivity.
  - destruct k; simpl; auto.
Qed.

Lemma firstn_repeat {A : Type} (x : A) (n k : nat) :
  (n <= k)%nat -> firstn n (repeat x k) = repeat x n.
Proof.
  revert k; induction n as [|n IH]; intros k H; simpl; [reflexivity|].
  destruct k; [lia|]. simpl. f_equal. apply IH. lia.
Qed.

Lemma firstn_app_exact {A : Type} (pre rest : list A) :
  firstn (length pre) (pre ++ rest) = pre.
Proof.
  rewrite firstn_app, Nat.sub_diag, firstn_all. simpl. apply app_nil_r.
Qed.

Lemma skipn_app_plus {A : Type} (pre rest : list A) (n : nat) :
  skipn (length pre + n) (pre ++ rest) = skipn n rest.
Proof.
  rewrite skipn_app, skipn_all2 by lia.
  replace (length pre + n - length pre)%nat with n by lia. reflexivity.
Qed.

Lemma skipn_app_exact {A : Type} (pre rest : list A) :
  skipn (length pre) (pre ++ rest) = rest.
Proof.
  rewrite <- (Nat.add_0_r (length pre)). apply skipn_app_plus.
Qed.

(** Filling the next [n] cells after an already filled prefix. *)
Lemma set_slice_fill (pre rest v : array) (i n : nat) :
  length pre = i -> length v = n -> (n <= length rest)%nat ->
  set_slice (pre ++ rest) i n v = Ok (pre ++ v ++ skipn n rest).
Proof.
  intros Hpre Hv Hn. subst i. unfold set_slice. rewrite length_app.
  replace (Nat.min (length pre) (length pre + length rest)) with (length pre) by lia.
  replace (Nat.min (length pre + n) (length pre + length rest))
    with (length pre + n)%nat by lia.
  replace (length pre + n - length pre)%nat with n by lia.
  rewrite Hv, Nat.eqb_refl.
  rewrite firstn_app_exact, skipn_app_plus. reflexivity.
Qed.

Lemma set_col_slice_fill (pre rest : matrix) (v : array) (i n j : nat) :
  length pre = i -> length v = n -> (n <= length rest)%nat ->
  set_col_slice (pre ++ rest) i n j v
  = Ok (pre ++ map (fun p => set_nth (fst p) j (snd p)) (combine (firstn n rest) v)
            ++ skipn n rest).
Proof.
  intros Hpre Hv Hn. subst i. unfold set_col_slice. rewrite length_app.
  replace (Nat.min (length pre) (length pre + length rest)) with (length pre) by lia.
  replace (Nat.min (length pre + n) (length pre + length rest))
    with (length pre + n)%nat by lia.
  replace (length pre + n - length pre)%nat with n by lia.
  rewrite Hv, Nat.eqb_refl. cbn [bind].
  rewrite firstn_app_exact, skipn_app_plus, skipn_app_exact. reflexivity.
Qed.

Lemma set_col_slice_fill_scalar (pre rest : matrix) (x : R) (i n j : nat) :
  length pre = i -> (n <= length rest)%nat ->
  set_col_slice (pre ++ rest) i n j [x]
  = Ok (pre ++ map (fun p => set_nth (fst p) j (snd p)) (combine (firstn n rest) (repeat x n))
            ++ skipn n rest).
Proof.
  intros Hpre Hn.
  destruct (Nat.eq_dec n 1) as [->|Hne].
  - apply set_col_slice_fill; auto.
  - subst i. unfold set_col_slice. rewrite length_app.
    replace (Nat.min (length pre) (length pre + length rest)) with (length pre) by lia.
    replace (Nat.min (length pre + n) (length pre + length rest))
      with (length pre + n)%nat by lia.
    replace (length pre + n - length pre)%nat with n by lia.
    change (length [x]) with 1%nat.
    destruct (Nat.eqb_spec 1 n) as [E|_]; [lia|].
    cbn [Nat.eqb bind nth].
    rewrite firstn_app_exact, skipn_app_plus, skipn_app_exact. reflexivity.
Qed.

Lemma map_indicator_zero (x : R) (t s n : nat) :
  (t < s)%nat ->
  map (fun col => if (col =? t)%nat then x else 0) (seq s n) = repeat 0 n.
Proof.
  revert s; induction n as [|n IH]; intros s Hts; simpl; [reflexivity|].
  destruct (Nat.eqb_spec s t); [lia|]. f_equal. apply IH. lia.
Qed.

Lemma set_nth_zeros_from (x : R) (n j s : nat) :
  (j < n)%nat ->
  set_nth (np_zeros n) j x
  = map (fun col => if (col =? s + j)%nat then x else 0) (seq s n).
Proof.
  unfold set_nth, np_zeros.
  revert j s; induction n as [|n IH]; intros j s Hj; [lia|].
  destruct j as [|j]; simpl.
  - rewrite Nat.add_0_r, Nat.eqb_refl. f_equal.
    symmetry. apply map_indicator_zero. lia.
  - destruct (Nat.eqb_spec s (s + S j)); [lia|]. f_equal.
    change (match repeat 0 n with [] => [] | _ :: l => skipn j l end)
      with (skipn (S j) (repeat 0 n)).
    rewrite (IH j (S s)) by lia.
    apply map_ext. intros a. replace (S s + j)%nat with (s + S j)%nat by lia.
    reflexivity.
Qed.

Lemma set_nth_zeros (neqs j : nat) (x : R) :
  (j < neqs)%nat ->
  set_nth (np_zeros neqs) j x
  = map (fun col => if (col =? j)%nat then x else 0) (seq 0 neqs).
Proof. intros Hj. apply (set_nth_zeros_from x neqs j 0 Hj). Qed.

Lemma map_combine_repeat {A B C : Type} (g : A -> B -> C) (a : A) (l : list B) :
  map (fun p => g (fst p) (snd p)) (combine (repeat a (length l)) l) = map (g a) l.
Proof. induction l as [|x l IH]; simpl; [reflexivity|]. f_equal. exact IH. Qed.

Lemma map_nth_seq_R (a : array) :
  map (fun k => nth k a 0) (seq 0 (length a)) = a.
Proof.
  induction a as [|x a IH]; simpl; [reflexivity|].
  f_equal. rewrite <- seq_shift, map_map. exact IH.
Qed.

Lemma map_seq_const {B : Type} (f : nat -> B) (b : B) (s n : nat) :
  (forall x, f x = b) -> map f (seq s n) = repeat b n.
Proof.
  intros H. revert s; induction n as [|n IH]; intros s; simpl; [reflexivity|].
  rewrite H, IH. reflexivity.
Qed.

(** The values a shared or per-record inter-event deviation contributes to
    the [n] rows of its event. *)
Lemma bget_values (tau : array) (n : nat) :
  length tau = 1%nat \/ length tau = n ->
  map (bget tau) (seq 0 n)
  = if (length tau =? 1)%nat then repeat (nth 0 tau 0) n else tau.
Proof.
  intros H. unfold bget. destruct (Nat.eqb_spec (length tau) 1) as [E|E].
  - apply map_seq_const. reflexivity.
  - destruct H as [H|H]; [contradiction|]. subst n. apply map_nth_seq_R.
Qed.

Section BuildMatrices.

Variables gmpe imtx : string.
Variable neqs : nat.

Let zrow : array := np_zeros neqs.

(** One pass of the first loop of [_build_matrices]. *)
Lemma build_observations_loop (cs : list Context) :
  forall (pre : array) (k : nat),
    Forall (event_shaped gmpe imtx) cs ->
    (list_sum (map Num_Sites cs) <= k)%nat ->
    for_each cs (build_observations imtx) (pre ++ np_zeros k, length pre)
    = Ok (pre ++ concat (map (spec_event_log_obs imtx) cs)
              ++ np_zeros (k - list_sum (map Num_Sites cs)),
          (length pre + list_sum (map Num_Sites cs))%nat).
Proof.
  induction cs as [|c cs IH]; intros pre k Hshape Hk; simpl.
  - rewrite Nat.sub_0_r, Nat.add_0_r. reflexivity.
  - inversion Hshape as [|? ? Hc Hcs]; subst.
    destruct Hc as (e & o & mean & _ & Hobs & Lo & _).
    simpl in Hk.
    unfold build_observations at 1.
    apply getitem_ok in Hobs. rewrite Hobs. cbn [bind].
    rewrite set_slice_fill
      by (try reflexivity; unfold np_log, np_zeros;
          rewrite ?length_map, ?repeat_length; lia).
    cbn [bind]. unfold np_zeros at 1. rewrite skipn_repeat. fold (np_zeros (k - Num_Sites c)).
    rewrite app_assoc.
    replace (length pre + Num_Sites c)%nat with (length (pre ++ np_log o))
      by (rewrite length_app; unfold np_log; rewrite length_map; lia).
    rewrite IH by (try assumption; lia).
    unfold spec_event_log_obs at 2. apply getitem_ok in Hobs. rewrite Hobs.
    rewrite <- !app_assoc, length_app. unfold np_log. rewrite length_map, Lo.
    replace (k - Num_Sites c - list_sum (map Num_Sites cs))%nat
      with (k - (Num_Sites c + list_sum (map Num_Sites cs)))%nat by lia.
    rewrite Nat.add_assoc. reflexivity.
Qed.

(** One step of the second loop of [_build_matrices]. *)
Lemma build_event_step (c : Context) (j k : nat) (pre_r pre_e : array) (pre_z : matrix) :
  event_shaped gmpe imtx c -> (j < neqs)%nat -> (Num_Sites c <= k)%nat ->
  length pre_z = length pre_r -> length pre_e = length pre_r ->
  build_event gmpe imtx
    (pre_r ++ np_zeros k, pre_z ++ repeat zrow k, pre_e ++ np_zeros k, length pre_r) (j, c)
  = Ok ((pre_r ++ spec_event_phi gmpe imtx c) ++ np_zeros (k - Num_Sites c),
        (pre_z ++ spec_Z_rows gmpe imtx neqs j c) ++ repeat zrow (k - Num_Sites c),
        (pre_e ++ spec_event_mean gmpe imtx c) ++ np_zeros (k - Num_Sites c),
        (length pre_r + Num_Sites c)%nat).
Proof.
  intros (e & o & mean & Hexp & _ & _ & Hmean & Lmean & Hdec) Hj Hk Lz Le.
  unfold build_event, spec_event_phi, spec_event_mean, spec_Z_rows, spec_event_tau.
  rewrite Hexp. cbn [bind cell_in cell_getitem]. unfold dict_in.
  rewrite Hmean. apply getitem_ok in Hmean.
  destruct Hdec as [(Hni & Hnr & sigma & Htot & Ls) | (phi & tau & Hphi & Lphi & Htau & Ltau)].
  - rewrite Hni, Hnr, Htot. cbn [negb andb]. apply getitem_ok in Htot.
    rewrite Htot. cbn [bind].
    rewrite set_slice_fill by (try reflexivity; unfold np_zeros; rewrite ?repeat_length; lia).
    cbn [bind]. rewrite Hmean. cbn [bind].
    rewrite set_slice_fill by (unfold np_zeros; rewrite ?repeat_length; lia).
    cbn [bind]. unfold np_zeros at 1 2. rewrite !skipn_repeat, Ls.
    fold (np_zeros (k - Num_Sites c)).
    assert (Hrep : repeat zrow k
                   = map (fun _ : nat =>
                            map (fun col => if (col =? j)%nat then 0 else 0) (seq 0 neqs))
                         (seq 0 (Num_Sites c))
                     ++ repeat zrow (k - Num_Sites c)).
    { replace k with (Num_Sites c + (k - Num_Sites c))%nat at 1 by lia.
      rewrite repeat_app. f_equal.
      symmetry. apply map_seq_const. intros a.
      unfold zrow, np_zeros.
      apply map_seq_const. intros col. destruct (col =? j)%nat; reflexivity. }
    rewrite Hrep, !app_assoc. reflexivity.
  - rewrite Hphi, Htau. cbn [negb andb]. apply getitem_ok in Hphi, Htau.
    rewrite Hphi. cbn [bind].
    rewrite set_slice_fill by (try reflexivity; unfold np_zeros; rewrite ?repeat_length; lia).
    cbn [bind]. rewrite Hmean. cbn [bind].
    rewrite set_slice_fill by (unfold np_zeros; rewrite ?repeat_length; lia).
    cbn [bind]. rewrite Htau. cbn [bind].
    assert (Hz : (if (length tau =? 1)%nat
                  then set_col_slice (pre_z ++ repeat zrow k) (length pre_r) (length phi) j
                         [nth 0 tau 0]
                  else set_col_slice (pre_z ++ repeat zrow k) (length pre_r) (length phi) j tau)
                 = Ok (pre_z
                       ++ map (fun kk => map (fun col => if (col =? j)%nat then bget tau kk else 0)
                                           (seq 0 neqs)) (seq 0 (Num_Sites c))
                       ++ repeat zrow (k - Num_Sites c))).
    { rewrite Lphi.
      assert (Hrows : forall vals, length vals = Num_Sites c ->
                map (fun p => set_nth (fst p) j (snd p))
                    (combine (firstn (Num_Sites c) (repeat zrow k)) vals)
                = map (fun x => map (fun col => if (col =? j)%nat then x else 0) (seq 0 neqs))
                      vals).
      { intros vals Lv. rewrite firstn_repeat by lia. rewrite <- Lv.
        rewrite (map_combine_repeat (fun row x => set_nth row j x) zrow vals).
        apply map_ext. intros x. apply set_nth_zeros, Hj. }
      pose proof (bget_values tau (Num_Sites c) Ltau) as Hvals.
      destruct (Nat.eqb_spec (length tau) 1) as [E|E].
      - rewrite set_col_slice_fill_scalar by (rewrite ?repeat_length; lia).
        rewrite Hrows by apply repeat_length.
        rewrite skipn_repeat, <- Hvals, map_map. reflexivity.
      - rewrite set_col_slice_fill by (rewrite ?repeat_length; lia).
        rewrite Hrows by lia.
        rewrite skipn_repeat. rewrite <- Hvals at 1. rewrite map_map. reflexivity. }
    rewrite Hz. cbn [bind]. unfold np_zeros at 1 2. rewrite !skipn_repeat, Lphi.
    fold (np_zeros (k - Num_Sites c)).
    rewrite !app_assoc. reflexivity.
Qed.

End BuildMatrices.

Lemma spec_event_lengths (gmpe imtx : string) (c : Context) :
  event_shaped gmpe imtx c ->
  length (spec_event_phi gmpe imtx c) = Num_Sites c /\
  length (spec_event_mean gmpe imtx c) = Num_Sites c /\
  length (spec_event_log_obs imtx c) = Num_Sites c.
Proof.
  intros (e & o & mean & Hexp & Hobs & Lo & Hmean & Lmean & Hdec).
  unfold spec_event_phi, spec_event_mean, spec_event_log_obs.
  rewrite Hexp, Hobs, Hmean. unfold np_log. rewrite length_map.
  destruct Hdec as [(Hni & _ & sigma & Htot & Ls) | (phi & tau & Hphi & Lphi & _)].
  - rewrite Hni, Htot. auto.
  - rewrite Hphi. auto.
Qed.

(** The second loop of [_build_matrices], from event [j0] on. *)
Lemma build_events_loop (gmpe imtx : string) (neqs : nat) (cs : list Context) :
  forall (j0 k : nat) (pre_r pre_e : array) (pre_z : matrix),
    Forall (event_shaped gmpe imtx) cs ->
    (j0 + length cs <= neqs)%nat ->
    (list_sum (map Num_Sites cs) <= k)%nat ->
    length pre_z = length pre_r -> length pre_e = length pre_r ->
    for_each (combine (seq j0 (length cs)) cs) (build_event gmpe imtx)
      (pre_r ++ np_zeros k, pre_z ++ repeat (np_zeros neqs) k, pre_e ++ np_zeros k,
       length pre_r)
    = Ok (pre_r ++ concat (map (spec_event_phi gmpe imtx) cs)
                ++ np_zeros (k - list_sum (map Num_Sites cs)),
          pre_z ++ concat (map (fun jc => spec_Z_rows gmpe imtx neqs (fst jc) (snd jc))
                             (combine (seq j0 (length cs)) cs))
                ++ repeat (np_zeros neqs) (k - list_sum (map Num_Sites cs)),
          pre_e ++ concat (map (spec_event_mean gmpe imtx) cs)
                ++ np_zeros (k - list_sum (map Num_Sites cs)),
          (length pre_r + list_sum (map Num_Sites cs))%nat).
Proof.
  induction cs as [|c cs IH]; intros j0 k pre_r pre_e pre_z Hshape Hj Hk Lz Le.
  - simpl. rewrite Nat.sub_0_r, Nat.add_0_r. reflexivity.
  - inversion Hshape as [|? ? Hc Hcs]; subst.
    destruct (spec_event_lengths _ _ _ Hc) as (Lphi & Lmean & _).
    simpl in Hk, Hj. cbn [length seq combine for_each map concat list_sum fst snd].
    rewrite build_event_step by (try assumption; lia).
    cbn [bind].
    replace (length pre_r + Num_Sites c)%nat
      with (length (pre_r ++ spec_event_phi gmpe imtx c))
      by (rewrite length_app; lia).
    rewrite IH; try assumption; try lia.
    + rewrite <- !app_assoc, length_app, Lphi.
      replace (k - Num_Sites c - list_sum (map Num_Sites cs))%nat
        with (k - (Num_Sites c + list_sum (map Num_Sites cs)))%nat by lia.
      cbn [list_sum fold_right]. rewrite Nat.add_assoc. reflexivity.
    + rewrite !length_app, Lz, Lphi. unfold spec_Z_rows.
      rewrite length_map, length_seq. reflexivity.
    + rewrite !length_app, Le, Lphi, Lmean. reflexivity.
Qed.

(** On events with per-record arrays [_build_matrices] returns the
    concatenated log-observations and means and the covariance matrix of the
    specification. *)
Lemma build_matrices_spec (contexts0 : list Context) (gmpe imtx : string) :
  Forall (event_shaped gmpe imtx) contexts0 ->
  _build_matrices contexts0 gmpe imtx
  = Ok (concat (map (spec_event_log_obs imtx) contexts0),
        spec_V gmpe imtx contexts0,
        concat (map (spec_event_mean gmpe imtx) contexts0),
        length contexts0,
        list_sum (map Num_Sites contexts0)).
Proof.
  intros Hshape. unfold _build_matrices.
  rewrite fold_left_add_acc. cbn [Nat.add].
  set (nrecs := list_sum (map Num_Sites contexts0)).
  pose proof (build_observations_loop gmpe imtx contexts0 [] nrecs Hshape (Nat.le_refl _))
    as Hobs.
  change ([] ++ np_zeros nrecs) with (np_zeros nrecs) in Hobs.
  change (@length R []) with 0%nat in Hobs. rewrite Hobs. cbn [bind].
  pose proof (build_events_loop gmpe imtx (length contexts0) contexts0 0 nrecs [] [] []
                Hshape (Nat.le_refl _) (Nat.le_refl _) eq_refl eq_refl) as Hev.
  change ([] ++ np_zeros nrecs) with (np_zeros nrecs) in Hev.
  change ([] ++ repeat (np_zeros (length contexts0)) nrecs)
    with (np_zeros2 nrecs (length contexts0)) in Hev.
  change (@length R []) with 0%nat in Hev. rewrite Hev. cbn [bind].
  fold nrecs. rewrite Nat.sub_diag.
  change (np_zeros 0) with (@nil R).
  change (repeat (np_zeros (length contexts0)) 0) with (@nil (list R)).
  rewrite !app_nil_r. reflexivity.
Qed.

Lemma spec_vectors_same_length (contexts0 : list Context) (gmpe imt : string) :
  Forall (event_shaped gmpe imt) contexts0 ->
  length (concat (map (spec_event_log_obs imt) contexts0))
  = length (concat (map (spec_event_mean gmpe imt) contexts0)).
Proof.
  intros Hshape. induction Hshape as [|c cs Hc Hcs IH]; simpl; [reflexivity|].
  destruct (spec_event_lengths _ _ _ Hc) as (_ & Lmean & Lobs).
  rewrite !length_app, IH, Lmean, Lobs. reflexivity.
Qed.

(** On events with per-record arrays and a regular covariance matrix
    [get_multivariate_ll] returns. *)
Lemma get_multivariate_ll_returns (contexts0 : list Context) (gmpe imt : string) :
  Forall (event_shaped gmpe imt) contexts0 ->
  det (spec_V gmpe imt contexts0) <> 0 ->
  exists v, get_multivariate_ll contexts0 gmpe imt = Ok v.
Proof.
  intros Hshape Hdet.
  unfold get_multivariate_ll. rewrite (build_matrices_spec _ _ _ Hshape). cbn [bind].
  unfold np_sub.
  rewrite (broadcast_same_length _ _ _ (spec_vectors_same_length _ _ _ Hshape)).
  cbn [bind]. unfold solve.
  destruct (Req_dec_T (det (spec_V gmpe imt contexts0)) 0) as [E|_]; [contradiction|].
  cbn [bind]. eauto.
Qed.

(** C4: on events with per-record arrays and a regular covariance matrix,
    [get_multivariate_ll] returns
    [(n * ln(2 pi) + ln|V| + r^T V^-1 r) / 2], where [n] is the number of
    records of all events, [r] the log-observations minus the expected means,
    and [V = diag(phi^2) + Z Z^T] with the inter-event standard deviation of
    event [j] in column [j] of [Z] at the rows of its records; without a
    decomposition [phi] is the total standard deviation and the rows of [Z]
    are zero. *)
Theorem multivariate_ll_formula (contexts0 : list Context) (gmpe imt : string) :
  Forall (event_shaped gmpe imt) contexts0 ->
  det (spec_V gmpe imt contexts0) <> 0 ->
  exists x,
    solve (spec_V gmpe imt contexts0) (spec_r gmpe imt contexts0) = Ok x /\
    _build_matrices contexts0 gmpe imt
    = Ok (concat (map (spec_event_log_obs imt) contexts0),
          spec_V gmpe imt contexts0,
          concat (map (spec_event_mean gmpe imt) contexts0),
          length contexts0,
          list_sum (map Num_Sites contexts0)) /\
    get_multivariate_ll contexts0 gmpe imt
    = Ok ((INR (list_sum (map Num_Sites contexts0)) * ln (2 * PI)
           + ln (Rabs (det (spec_V gmpe imt contexts0)))
           + dotv (spec_r gmpe imt contexts0) x) / 2).
Proof.
  intros Hshape Hdet.
  pose proof (build_matrices_spec _ _ _ Hshape) as Hbuild.
  unfold get_multivariate_ll. rewrite Hbuild. cbn [bind].
  unfold np_sub.
  rewrite (broadcast_same_length _ _ _ (spec_vectors_same_length _ _ _ Hshape)).
  cbn [bind].
  fold (spec_r gmpe imt contexts0).
  unfold solve.
  destruct (Req_dec_T (det (spec_V gmpe imt contexts0)) 0) as [E|_]; [contradiction|].
  eexists. split; [reflexivity|]. split; [reflexivity|].
  cbn [bind]. unfold slogdet. reflexivity.
Qed.

(** ** Single-station analysis *)

Lemma mapM_nth_error {A B : Type} (f : A -> result B) (l : list A) (ys : list B) :
  mapM f l = Ok ys ->
  forall k x, nth_error l k = Some x ->
    exists y, nth_error ys k = Some y /\ f x = Ok y.
Proof.
  revert ys; induction l as [|a l IH]; simpl; intros ys H k x Hk.
  - destruct k; discriminate.
  - apply bind_ok in H as (y & Hy & H). apply bind_ok in H as (ys' & Hys & H).
    injection H as <-. destruct k as [|k]; simpl in *.
    + injection Hk as <-. eauto.
    + eapply IH; eauto.
Qed.

(** A loop keeps what each of its steps keeps. *)
Lemma for_each_preserves {A S : Type} (body : S -> A -> result S) (P : S -> Prop)
  (xs : list A) :
  (forall s y s', body s y = Ok s' -> P s -> P s') ->
  forall s0 s, for_each xs body s0 = Ok s -> P s0 -> P s.
Proof.
  intros Hstep. induction xs as [|x xs IH]; simpl; intros s0 s H H0.
  - injection H as <-. assumption.
  - apply bind_ok in H as (s1 & H1 & H). eapply IH; eauto.
Qed.

Lemma in_dec_or_later {A : Type} (x0 x : A) (xs : list A) :
  In x0 (x :: xs) -> x0 = x \/ In x0 xs.
Proof. intros [<-|H]; auto. Qed.

(** A loop that visits [x0] ends in a state where [Post] holds, when the
    step at [x0] establishes it and every step keeps it. *)
Lemma for_each_establishes {A S : Type} (body : S -> A -> result S)
  (Inv Post : S -> Prop) (x0 : A) (xs : list A) :
  (forall s y s', body s y = Ok s' -> Inv s -> Inv s') ->
  (forall s s', body s x0 = Ok s' -> Inv s -> Post s') ->
  (forall s y s', body s y = Ok s' -> Inv s -> Post s -> Post s') ->
  In x0 xs ->
  forall s0 s, for_each xs body s0 = Ok s -> Inv s0 -> Post s.
Proof.
  intros Hinv Hest Hkeep. induction xs as [|x xs IH]; simpl; intros Hin s0 s H H0.
  - contradiction.
  - apply bind_ok in H as (s1 & H1 & H).
    assert (Inv s1) by eauto.
    destruct (in_dec_or_later x0 x xs Hin) as [E|Hlater].
    + subst x. assert (Post s1) by eauto.
      apply (for_each_preserves body (fun s => Inv s /\ Post s) xs) with (s0 := s1);
        [|assumption|auto].
      intros s2 y s3 Hb [Hi Hp]. split; eauto.
    + eapply IH; eauto.
Qed.

Lemma set_site_analysis_resid (r r' : SiteResiduals) (gmpe imtx : string)
  (sa : dict sa_value) :
  set_site_analysis r gmpe imtx sa = Ok r' -> resid r' = resid r.
Proof.
  unfold set_site_analysis. intros H. apply bind_ok in H as (sg & _ & H).
  injection H as <-. reflexivity.
Qed.

Lemma set_site_analysis_same (r r' : SiteResiduals) (gmpe imtx : string)
  (sa : dict sa_value) :
  set_site_analysis r gmpe imtx sa = Ok r' ->
  getitem2 (site_analysis r') gmpe imtx = Ok sa.
Proof.
  unfold set_site_analysis. intros H. apply bind_ok in H as (sg & _ & H).
  injection H as <-. unfold getitem2, getitem; simpl.
  rewrite dict_get_set_same. cbn [bind]. rewrite dict_get_set_same. reflexivity.
Qed.

Lemma set_site_analysis_other (r r' : SiteResiduals) (gmpe imtx g i : string)
  (sa : dict sa_value) :
  set_site_analysis r gmpe imtx sa = Ok r' -> (gmpe, imtx) <> (g, i) ->
  getitem2 (site_analysis r') g i = getitem2 (site_analysis r) g i.
Proof.
  unfold set_site_analysis. intros H Hne. apply bind_ok in H as (sg & Hsg & H).
  injection H as <-. unfold getitem2, getitem; simpl.
  destruct (string_dec gmpe g) as [->|Hg].
  - rewrite dict_get_set_same. cbn [bind].
    apply getitem_ok in Hsg. rewrite Hsg. cbn [bind].
    rewrite dict_get_set_other by congruence. reflexivity.
  - rewrite dict_get_set_other by assumption. reflexivity.
Qed.

(** A step of the loop of [residual_statistics] changes nothing but the
    [site_analysis] cell of its own pair. *)
Lemma residual_statistics_imt_frame (t_resid r r' : SiteResiduals)
  (gmpe imtx : string) :
  residual_statistics_imt t_resid gmpe r imtx = Ok r' ->
  resid r' = resid r /\
  forall g i, (gmpe, imtx) <> (g, i) ->
    getitem2 (site_analysis r') g i = getitem2 (site_analysis r) g i.
Proof.
  unfold residual_statistics_imt. intros H.
  apply bind_ok in H as (c & _ & H).
  destruct (negb (truthy c)); [injection H as <-; auto|].
  apply bind_ok in H as (total & _ & H). apply bind_ok in H as (sa0 & _ & H).
  apply bind_ok in H as (tc & _ & H). apply bind_ok in H as (t_total & _ & H).
  apply bind_ok in H as (tm & _ & H). apply bind_ok in H as (tet & _ & H).
  apply bind_ok in H as (has_intra & _ & H).
  destruct (negb has_intra).
  - split; [eapply set_site_analysis_resid; eauto|].
    intros g i Hne. eapply set_site_analysis_other; eauto.
  - apply bind_ok in H as (t_intra & _ & H). apply bind_ok in H as (t_inter & _ & H).
    apply bind_ok in H as (intra & _ & H). apply bind_ok in H as (d & _ & H).
    apply bind_ok in H as (tei & _ & H). apply bind_ok in H as (tea & _ & H).
    split; [eapply set_site_analysis_resid; eauto|].
    intros g i Hne. eapply set_site_analysis_other; eauto.
Qed.

(** What the step at a pair with a within-event decomposition stores. *)
Lemma residual_statistics_imt_terms (t_resid r r' : SiteResiduals)
  (gmpe imtx : string) (tc : entry) (total intra : array) :
  residual_statistics_imt t_resid gmpe r imtx = Ok r' ->
  resid r = resid t_resid ->
  getitem2 (residuals (resid t_resid)) gmpe imtx = Ok (Some tc) ->
  dict_get tc "Total" = Some total ->
  dict_get tc "Intra event" = Some intra ->
  length intra = length total ->
  exists sa,
    getitem2 (site_analysis r') gmpe imtx = Ok sa /\
    dict_get sa "dS2ss" = Some (SNum (np_mean intra)) /\
    dict_get sa "dWo,es" = Some (SArr (map (fun x => x - np_mean intra) intra)) /\
    dict_get sa "phi_ss,s"
    = Some (SNum (sqrt (np_sum (map (fun x => (x - np_mean intra) ^ 2) intra)
                        / (INR (length intra) - 1)))).
Proof.
  unfold residual_statistics_imt. intros H Hres Hcell Htotal Hintra Hlen.
  rewrite Hres, Hcell in H. cbn [bind] in H.
  assert (Htruthy : truthy (Some tc) = true) by (destruct tc; [discriminate|reflexivity]).
  rewrite Htruthy in H. cbn [negb cell_getitem cell_in] in H.
  apply getitem_ok in Htotal. rewrite Htotal in H. cbn [bind] in H.
  apply bind_ok in H as (sa0 & _ & H).
  apply bind_ok in H as (tm & _ & H). apply bind_ok in H as (tet & _ & H).
  unfold dict_in in H. rewrite Hintra in H. cbn [bind negb] in H.
  apply getitem_ok in Hintra. rewrite Hintra in H. cbn [bind] in H.
  apply bind_ok in H as (t_inter & _ & H).
  apply bind_ok in H as (d & Hd & H).
  apply bind_ok in H as (tei & _ & H). apply bind_ok in H as (tea & _ & H).
  unfold _get_delta_s2ss in Hd. apply bind_ok in Hd as (inv & Hinv & Hd).
  injection Hd as <-. apply py_div_ok in Hinv as [Hnz ->].
  assert (Hmean : 1 / INR (length total) * np_sum intra = np_mean intra).
  { unfold np_mean. rewrite Hlen. field. assumption. }
  rewrite Hmean in H.
  eexists. split; [eapply set_site_analysis_same; eassumption|].
  repeat split.
  - rewrite !dict_get_set_other by discriminate.
    rewrite dict_get_set_same. reflexivity.
  - rewrite !dict_get_set_other by discriminate.
    rewrite dict_get_set_same. reflexivity.
  - rewrite !dict_get_set_other by discriminate.
    rewrite dict_get_set_same. unfold _get_single_station_phi.
    rewrite minus_IZR, <- INR_IZR_INZ, Hlen. reflexivity.
Qed.

(** C9: for each analysed site and each (model, IMT) pair with a within-event
    decomposition, [residual_statistics] stores the site bias [dS2ss] equal to
    the arithmetic mean of the site's intra-event residuals, the corrected
    residual [dWo,es = intra - dS2ss] record by record, and
    [phi_ss,s = sqrt(sum((intra - dS2ss)^2) / (n_site - 1))]. *)
Theorem single_station_site_terms (self self' : SingleStation.t)
  (out : result (dict (dict (option R)) * dict (dict (option (R * R)))))
  (k : nat) (t_resid : SiteResiduals) (gmpe imtx : string) (tc : entry)
  (total intra : array) :
  residual_statistics self = Ok (self', out) ->
  nth_error (SingleStation.site_residuals self) k = Some t_resid ->
  In gmpe (dict_keys (SingleStation.gmpe_list self)) ->
  In imtx (SingleStation.imts self) ->
  getitem2 (residuals (resid t_resid)) gmpe imtx = Ok (Some tc) ->
  dict_get tc "Total" = Some total ->
  dict_get tc "Intra event" = Some intra ->
  length intra = length total ->
  exists r sa,
    nth_error (SingleStation.site_residuals self') k = Some r /\
    getitem2 (site_analysis r) gmpe imtx = Ok sa /\
    dict_get sa "dS2ss" = Some (SNum (np_mean intra)) /\
    dict_get sa "dWo,es" = Some (SArr (map (fun x => x - np_mean intra) intra)) /\
    dict_get sa "phi_ss,s"
    = Some (SNum (sqrt (np_sum (map (fun x => (x - np_mean intra) ^ 2) intra)
                        / (INR (length intra) - 1)))).
Proof.
  intros H Hk Hg Hi Hcell Htotal Hintra Hlen.
  unfold residual_statistics in H.
  apply bind_ok in H as (output_resid & Hmap & H). injection H as <- _.
  destruct (mapM_nth_error _ _ _ Hmap k t_resid Hk) as (r & Hr & Hsite).
  exists r. cbn [set_site_residuals SingleStation.site_residuals].
  set (Inv := fun s : SiteResiduals => resid s = resid t_resid).
  set (Post := fun s : SiteResiduals =>
     exists sa,
       getitem2 (site_analysis s) gmpe imtx = Ok sa /\
       dict_get sa "dS2ss" = Some (SNum (np_mean intra)) /\
       dict_get sa "dWo,es" = Some (SArr (map (fun x => x - np_mean intra) intra)) /\
       dict_get sa "phi_ss,s"
       = Some (SNum (sqrt (np_sum (map (fun x => (x - np_mean intra) ^ 2) intra)
                           / (INR (length intra) - 1))))).
  assert (Hstep_inv : forall g s y s',
            residual_statistics_imt t_resid g s y = Ok s' -> Inv s -> Inv s').
  { intros g s y s' Hb Hs. unfold Inv in *.
    destruct (residual_statistics_imt_frame _ _ _ _ _ Hb) as [-> _]. assumption. }
  assert (Hstep_keep : forall g s y s',
            residual_statistics_imt t_resid g s y = Ok s' -> Inv s -> Post s -> Post s').
  { intros g s y s' Hb Hs Hp.
    destruct (string_dec g gmpe) as [->|Hg'];
      [destruct (string_dec y imtx) as [->|Hy]|].
    - eapply residual_statistics_imt_terms; eauto.
    - destruct (residual_statistics_imt_frame _ _ _ _ _ Hb) as [_ Hfr].
      unfold Post. rewrite Hfr by congruence. exact Hp.
    - destruct (residual_statistics_imt_frame _ _ _ _ _ Hb) as [_ Hfr].
      unfold Post. rewrite Hfr by congruence. exact Hp. }
  assert (HP : Post r).
  { unfold residual_statistics_site in Hsite.
    apply (for_each_establishes
             (fun r0 g => for_each (SingleStation.imts self)
                            (residual_statistics_imt t_resid g) r0)
             Inv Post gmpe (dict_keys (SingleStation.gmpe_list self)))
      with (s0 := t_resid); try assumption; try reflexivity.
    - intros s g s' Hb Hs.
      eapply (for_each_preserves _ Inv); eauto.
    - intros s s' Hb Hs.
      eapply (for_each_establishes (residual_statistics_imt t_resid gmpe) Inv Post imtx);
        eauto.
      intros s1 s2 Hb1 Hs1. eapply residual_statistics_imt_terms; eauto.
    - intros s g s' Hb Hs Hp.
      apply (for_each_preserves (residual_statistics_imt t_resid g)
               (fun s => Inv s /\ Post s) (SingleStation.imts self)) with (s0 := s);
        [|assumption|auto].
      intros s1 y s2 Hb1 [Hs1 Hp1]. split; eauto. }
  destruct HP as (sa & Hsa & H1 & H2 & H3).
  exists sa. auto.
Qed.

(** ** The example analysis *)

Lemma Rltb_true (x y : R) : x < y -> Rltb x y = true.
Proof. intros H. unfold Rltb. destruct (Rlt_dec x y); [reflexivity|contradiction]. Qed.

Lemma Rltb_false (x y : R) : ~ x < y -> Rltb x y = false.
Proof. intros H. unfold Rltb. destruct (Rlt_dec x y); [contradiction|reflexivity]. Qed.

Lemma residuals_mixed_init_ok :
  __init__ (fun _ => 2) [("G", gmpe_decomposed)] ["PGA"; "SA(2.0)"]
  = Ok residuals_mixed_init.
Proof.
  unfold __init__, init_gmpe. cbn -[Rltb Rmin Rmax].
  rewrite Rmin_left, Rmax_right by lra.
  unfold init_imt, outside_period_range. cbn -[Rltb].
  rewrite (Rltb_false 2 0.1), (Rltb_true 1 2) by lra.
  reflexivity.
Qed.

Lemma event_mixed_expected :
  get_expected_motions (fun _ => 2) residuals_mixed_init event_mixed_raw
  = Ok (set_Expected event_mixed_raw {| rake := Some 0; mag := 6 |} (Expected event_mixed)).
Proof.
  unfold get_expected_motions, expected_cell. cbn -[Rltb].
  rewrite (Rltb_false 2 0.1), (Rltb_true 1 2) by lra.
  reflexivity.
Qed.

Lemma event_mixed_residual :
  calculate_residuals residuals_mixed_init
    (set_Expected event_mixed_raw {| rake := Some 0; mag := 6 |} (Expected event_mixed)) true
  = Ok event_mixed.
Proof.
  unfold calculate_residuals, residual_cell, _get_random_effects_residuals.
  cbn -[ln np_sum INR].
  rewrite ln_1. unfold np_sum, event_mixed, set_Residual, set_Expected, event_mixed_raw.
  cbn [fold_left INR Ctx Num_Sites Observations Expected Residual].
  repeat f_equal; lra.
Qed.

Lemma residuals_mixed_ok :
  get_residuals (fun _ => 2) (fun a => a) residuals_mixed_init [event_mixed_raw] true
  = Ok residuals_mixed.
Proof.
  unfold get_residuals. cbn [for_each]. unfold get_residuals_context.
  cbn -[get_expected_motions calculate_residuals aggregate_gmpe Rltb].
  change (set_contexts residuals_mixed_init []) with residuals_mixed_init.
  change (set_Observations event_mixed_raw [("PGA", [1; 1]); ("SA(2.0)", [1; 1])])
    with event_mixed_raw.
  rewrite event_mixed_expected. cbn [bind].
  rewrite event_mixed_residual. cbn [bind].
  unfold aggregate_gmpe, aggregate_imt, aggregate_res_type.
  cbn -[Rltb Rabs].
  rewrite !Rltb_true by (rewrite Rminus_diag, Rabs_R0; lra).
  reflexivity.
Qed.

Lemma event_mixed_shaped : event_shaped "G" "PGA" event_mixed.
Proof.
  exists [("Mean", [0; 0]); ("Total", [1; 1]); ("Inter event", [1; 1]);
          ("Intra event", [1; 1])], [1; 1], [0; 0].
  repeat split; try reflexivity.
  right. exists [1; 1], [1; 1]. repeat split; try reflexivity. right. reflexivity.
Qed.

Lemma event_mixed_regular : det (spec_V "G" "PGA" [event_mixed]) <> 0.
Proof.
  unfold det, spec_V, spec_Z, spec_Z_rows, spec_event_tau, spec_event_phi,
    np_diag, dot_T, mat_add, dotv, np_sq, np_sum, bget.
  cbn. lra.
Qed.

(** Witness for C4: one event with two records and a shared inter-event
    term. *)
Lemma multivariate_ll_formula_witness :
  exists x v,
    solve (spec_V "G" "PGA" [event_mixed]) (spec_r "G" "PGA" [event_mixed]) = Ok x /\
    get_multivariate_ll [event_mixed] "G" "PGA" = Ok v /\
    v = (INR 2 * ln (2 * PI) + ln (Rabs (det (spec_V "G" "PGA" [event_mixed])))
         + dotv (spec_r "G" "PGA" [event_mixed]) x) / 2.
Proof.
  destruct (multivariate_ll_formula [event_mixed] "G" "PGA"
              (Forall_cons _ event_mixed_shaped (Forall_nil _)) event_mixed_regular)
    as (x & Hx & _ & Hv).
  exists x. eexists. split; [exact Hx|]. split; [exact Hv|reflexivity].
Defined.

Lemma multi_llh_value_mixed_pga :
  exists v, multi_llh_value residuals_mixed "G" "PGA" = Ok v.
Proof.
  destruct (get_multivariate_ll_returns [event_mixed] "G" "PGA"
              (Forall_cons _ event_mixed_shaped (Forall_nil _)) event_mixed_regular)
    as (v & Hv).
  exists v. unfold multi_llh_value. cbn [residuals residuals_mixed bind contexts].
  change (getitem2 _ "G" "PGA")
    with (Ok (A := cell) (Some [("Total", [0; 0]); ("Inter event", [0]);
                                ("Intra event", [0; 0])])).
  cbn [bind]. exact Hv.
Qed.

Lemma multivariate_values_mixed (sum_imts : bool) :
  exists multi, get_multivariate_loglikelihood_values residuals_mixed sum_imts = Ok multi.
Proof.
  destruct multi_llh_value_mixed_pga as [v Hv].
  unfold get_multivariate_loglikelihood_values.
  cbn [gmpe_list residuals_mixed dict_keys map fst imts for_each].
  rewrite Hv. cbn [bind].
  assert (Hsa : multi_llh_value residuals_mixed "G" "SA(2.0)" = Ok 0) by reflexivity.
  rewrite Hsa. cbn [bind].
  destruct sum_imts; cbn; eauto.
Qed.

(** Witness for C10: the example analysis, where ["SA(2.0)"] is outside the
    period range of the model. *)
Lemma multivariate_llh_inapplicable_is_zero_witness :
  exists multi mg,
    get_multivariate_loglikelihood_values residuals_mixed false = Ok multi /\
    dict_get multi "G" = Some (MllhPerIMT mg) /\ dict_get mg "SA(2.0)" = Some 0.
Proof.
  destruct (multivariate_values_mixed false) as [multi Hm].
  destruct (multivariate_llh_inapplicable_is_zero residuals_mixed "G" "SA(2.0)") as [H _].
  - simpl. auto.
  - simpl. auto.
  - reflexivity.
  - destruct (H multi Hm) as (mg & H1 & H2). exists multi, mg. auto.
Defined.

(** Counterexample to C5 as stated: after [get_residuals] on one event whose
    two records share their inter-event residual, the residual store holds
    one inter-event value and the modelled store two. *)
Lemma inter_event_store_lengths_differ :
  exists st e m a b,
    get_residuals (fun _ => 2) (fun a => a) residuals_mixed_init [event_mixed_raw] true
    = Ok st /\
    getitem2 (residuals st) "G" "PGA" = Ok (Some e) /\
    getitem2 (modelled st) "G" "PGA" = Ok (Some m) /\
    dict_get e "Inter event" = Some a /\
    dict_get m "Inter event" = Some b /\
    length a <> length b.
Proof.
  exists residuals_mixed. do 4 eexists.
  split; [exact residuals_mixed_ok|].
  repeat split; try reflexivity. simpl. lia.
Qed.

(** ** Pairs outside the period range of a model *)

Lemma py_div_zero (x : R) : py_div x 0 = Raise ZeroDivisionError.
Proof. unfold py_div. destruct (Req_dec_T 0 0); [reflexivity|congruence]. Qed.

(** The descriptive statistics skip the pair. *)
Lemma residual_statistics_mixed :
  exists stats,
    get_residual_statistics residuals_mixed = Ok stats /\
    getitem2 stats "G" "SA(2.0)" = Raise KeyError.
Proof.
  unfold get_residual_statistics, get_residual_statistics_for.
  cbn -[np_mean np_std]. eexists. split; reflexivity.
Qed.

(** The likelihood values skip the pair. *)
Lemma likelihood_values_mixed (erf : R -> R) (np_nanpercentile : list R -> R -> R) :
  exists lh stats,
    get_likelihood_values erf np_nanpercentile residuals_mixed = Ok (lh, stats) /\
    getitem2 lh "G" "SA(2.0)" = Raise KeyError.
Proof.
  unfold get_likelihood_values.
  destruct residual_statistics_mixed as (stats0 & Hs & _).
  unfold get_residual_statistics, get_residual_statistics_for in Hs.
  cbn -[np_mean np_std] in Hs. injection Hs as <-.
  unfold get_residual_statistics, get_residual_statistics_for,
    _get_likelihood_values_for, set_median_lh.
  cbn -[np_mean np_std sqrt Rabs]. eexists. eexists. split; reflexivity.
Qed.

(** The average sample log-likelihood skips the pair when another IMT of the
    model is applicable ... *)
Lemma loglikelihood_values_mixed :
  exists llh w,
    get_loglikelihood_values residuals_mixed ["PGA"; "SA(2.0)"] = Ok (llh, w) /\
    getitem2 llh "G" "SA(2.0)" = Ok None.
Proof.
  unfold get_loglikelihood_values, llh_gmpe, llh_imt, llh_asll, neg_mean_log.
  cbn -[py_div Rpower norm_pdf np_log2 np_sum INR].
  repeat (rewrite py_div_nonzero by (simpl; lra);
          cbn -[py_div Rpower norm_pdf np_log2 np_sum INR]).
  eexists. eexists. split; reflexivity.
Qed.

(** ... and divides by zero when no requested IMT is applicable. *)
Lemma loglikelihood_values_all_skipped :
  get_loglikelihood_values residuals_mixed ["SA(2.0)"] = Raise ZeroDivisionError.
Proof.
  unfold get_loglikelihood_values, llh_gmpe, llh_imt, llh_asll, neg_mean_log.
  cbn -[py_div Rpower norm_pdf np_log2 np_sum].
  rewrite py_div_zero. reflexivity.
Qed.

(** The information gathered for the EDR is not guarded: subscripting the
    [None] entry raises. *)
Lemma edr_information_mixed :
  _get_edr_gmpe_information residuals_mixed "G" = Raise TypeError.
Proof. reflexivity. Qed.

(** C6, at the failing input: for the model valid between 0.1 s and 1 s and
    the IMTs ["PGA"] and ["SA(2.0)"], the pair is marked [None] in the
    residual store and in the [Expected] structure of the context, the
    descriptive statistics, the likelihood, the log-likelihood and the
    multivariate log-likelihood skip it, and [get_edr_values] raises a
    [TypeError]. *)
Theorem edr_raises_on_inapplicable_pair (erf norm_cdf : R -> R)
  (np_nanpercentile : list R -> R -> R) (bandwidth multiplier : R) :
  __init__ (fun _ => 2) [("G", gmpe_decomposed)] ["PGA"; "SA(2.0)"]
  = Ok residuals_mixed_init /\
  get_residuals (fun _ => 2) (fun a => a) residuals_mixed_init [event_mixed_raw] true
  = Ok residuals_mixed /\
  getitem2 (residuals residuals_mixed) "G" "SA(2.0)" = Ok None /\
  getitem2 (Expected event_mixed) "G" "SA(2.0)" = Ok None /\
  (exists stats,
     get_residual_statistics residuals_mixed = Ok stats /\
     getitem2 stats "G" "SA(2.0)" = Raise KeyError) /\
  (exists lh stats,
     get_likelihood_values erf np_nanpercentile residuals_mixed = Ok (lh, stats) /\
     getitem2 lh "G" "SA(2.0)" = Raise KeyError) /\
  (exists llh w,
     get_loglikelihood_values residuals_mixed ["PGA"; "SA(2.0)"] = Ok (llh, w) /\
     getitem2 llh "G" "SA(2.0)" = Ok None) /\
  (exists multi, get_multivariate_loglikelihood_values residuals_mixed false = Ok multi) /\
  get_edr_values norm_cdf residuals_mixed bandwidth multiplier = Raise TypeError.
Proof.
  split; [exact residuals_mixed_init_ok|].
  split; [exact residuals_mixed_ok|].
  split; [reflexivity|]. split; [reflexivity|].
  split; [exact residual_statistics_mixed|].
  split; [exact (likelihood_values_mixed erf np_nanpercentile)|].
  split; [exact loglikelihood_values_mixed|].
  split; [exact (multivariate_values_mixed false)|].
  unfold get_edr_values.
  cbn [gmpe_list residuals_mixed dict_keys map fst for_each].
  rewrite edr_information_mixed. reflexivity.
Qed.

Lemma station_example_returns :
  exists self' out, residual_statistics station_example = Ok (self', out).
Proof.
  unfold residual_statistics, residual_statistics_site, residual_statistics_imt,
    _get_delta_s2ss, set_site_analysis.
  cbn -[py_div np_sum INR _get_single_station_phi get_total_phi_ss].
  rewrite py_div_nonzero by (simpl; lra).
  cbn -[py_div np_sum INR _get_single_station_phi get_total_phi_ss].
  eexists. eexists. reflexivity.
Qed.

(** Witness for C9: one site with the intra-event residuals [1; 2; 3; 6]. *)
Lemma single_station_site_terms_witness :
  exists self' out r sa,
    residual_statistics station_example = Ok (self', out) /\
    nth_error (SingleStation.site_residuals self') 0 = Some r /\
    getitem2 (site_analysis r) "G" "PGA" = Ok sa /\
    dict_get sa "dS2ss" = Some (SNum (np_mean [1; 2; 3; 6])).
Proof.
  destruct station_example_returns as (self' & out & H).
  destruct (single_station_site_terms station_example self' out 0 site_residuals_example
              "G" "PGA"
              [("Total", [1; 2; 3; 4]); ("Inter event", [0; 0; 0; 1]);
               ("Intra event", [1; 2; 3; 6])]
              [1; 2; 3; 4] [1; 2; 3; 6] H)
    as (r & sa & H1 & H2 & H3 & _); try reflexivity; simpl; auto.
  exists self', out, r, sa. auto.
Defined.

(** ** The aggregated stores *)

Lemma dict_get_In_keys {V : Type} (d : dict V) (k : string) (v : V) :
  dict_get d k = Some v -> In k (dict_keys d).
Proof.
  induction d as [|[k' v'] d IH]; simpl; [discriminate|].
  destruct (String.eqb k k') eqn:E; intros H.
  - apply String.eqb_eq in E. auto.
  - auto.
Qed.

Lemma dict_get_In {V : Type} (d : dict V) (k : string) (v : V) :
  dict_get d k = Some v -> In (k, v) d.
Proof.
  induction d as [|[k' v'] d IH]; simpl; [discriminate|].
  destruct (String.eqb k k') eqn:E; intros H.
  - apply String.eqb_eq in E. injection H as <-. subst. auto.
  - auto.
Qed.

Lemma dict_set_keys_present {V : Type} (d : dict V) (k : string) (v v0 : V) :
  dict_get d k = Some v0 -> dict_keys (dict_set d k v) = dict_keys d.
Proof.
  induction d as [|[k' v'] d IH]; simpl; [discriminate|].
  destruct (String.eqb k k') eqn:E; intros H; simpl; [reflexivity|].
  f_equal. apply IH, H.
Qed.

Lemma Forall_dict_set {V : Type} (P : string * V -> Prop) (d : dict V) (k : string) (v : V) :
  Forall P d -> P (k, v) -> Forall P (dict_set d k v).
Proof.
  intros Hd Hk. induction d as [|[k' v'] d IH]; simpl.
  - constructor; auto.
  - inversion Hd; subst. destruct (String.eqb k k') eqn:E.
    + apply String.eqb_eq in E. subst. constructor; auto.
    + constructor; auto.
Qed.

Lemma Forall_dict_get {V : Type} (P : string * V -> Prop) (d : dict V) (k : string) (v : V) :
  Forall P d -> dict_get d k = Some v -> P (k, v).
Proof.
  intros Hd Hk. apply dict_get_In in Hk.
  rewrite Forall_forall in Hd. apply Hd, Hk.
Qed.

(** A successful [store_extend] found the array and put the longer one in
    its place. *)
Lemma store_extend_inv (s s' : store) (g i t : string) (xs : array) :
  store_extend s g i t xs = Ok s' ->
  exists sg e old,
    dict_get s g = Some sg /\ dict_get sg i = Some (Some e) /\ dict_get e t = Some old /\
    s' = dict_set s g (dict_set sg i (Some (dict_set e t (old ++ xs)))).
Proof.
  unfold store_extend. intros H.
  apply bind_ok in H as (sg & Hsg & H). apply bind_ok in H as (c & Hc & H).
  destruct c as [e|]; [|discriminate].
  apply bind_ok in H as (old & Hold & H). injection H as <-.
  apply getitem_ok in Hsg, Hc, Hold. exists sg, e, old. auto.
Qed.

Lemma store_extend_same (s s' : store) (g i t : string) (xs : array) :
  store_extend s g i t xs = Ok s' ->
  exists old, store_get s g i t = Some old /\ store_get s' g i t = Some (old ++ xs).
Proof.
  intros H. destruct (store_extend_inv _ _ _ _ _ _ H) as (sg & e & old & Hsg & He & Ho & ->).
  exists old. unfold store_get. rewrite Hsg, He, Ho.
  rewrite dict_get_set_same. cbv beta iota.
  rewrite dict_get_set_same. cbv beta iota.
  rewrite dict_get_set_same. auto.
Qed.

Lemma store_extend_other (s s' : store) (g i t g' i' t' : string) (xs : array) :
  store_extend s g i t xs = Ok s' -> (g, i, t) <> (g', i', t') ->
  store_get s' g' i' t' = store_get s g' i' t'.
Proof.
  intros H Hne.
  destruct (store_extend_inv _ _ _ _ _ _ H) as (sg & e & old & Hsg & He & Ho & ->).
  unfold store_get.
  destruct (string_dec g g') as [<-|Hg].
  - rewrite dict_get_set_same, Hsg. cbv beta iota.
    destruct (string_dec i i') as [<-|Hi].
    + rewrite dict_get_set_same, He. cbv beta iota.
      apply dict_get_set_other. congruence.
    + rewrite dict_get_set_other by assumption. reflexivity.
  - rewrite dict_get_set_other by assumption. reflexivity.
Qed.

Lemma store_extend_wf (s s' : store) (g i t : string) (xs : array) :
  store_extend s g i t xs = Ok s' -> wf_store s -> wf_store s'.
Proof.
  intros H [Hk Hall].
  destruct (store_extend_inv _ _ _ _ _ _ H) as (sg & e & old & Hsg & He & Ho & ->).
  destruct (Forall_dict_get _ _ _ _ Hall Hsg) as [Hksg Hcells]. simpl in Hksg, Hcells.
  pose proof (Forall_dict_get _ _ _ _ Hcells He) as Hke. unfold wf_cell in Hke. simpl in Hke.
  split.
  - rewrite (dict_set_keys_present _ _ _ _ Hsg). assumption.
  - apply Forall_dict_set; [assumption|]. simpl. split.
    + rewrite (dict_set_keys_present _ _ _ _ He). assumption.
    + apply Forall_dict_set; [assumption|]. unfold wf_cell. simpl.
      rewrite (dict_set_keys_present _ _ _ _ Ho). assumption.
Qed.

Lemma indices_append_same (u u' : dict (dict (list (list nat)))) (g i : string)
  (idx : list nat) :
  indices_append u g i idx = Ok u' ->
  exists l, indices_get u g i = Some l /\ indices_get u' g i = Some (l ++ [idx]).
Proof.
  unfold indices_append. intros H.
  apply bind_ok in H as (ug & Hug & H). apply bind_ok in H as (l & Hl & H).
  injection H as <-. apply getitem_ok in Hug, Hl.
  exists l. unfold indices_get. rewrite Hug, Hl, dict_get_set_same. cbv beta iota.
  rewrite dict_get_set_same. auto.
Qed.

Lemma indices_append_other (u u' : dict (dict (list (list nat)))) (g i g' i' : string)
  (idx : list nat) :
  indices_append u g i idx = Ok u' -> (g, i) <> (g', i') ->
  indices_get u' g' i' = indices_get u g' i'.
Proof.
  unfold indices_append. intros H Hne.
  apply bind_ok in H as (ug & Hug & H). apply bind_ok in H as (l & Hl & H).
  injection H as <-. apply getitem_ok in Hug, Hl. unfold indices_get.
  destruct (string_dec g g') as [<-|Hg].
  - rewrite dict_get_set_same, Hug. cbv beta iota. apply dict_get_set_other. congruence.
  - rewrite dict_get_set_other by assumption. reflexivity.
Qed.

(** A loop over distinct keys applies the effect of the step at [x0] once
    when [x0] is among the keys, and not at all otherwise. *)
Lemma for_each_once {S O : Type} (body : S -> string -> result S) (obs : S -> O)
  (Inv : S -> Prop) (eff : O -> O) (x0 : string) :
  (forall s y s', body s y = Ok s' -> Inv s -> Inv s') ->
  (forall s y s', body s y = Ok s' -> Inv s -> y <> x0 -> obs s' = obs s) ->
  (forall s s', body s x0 = Ok s' -> Inv s -> obs s' = eff (obs s)) ->
  forall xs, NoDup xs ->
  forall s0 s, for_each xs body s0 = Ok s -> Inv s0 ->
    Inv s /\ obs s = (if in_dec string_dec x0 xs then eff (obs s0) else obs s0).
Proof.
  intros Hinv Hframe Heff. induction xs as [|x xs IH]; intros Hnd s0 s H H0.
  - simpl in H. injection H as <-. simpl. auto.
  - simpl in H. apply bind_ok in H as (s1 & H1 & H).
    inversion Hnd as [|? ? Hnotin Hnd']; subst.
    destruct (IH Hnd' _ _ H (Hinv _ _ _ H1 H0)) as [Hs Hobs].
    split; [assumption|]. rewrite Hobs.
    destruct (string_dec x x0) as [->|Hne].
    + destruct (in_dec string_dec x0 xs) as [Hin|_]; [contradiction|].
      destruct (in_dec string_dec x0 (x0 :: xs)) as [_|Hout];
        [|exfalso; apply Hout; left; reflexivity].
      apply Heff; assumption.
    + rewrite (Hframe _ _ _ H1 H0 Hne).
      destruct (in_dec string_dec x0 xs) as [Hin|Hout];
        destruct (in_dec string_dec x0 (x :: xs)) as [Hin'|Hout']; try reflexivity.
      * exfalso. apply Hout'. right. assumption.
      * exfalso. destruct Hin' as [E|Hin']; [congruence|contradiction].
Qed.

(** A loop whose steps all leave the observation alone leaves it alone. *)
Lemma for_each_frame {A S O : Type} (body : S -> A -> result S) (obs : S -> O)
  (Inv : S -> Prop) :
  (forall s y s', body s y = Ok s' -> Inv s -> Inv s' /\ obs s' = obs s) ->
  forall xs s0 s, for_each xs body s0 = Ok s -> Inv s0 -> Inv s /\ obs s = obs s0.
Proof.
  intros Hstep. induction xs as [|x xs IH]; simpl; intros s0 s H H0.
  - injection H as <-. auto.
  - apply bind_ok in H as (s1 & H1 & H).
    destruct (Hstep _ _ _ H1 H0) as [Hs1 Ho1].
    destruct (IH _ _ H Hs1) as [Hs Ho]. split; [assumption|congruence].
Qed.

Lemma getitem2_ok {V : Type} (d : dict (dict V)) (k1 k2 : string) (v : V) :
  getitem2 d k1 k2 = Ok v <->
  exists d1, dict_get d k1 = Some d1 /\ dict_get d1 k2 = Some v.
Proof.
  unfold getitem2, getitem. split.
  - intros H. destruct (dict_get d k1) as [d1|]; [|discriminate]. cbn [bind] in H.
    destruct (dict_get d1 k2) as [v'|] eqn:E; [|discriminate].
    injection H as <-. eauto.
  - intros (d1 & -> & H2). cbn [bind]. rewrite H2. reflexivity.
Qed.

Section KeyPath.

(** The key path whose arrays are followed through the aggregation. *)
Variables G I T : string.

Let obs := store_observation G I T.
Let eff := context_effect G I T.

(** One step of the loop over the residual types. *)
Lemma aggregate_res_type_effect (c : Context) (g i t : string) (self self' : Residuals)
  (rc : cell) :
  aggregate_res_type c g i self t = Ok self' ->
  getitem2 (Residual c) g i = Ok rc -> truthy rc = true ->
  wf_store (residuals self) ->
  wf_store (residuals self') /\
  ((g, i, t) = (G, I, T) -> obs self' = eff c (obs self)) /\
  ((g, i, t) <> (G, I, T) -> obs self' = obs self).
Proof.
  unfold aggregate_res_type. intros H Hrc Htr Hwf.
  apply bind_ok in H as (self1 & H1 & H).
  apply bind_ok in H as (ec & Hec & H). apply bind_ok in H as (ev & Hev & H).
  apply bind_ok in H as (m & Hm & H). injection H as <-.
  rewrite Hrc in H1. cbn [bind] in H1.
  unfold obs, eff, store_observation, context_effect,
    residual_contribution, modelled_contribution, index_contribution.
  destruct (String.eqb t "Inter event") eqn:Et.
  - apply String.eqb_eq in Et. subst t.
    apply bind_ok in H1 as (inter_ev & Hie & H1).
    destruct inter_ev as [|x0 rest]; [discriminate|].
    assert (Hcase : exists xs idx r u,
               store_extend (residuals self) g i "Inter event" xs = Ok r /\
               indices_append (unique_indices self) g i idx = Ok u /\
               self1 = set_unique_indices (set_residuals self r) u /\
               xs = (if inter_event_constant (x0 :: rest) x0 then [x0] else x0 :: rest) /\
               idx = (if inter_event_constant (x0 :: rest) x0 then [0%nat]
                      else seq 0 (length (x0 :: rest)))).
    { destruct (inter_event_constant (x0 :: rest) x0);
        apply bind_ok in H1 as (r & Hr & H1); apply bind_ok in H1 as (u & Hu & H1);
        injection H1 as <-; do 4 eexists; repeat split; eauto. }
    destruct Hcase as (xs & idx & r & u & Hr & Hu & -> & Hxs & Hidx).
    cbn [modelled set_unique_indices set_residuals] in Hm.
    cbn [residuals modelled unique_indices set_modelled set_unique_indices set_residuals].
    split; [eapply store_extend_wf; eauto|]. split.
    + intros E. injection E as -> -> <-.
      rewrite Hrc, Htr, Hie, Hec, Hev. cbn [String.eqb Ascii.eqb Bool.eqb].
      destruct (store_extend_same _ _ _ _ _ _ Hr) as (old & -> & ->).
      destruct (store_extend_same _ _ _ _ _ _ Hm) as (oldm & -> & ->).
      destruct (indices_append_same _ _ _ _ _ Hu) as (l & -> & ->).
      cbn [option_map]. rewrite Hxs, Hidx.
      destruct (inter_event_constant (x0 :: rest) x0); reflexivity.
    + intros Hne.
      rewrite (store_extend_other _ _ _ _ _ _ _ _ _ Hr Hne).
      rewrite (store_extend_other _ _ _ _ _ _ _ _ _ Hm Hne).
      destruct (String.eqb T "Inter event") eqn:ET; [|reflexivity].
      apply String.eqb_eq in ET.
      rewrite (indices_append_other _ _ _ _ _ _ _ Hu); [reflexivity|].
      intros E. apply Hne. injection E as -> ->. congruence.
  - apply bind_ok in H1 as (v & Hv & H1). apply bind_ok in H1 as (r & Hr & H1).
    injection H1 as <-.
    cbn [modelled set_residuals] in Hm.
    cbn [residuals modelled unique_indices set_modelled set_residuals].
    split; [eapply store_extend_wf; eauto|]. split.
    + intros E. injection E as -> -> <-.
      rewrite Hrc, Htr, Hv, Hec, Hev, Et.
      destruct (store_extend_same _ _ _ _ _ _ Hr) as (old & -> & ->).
      destruct (store_extend_same _ _ _ _ _ _ Hm) as (oldm & -> & ->).
      reflexivity.
    + intros Hne.
      rewrite (store_extend_other _ _ _ _ _ _ _ _ _ Hr Hne).
      rewrite (store_extend_other _ _ _ _ _ _ _ _ _ Hm Hne).
      reflexivity.
Qed.

End KeyPath.

Section KeyPathLoops.

Variables G I T : string.
Hypothesis T_not_mean : T <> "Mean".

Let obs := store_observation G I T.
Let eff := context_effect G I T.
Let Inv (s : Residuals) : Prop :=
  wf_store (residuals s) /\ store_get (residuals s) G I T <> None.

Lemma context_effect_falsy (c : Context) (rc : cell)
  (o : option array * option array * option (list (list nat))) :
  getitem2 (Residual c) G I = Ok rc -> truthy rc = false -> eff c o = o.
Proof.
  intros Hrc Htr. destruct o as [[a b] u].
  unfold eff, context_effect, residual_contribution, modelled_contribution,
    index_contribution.
  rewrite Hrc, Htr.
  destruct a, b, u; cbn [option_map]; rewrite ?app_nil_r; reflexivity.
Qed.

Lemma effect_keeps_presence (c : Context) (s s' : Residuals) :
  obs s' = eff c (obs s) \/ obs s' = obs s ->
  store_get (residuals s) G I T <> None ->
  store_get (residuals s') G I T <> None.
Proof.
  unfold obs, eff, store_observation, context_effect.
  intros [H|H] Hs; injection H as H _ _; rewrite H; [|assumption].
  destruct (store_get (residuals s) G I T); [discriminate|congruence].
Qed.

(** One step of the loop over the IMTs. *)
Lemma aggregate_imt_effect (c : Context) (g i : string) (self self' : Residuals) :
  aggregate_imt c g self i = Ok self' ->
  wf_store (residuals self) ->
  wf_store (residuals self') /\
  ((g, i) = (G, I) -> store_get (residuals self) G I T <> None ->
   obs self' = eff c (obs self)) /\
  ((g, i) <> (G, I) -> obs self' = obs self).
Proof.
  unfold aggregate_imt. intros H Hwf.
  apply bind_ok in H as (rc & Hrc & H).
  destruct (truthy rc) eqn:Htr; cbn [negb] in H.
  - apply bind_ok in H as (sc & Hsc & H).
    destruct sc as [e|]; [|discriminate].
    apply bind_ok in H as (self1 & Hloop & H).
    apply bind_ok in H as (ec & Hec & H). apply bind_ok in H as (mean & Hmean & H).
    apply bind_ok in H as (m & Hm & H). injection H as <-.
    apply getitem2_ok in Hsc as (sg & Hsg & He).
    assert (Hnd : NoDup (dict_keys e)).
    { destruct Hwf as [_ Hall].
      destruct (Forall_dict_get _ _ _ _ Hall Hsg) as [_ Hcells].
      exact (Forall_dict_get _ _ _ _ Hcells He). }
    assert (Hmean_frame : obs (set_modelled self1 m) = obs self1).
    { unfold obs, store_observation.
      cbn [residuals modelled unique_indices set_modelled].
      rewrite (store_extend_other _ _ _ _ _ _ _ _ _ Hm); [reflexivity|].
      intros E. injection E as _ _ E. congruence. }
    cbn [residuals set_modelled]. rewrite Hmean_frame.
    destruct (string_dec g G) as [->|Hg]; [destruct (string_dec i I) as [->|Hi]|].
    + destruct (for_each_once (aggregate_res_type c G I) obs
                  (fun s => wf_store (residuals s)) (eff c) T) with
        (xs := dict_keys e) (s0 := self) (s := self1) as [Hwf1 Hobs1]; try assumption.
      * intros s y s' Hb Hs.
        apply (aggregate_res_type_effect G I T c G I y s s' rc Hb Hrc Htr Hs).
      * intros s y s' Hb Hs Hne.
        apply (aggregate_res_type_effect G I T c G I y s s' rc Hb Hrc Htr Hs). congruence.
      * intros s s' Hb Hs.
        apply (aggregate_res_type_effect G I T c G I T s s' rc Hb Hrc Htr Hs). reflexivity.
      * split; [assumption|]. split; [|congruence].
        intros _ Hsome. rewrite Hobs1.
        destruct (in_dec string_dec T (dict_keys e)) as [_|Hout]; [reflexivity|].
        exfalso. apply Hsome. unfold store_get. rewrite Hsg, He.
        apply dict_get_not_in, Hout.
    + destruct (for_each_frame (aggregate_res_type c G i) obs
                  (fun s => wf_store (residuals s))) with
        (xs := dict_keys e) (s0 := self) (s := self1) as [Hwf1 Hobs1]; try assumption.
      * intros s y s' Hb Hs.
        destruct (aggregate_res_type_effect G I T c G i y s s' rc Hb Hrc Htr Hs)
          as (Hw & _ & Hfr).
        split; [assumption|]. apply Hfr. congruence.
      * split; [assumption|]. split; [congruence|]. intros _. assumption.
    + destruct (for_each_frame (aggregate_res_type c g i) obs
                  (fun s => wf_store (residuals s))) with
        (xs := dict_keys e) (s0 := self) (s := self1) as [Hwf1 Hobs1]; try assumption.
      * intros s y s' Hb Hs.
        destruct (aggregate_res_type_effect G I T c g i y s s' rc Hb Hrc Htr Hs)
          as (Hw & _ & Hfr).
        split; [assumption|]. apply Hfr. congruence.
      * split; [assumption|]. split; [congruence|]. intros _. assumption.
  - injection H as <-. split; [assumption|]. split; [|reflexivity].
    intros E _. injection E as -> ->.
    symmetry. eapply context_effect_falsy; eauto.
Qed.

(** One step of the loop over the models. *)
Lemma aggregate_gmpe_effect (c : Context) (g : string) (self self' : Residuals) :
  aggregate_gmpe c self g = Ok self' -> Inv self ->
  Inv self' /\
  (g = G -> obs self' = eff c (obs self)) /\
  (g <> G -> obs self' = obs self).
Proof.
  unfold aggregate_gmpe. intros H [Hwf Hsome].
  apply bind_ok in H as (sg & Hsg & H). apply getitem_ok in Hsg.
  assert (Hnd : NoDup (dict_keys sg)).
  { destruct Hwf as [_ Hall]. apply (Forall_dict_get _ _ _ _ Hall Hsg). }
  assert (Hstep_inv : forall s y s', aggregate_imt c g s y = Ok s' -> Inv s -> Inv s').
  { intros s y s' Hb [Hw Hs].
    destruct (aggregate_imt_effect c g y s s' Hb Hw) as (Hw' & He & Hf).
    split; [assumption|].
    apply (effect_keeps_presence c s s'); [|assumption].
    destruct (string_dec g G) as [->|Hg]; [destruct (string_dec y I) as [->|Hy]|].
    - left. apply He; auto.
    - right. apply Hf. congruence.
    - right. apply Hf. congruence. }
  destruct (string_dec g G) as [->|Hg].
  - destruct (for_each_once (aggregate_imt c G) obs Inv (eff c) I) with
      (xs := dict_keys sg) (s0 := self) (s := self') as [Hinv' Hobs'];
      try assumption; try (split; assumption).
    + intros s y s' Hb [Hw Hs] Hne.
      apply (aggregate_imt_effect c G y s s' Hb Hw). congruence.
    + intros s s' Hb [Hw Hs].
      apply (aggregate_imt_effect c G I s s' Hb Hw); auto.
    + split; [assumption|]. split; [|congruence]. intros _. rewrite Hobs'.
      destruct (in_dec string_dec I (dict_keys sg)) as [_|Hout]; [reflexivity|].
      exfalso. apply Hsome. unfold store_get.
      rewrite Hsg, (dict_get_not_in _ _ Hout). reflexivity.
  - destruct (for_each_frame (aggregate_imt c g) obs Inv) with
      (xs := dict_keys sg) (s0 := self) (s := self') as [Hinv' Hobs'];
      try assumption; try (split; assumption).
    + intros s y s' Hb Hs. split; [eapply Hstep_inv; eauto|].
      destruct Hs as [Hw Hs].
      apply (aggregate_imt_effect c g y s s' Hb Hw). congruence.
    + split; [assumption|]. split; [congruence|]. intros _. assumption.
Qed.

End KeyPathLoops.

Lemma aggregate_res_type_contexts (c : Context) (g i t : string) (self self' : Residuals) :
  aggregate_res_type c g i self t = Ok self' -> contexts self' = contexts self.
Proof.
  unfold aggregate_res_type. intros H.
  apply bind_ok in H as (self1 & H1 & H).
  apply bind_ok in H as (ec & _ & H). apply bind_ok in H as (ev & _ & H).
  apply bind_ok in H as (m & _ & H). injection H as <-. cbn [contexts set_modelled].
  destruct (String.eqb t "Inter event").
  - apply bind_ok in H1 as (rc & _ & H1). apply bind_ok in H1 as (inter_ev & _ & H1).
    destruct inter_ev as [|x0 rest]; [discriminate|].
    destruct (inter_event_constant (x0 :: rest) x0);
      apply bind_ok in H1 as (r & _ & H1); apply bind_ok in H1 as (u & _ & H1);
      injection H1 as <-; reflexivity.
  - apply bind_ok in H1 as (rc & _ & H1). apply bind_ok in H1 as (v & _ & H1).
    apply bind_ok in H1 as (r & _ & H1). injection H1 as <-. reflexivity.
Qed.

Lemma aggregate_imt_contexts (c : Context) (g i : string) (self self' : Residuals) :
  aggregate_imt c g self i = Ok self' -> contexts self' = contexts self.
Proof.
  unfold aggregate_imt. intros H.
  apply bind_ok in H as (rc & _ & H).
  destruct (negb (truthy rc)); [injection H as <-; reflexivity|].
  apply bind_ok in H as (sc & _ & H). destruct sc as [e|]; [|discriminate].
  apply bind_ok in H as (self1 & Hloop & H).
  apply bind_ok in H as (ec & _ & H). apply bind_ok in H as (mean & _ & H).
  apply bind_ok in H as (m & _ & H). injection H as <-. cbn [contexts set_modelled].
  apply (for_each_preserves (aggregate_res_type c g i)
           (fun s => contexts s = contexts self) (dict_keys e)) with (s0 := self);
    [|assumption|reflexivity].
  intros s y s' Hb Hs. rewrite (aggregate_res_type_contexts _ _ _ _ _ _ Hb). assumption.
Qed.

Lemma aggregate_gmpe_contexts (c : Context) (g : string) (self self' : Residuals) :
  aggregate_gmpe c self g = Ok self' -> contexts self' = contexts self.
Proof.
  unfold aggregate_gmpe. intros H. apply bind_ok in H as (sg & _ & H).
  apply (for_each_preserves (aggregate_imt c g)
           (fun s => contexts s = contexts self) (dict_keys sg)) with (s0 := self);
    [|assumption|reflexivity].
  intros s y s' Hb Hs. rewrite (aggregate_imt_contexts _ _ _ _ _ Hb). assumption.
Qed.

Section KeyPathRun.

Variable imt_period : string -> R.
Variable convert_accel_units : list R -> list R.
Variables G I T : string.
Hypothesis T_not_mean : T <> "Mean".

Let obs := store_observation G I T.
Let eff := context_effect G I T.

(** The aggregation of one context. *)
Lemma get_residuals_context_effect (normalise : bool) (self self' : Residuals)
  (c : Context) :
  get_residuals_context imt_period convert_accel_units normalise self c = Ok self' ->
  wf_store (residuals self) -> store_get (residuals self) G I T <> None ->
  exists c2,
    contexts self' = contexts self ++ [c2] /\
    wf_store (residuals self') /\ store_get (residuals self') G I T <> None /\
    obs self' = eff c2 (obs self).
Proof.
  unfold get_residuals_context. intros H Hwf Hsome.
  apply bind_ok in H as (observations & _ & H).
  apply bind_ok in H as (context1 & _ & H).
  apply bind_ok in H as (c2 & _ & H).
  apply bind_ok in H as (self1 & Hloop & H). injection H as <-.
  exists c2. cbn [contexts residuals set_contexts].
  assert (Hctx : contexts self1 = contexts self).
  { apply (for_each_preserves (aggregate_gmpe c2)
             (fun s => contexts s = contexts self) (dict_keys (residuals self)))
      with (s0 := self); [|assumption|reflexivity].
    intros s y s' Hb Hs. rewrite (aggregate_gmpe_contexts _ _ _ _ Hb). assumption. }
  rewrite Hctx. split; [reflexivity|].
  destruct (for_each_once (aggregate_gmpe c2) obs
              (fun s => wf_store (residuals s) /\ store_get (residuals s) G I T <> None)
              (eff c2) G) with
    (xs := dict_keys (residuals self)) (s0 := self) (s := self1) as [[Hw1 Hs1] Hobs1];
    try assumption; try (split; assumption).
  - intros s y s' Hb Hs. apply (aggregate_gmpe_effect G I T T_not_mean c2 y s s' Hb Hs).
  - intros s y s' Hb Hs Hne.
    apply (aggregate_gmpe_effect G I T T_not_mean c2 y s s' Hb Hs). assumption.
  - intros s s' Hb Hs.
    apply (aggregate_gmpe_effect G I T T_not_mean c2 G s s' Hb Hs). reflexivity.
  - apply Hwf.
  - split; [assumption|]. split; [assumption|].
    change (obs (set_contexts self1 (contexts self ++ [c2]))) with (obs self1).
    rewrite Hobs1.
    destruct (in_dec string_dec G (dict_keys (residuals self))) as [_|Hout]; [reflexivity|].
    exfalso. apply Hsome. unfold store_get.
    rewrite (dict_get_not_in _ _ Hout). reflexivity.
Qed.

(** The whole run: the contexts kept in the state have been aggregated one
    after the other. *)
Lemma get_residuals_effect (normalise : bool) (self0 self1 : Residuals)
  (database_contexts : list Context) :
  get_residuals imt_period convert_accel_units self0 database_contexts normalise = Ok self1 ->
  wf_store (residuals self0) -> store_get (residuals self0) G I T <> None ->
  obs self1 = fold_left (fun o c => eff c o) (contexts self1) (obs self0).
Proof.
  unfold get_residuals. intros H Hwf Hsome.
  apply (for_each_preserves
           (get_residuals_context imt_period convert_accel_units normalise)
           (fun s => wf_store (residuals s) /\ store_get (residuals s) G I T <> None /\
                     obs s = fold_left (fun o c => eff c o) (contexts s) (obs self0))
           database_contexts) with (s0 := set_contexts self0 []) (s := self1);
    [|assumption|].
  - intros s c s' Hb (Hw & Hs & Ho).
    destruct (get_residuals_context_effect normalise s s' c Hb Hw Hs)
      as (c2 & Hc & Hw' & Hs' & Ho').
    split; [assumption|]. split; [assumption|].
    rewrite Ho', Hc, fold_left_app, Ho. reflexivity.
  - cbn [residuals contexts set_contexts fold_left]. auto.
Qed.

End KeyPathRun.

Lemma fold_context_effect (G I T : string) (cs : list Context) :
  forall (a0 b0 : array) (u0 : option (list (list nat))),
    fold_left (fun o c => context_effect G I T c o) cs (Some a0, Some b0, u0)
    = (Some (a0 ++ concat (map (fun c => residual_contribution c G I T) cs)),
       Some (b0 ++ concat (map (fun c => modelled_contribution c G I T) cs)),
       option_map (fun u => u ++ concat (map (fun c => index_contribution c G I) cs)) u0).
Proof.
  induction cs as [|c cs IH]; intros a0 b0 u0; simpl.
  - rewrite !app_nil_r. destruct u0; simpl; rewrite ?app_nil_r; reflexivity.
  - rewrite IH, <- !app_assoc. destruct u0; simpl; rewrite <- ?app_assoc; reflexivity.
Qed.

Lemma length_concat_map_eq {A : Type} (f g : A -> list R) (l : list A) :
  (forall x, In x l -> length (f x) = length (g x)) ->
  length (concat (map f l)) = length (concat (map g l)).
Proof.
  induction l as [|x l IH]; simpl; intros H; [reflexivity|].
  rewrite !length_app, IH, (H x) by auto. reflexivity.
Qed.

(** C5, as amended: after [get_residuals], the residual array and the
    modelled array of a key path (model, IMT, residual type) are the initial
    arrays followed by what the contexts contributed, in their order. A
    context contributes its whole expected array to the modelled array. To
    the residual array it contributes its whole residual array for every type
    but the inter-event one, so the two arrays have equal length when every
    context's residual and expected arrays do; for the inter-event type it
    contributes the first entry alone, and records the index array [[0]],
    when its inter-event residuals are constant within [1e-12], and all
    entries with the full index range otherwise. *)
Theorem aggregated_store_contents (imt_period : string -> R)
  (convert_accel_units : list R -> list R) (self0 self1 : Residuals)
  (database_contexts : list Context) (normalise : bool) (G I T : string)
  (a0 b0 : array) :
  wf_store (residuals self0) -> T <> "Mean" ->
  store_get (residuals self0) G I T = Some a0 ->
  store_get (modelled self0) G I T = Some b0 ->
  get_residuals imt_period convert_accel_units self0 database_contexts normalise = Ok self1 ->
  exists a1 b1,
    store_get (residuals self1) G I T = Some a1 /\
    store_get (modelled self1) G I T = Some b1 /\
    a1 = a0 ++ concat (map (fun c => residual_contribution c G I T) (contexts self1)) /\
    b1 = b0 ++ concat (map (fun c => modelled_contribution c G I T) (contexts self1)) /\
    (T <> "Inter event" -> length a0 = length b0 ->
     (forall c, In c (contexts self1) ->
        length (residual_contribution c G I T) = length (modelled_contribution c G I T)) ->
     length a1 = length b1) /\
    (T = "Inter event" ->
     (forall u0, indices_get (unique_indices self0) G I = Some u0 ->
        indices_get (unique_indices self1) G I
        = Some (u0 ++ concat (map (fun c => index_contribution c G I) (contexts self1)))) /\
     (forall c rc x0 rest,
        getitem2 (Residual c) G I = Ok rc -> truthy rc = true ->
        cell_getitem rc "Inter event" = Ok (x0 :: rest) ->
        if inter_event_constant (x0 :: rest) x0
        then residual_contribution c G I T = [x0] /\
             index_contribution c G I = [[0%nat]]
        else residual_contribution c G I T = x0 :: rest /\
             index_contribution c G I = [seq 0 (length (x0 :: rest))])).
Proof.
  intros Hwf HT Ha0 Hb0 Hrun.
  assert (Hsome : store_get (residuals self0) G I T <> None) by congruence.
  pose proof (get_residuals_effect imt_period convert_accel_units G I T HT normalise
                self0 self1 database_contexts Hrun Hwf Hsome) as Hobs.
  unfold store_observation in Hobs. rewrite Ha0, Hb0, fold_context_effect in Hobs.
  injection Hobs as Hres Hmod Hidx.
  do 2 eexists. split; [exact Hres|]. split; [exact Hmod|].
  split; [reflexivity|]. split; [reflexivity|]. split.
  - intros _ Hlen Hall. rewrite !length_app, Hlen. f_equal.
    apply length_concat_map_eq, Hall.
  - intros ->. split.
    + intros u0 Hu0. cbn [String.eqb Ascii.eqb Bool.eqb] in Hidx.
      rewrite Hidx, Hu0. reflexivity.
    + intros c rc x0 rest Hrc Htr Hie.
      unfold residual_contribution, index_contribution.
      rewrite Hrc, Htr, Hie. cbn [String.eqb Ascii.eqb Bool.eqb].
      destruct (inter_event_constant (x0 :: rest) x0); auto.
Qed.

Lemma residuals_mixed_init_wf : wf_store (residuals residuals_mixed_init).
Proof.
  unfold wf_store, wf_cell. simpl. split.
  - repeat constructor; simpl; intuition discriminate.
  - repeat constructor; simpl; intuition discriminate.
Qed.

(** Witness for C5: the example analysis, for the total residuals. *)
Lemma aggregated_store_contents_witness :
  exists a1 b1,
    store_get (residuals residuals_mixed) "G" "PGA" "Total" = Some a1 /\
    store_get (modelled residuals_mixed) "G" "PGA" "Total" = Some b1 /\
    length a1 = length b1.
Proof.
  destruct (aggregated_store_contents (fun _ => 2) (fun a => a)
              residuals_mixed_init residuals_mixed [event_mixed_raw] true
              "G" "PGA" "Total" [] [] residuals_mixed_init_wf)
    as (a1 & b1 & H1 & H2 & _ & _ & Hlen & _);
    try reflexivity; try discriminate.
  - exact residuals_mixed_ok.
  - exists a1, b1. split; [assumption|]. split; [assumption|].
    apply Hlen; try discriminate; try reflexivity.
    simpl. intros c [<-|[]]. reflexivity.
Defined.

(** ** The stores built by the constructor *)

Lemma dict_get_none_not_in {V : Type} (d : dict V) (k : string) :
  dict_get d k = None -> ~ In k (dict_keys d).
Proof.
  induction d as [|[k' v] d IH]; simpl; intros H; [tauto|].
  destruct (String.eqb k k') eqn:E; [discriminate|].
  apply String.eqb_neq in E. intros [E'|Hin]; [congruence|]. exact (IH H Hin).
Qed.

Lemma NoDup_dict_set {V : Type} (d : dict V) (k : string) (v : V) :
  NoDup (dict_keys d) -> NoDup (dict_keys (dict_set d k v)).
Proof.
  intros Hnd. destruct (dict_get d k) as [v0|] eqn:E.
  - rewrite (dict_set_keys_present _ _ _ _ E). assumption.
  - apply dict_get_none_not_in in E. rewrite (dict_set_new _ _ _ E).
    unfold dict_keys. rewrite map_app. simpl.
    apply NoDup_app; [assumption|repeat constructor; simpl; tauto|].
    intros a Ha [<-|[]]. exact (E Ha).
Qed.

Lemma NoDup_fold_dict_set {V : Type} (ks : list string) (v : V) (d : dict V) :
  NoDup (dict_keys d) ->
  NoDup (dict_keys (fold_left (fun e k => dict_set e k v) ks d)).
Proof.
  revert d; induction ks as [|k ks IH]; simpl; intros d H; [assumption|].
  apply IH, NoDup_dict_set, H.
Qed.

(** The loop over the IMTs in the constructor builds a model's residual
    dict with distinct keys at both levels. *)
Lemma init_imt_wf (imt_period : string -> R) (res_types : list string)
  (min_per max_per : R) (imts0 : list string) :
  forall d1 d2 ui ty,
    NoDup (dict_keys d1) -> Forall wf_cell d1 ->
    let '(r1, _, _, _) :=
      fold_left (init_imt imt_period res_types min_per max_per) imts0 (d1, d2, ui, ty) in
    NoDup (dict_keys r1) /\ Forall wf_cell r1.
Proof.
  induction imts0 as [|imtx imts0 IH]; intros d1 d2 ui ty Hnd Hall; simpl.
  - auto.
  - destruct (outside_period_range imt_period imtx min_per max_per).
    + apply IH; [apply NoDup_dict_set; assumption|].
      apply Forall_dict_set; [assumption|exact I].
    + apply IH; [apply NoDup_dict_set; assumption|].
      apply Forall_dict_set; [assumption|]. unfold wf_cell. simpl.
      apply NoDup_fold_dict_set. constructor.
Qed.

Lemma init_store_wf (imt_period : string -> R) (gsims : list (string * GMPE))
  (imts0 : list string) (self : Residuals) :
  __init__ imt_period gsims imts0 = Ok self -> wf_store (residuals self).
Proof.
  unfold __init__. intros H.
  apply (for_each_preserves (init_gmpe imt_period imts0)
           (fun s => wf_store (residuals s)) _ ) in H; [assumption| |].
  - intros s gmpe s' Hb [Hnd Hall]. unfold init_gmpe in Hb.
    apply bind_ok in Hb as (gmpe_i & _ & Hb).
    apply bind_ok in Hb as (min_per & _ & Hb).
    apply bind_ok in Hb as (max_per & _ & Hb).
    pose proof (init_imt_wf imt_period (DEFINED_FOR_STANDARD_DEVIATION_TYPES gmpe_i)
                  min_per max_per imts0 [] [] [] [] (NoDup_nil _) (Forall_nil _)) as Hw.
    destruct (fold_left _ imts0 _) as [[[r1 r2] ui] ty].
    injection Hb as <-. cbn [residuals]. split.
    + apply NoDup_dict_set, Hnd.
    + apply Forall_dict_set; [assumption|]. exact Hw.
  - cbn [residuals]. split; constructor.
Qed.

(** ** What the constructor builds *)


Section InitLoops.

Variable imt_period : string -> R.
Variable res_types : list string.
Variables min_per max_per : R.

Let e0 : entry := fold_left (fun e res_type => dict_set e res_type []) res_types [].

(** The loop over the IMTs in the constructor. *)
Lemma init_imt_lookup (imts0 : list string) :
  forall d1 d2 ui ty r1 r2 u t,
    fold_left (init_imt imt_period res_types min_per max_per) imts0 (d1, d2, ui, ty)
    = (r1, r2, u, t) ->
    forall imtx,
      (In imtx imts0 ->
       if outside_period_range imt_period imtx min_per max_per
       then dict_get r1 imtx = Some None /\ dict_get r2 imtx = Some None /\
            dict_get u imtx = dict_get ui imtx /\ dict_get t imtx = dict_get ty imtx
       else dict_get r1 imtx = Some (Some e0) /\
            dict_get r2 imtx = Some (Some (dict_set e0 "Mean" [])) /\
            dict_get u imtx = Some [] /\ dict_get t imtx = Some res_types) /\
      (~ In imtx imts0 ->
       dict_get r1 imtx = dict_get d1 imtx /\ dict_get r2 imtx = dict_get d2 imtx /\
       dict_get u imtx = dict_get ui imtx /\ dict_get t imtx = dict_get ty imtx).
Proof.
  induction imts0 as [|x xs IH]; intros d1 d2 ui ty r1 r2 u t H imtx.
  - simpl in H. injection H as <- <- <- <-. split; [intros []|auto].
  - simpl in H.
    destruct (outside_period_range imt_period x min_per max_per) eqn:Ex.
    + destruct (IH _ _ _ _ _ _ _ _ H imtx) as [Hin Hout].
      destruct (in_dec string_dec imtx xs) as [Hi|Hn].
      * split; [intros _|intros Hno; exfalso; apply Hno; right; assumption].
        specialize (Hin Hi).
        destruct (outside_period_range imt_period imtx min_per max_per); tauto.
      * destruct (Hout Hn) as (H1 & H2 & H3 & H4). split.
        -- intros [->|Hi]; [|contradiction].
           rewrite Ex, H1, H2, H3, H4, !dict_get_set_same. auto.
        -- intros Hno. rewrite H1, H2, H3, H4.
           rewrite !dict_get_set_other by (intros ->; apply Hno; left; reflexivity).
           auto.
    + destruct (IH _ _ _ _ _ _ _ _ H imtx) as [Hin Hout].
      destruct (in_dec string_dec imtx xs) as [Hi|Hn].
      * split; [intros _|intros Hno; exfalso; apply Hno; right; assumption].
        specialize (Hin Hi).
        destruct (outside_period_range imt_period imtx min_per max_per) eqn:Ei;
          [|exact Hin].
        destruct Hin as (H1 & H2 & H3 & H4).
        destruct (string_dec x imtx) as [->|Hne].
        -- rewrite Ei in Ex. discriminate.
        -- rewrite H3, H4, !dict_get_set_other by assumption. auto.
      * destruct (Hout Hn) as (H1 & H2 & H3 & H4). split.
        -- intros [->|Hi]; [|contradiction].
           rewrite Ex, H1, H2, H3, H4, !dict_get_set_same. auto.
        -- intros Hno. rewrite H1, H2, H3, H4.
           rewrite !dict_get_set_other by (intros ->; apply Hno; left; reflexivity).
           auto.
Qed.

End InitLoops.

Section Constructor.

Variable imt_period : string -> R.
Variable imts0 : list string.

(** The loop over the models in the constructor. *)
Lemma init_gmpe_loop (xs : list string) :
  forall s0 s, for_each xs (init_gmpe imt_period imts0) s0 = Ok s ->
    gmpe_list s = gmpe_list s0 /\ imts s = imts s0 /\ contexts s = contexts s0 /\
    forall gmpe,
      (In gmpe xs ->
       exists g min_per max_per r1 r2 u t,
         dict_get (gmpe_list s0) gmpe = Some g /\
         py_min (sa_coeffs_periods g) = Ok min_per /\
         py_max (sa_coeffs_periods g) = Ok max_per /\
         fold_left (init_imt imt_period (DEFINED_FOR_STANDARD_DEVIATION_TYPES g)
                      min_per max_per) imts0 ([], [], [], [])
         = (r1, r2, u, t) /\
         dict_get (residuals s) gmpe = Some r1 /\
         dict_get (modelled s) gmpe = Some r2 /\
         dict_get (unique_indices s) gmpe = Some u /\
         dict_get (types s) gmpe = Some t /\
         dict_get (gmpe_sa_limits s) gmpe = Some (min_per, max_per)) /\
      (~ In gmpe xs ->
       dict_get (residuals s) gmpe = dict_get (residuals s0) gmpe /\
       dict_get (modelled s) gmpe = dict_get (modelled s0) gmpe /\
       dict_get (unique_indices s) gmpe = dict_get (unique_indices s0) gmpe /\
       dict_get (types s) gmpe = dict_get (types s0) gmpe /\
       dict_get (gmpe_sa_limits s) gmpe = dict_get (gmpe_sa_limits s0) gmpe).
Proof.
  induction xs as [|x xs IH]; intros s0 s H.
  - simpl in H. injection H as <-. repeat split; try reflexivity. intros [].
  - simpl in H. apply bind_ok in H as (s1 & H1 & H).
    destruct (IH _ _ H) as (Hgl & Him & Hctx & Hall).
    unfold init_gmpe in H1.
    apply bind_ok in H1 as (g & Hg & H1).
    apply bind_ok in H1 as (min_per & Hmin & H1).
    apply bind_ok in H1 as (max_per & Hmax & H1).
    destruct (fold_left _ imts0 _) as [[[r1 r2] u] t] eqn:Ef.
    injection H1 as <-. cbn [gmpe_list imts contexts] in Hgl, Him, Hctx.
    repeat split; try assumption.
    + intros Hin. destruct (Hall gmpe) as [Hyes Hno].
      destruct (in_dec string_dec gmpe xs) as [Hi|Hn].
      * exact (Hyes Hi).
      * destruct Hin as [->|Hi]; [|contradiction].
        destruct (Hno Hn) as (E1 & E2 & E3 & E4 & E5).
        cbn [residuals modelled unique_indices types gmpe_sa_limits] in E1, E2, E3, E4, E5.
        exists g, min_per, max_per, r1, r2, u, t.
        apply getitem_ok in Hg.
        rewrite E1, E2, E3, E4, E5, !dict_get_set_same. repeat split; auto.
    + destruct (Hall gmpe) as [_ Hno].
      destruct (Hno (fun Hi => H0 (or_intror Hi))) as (E1 & _).
      rewrite E1. cbn [residuals]. apply dict_get_set_other.
      intros ->. apply H0. left. reflexivity.
    + destruct (Hall gmpe) as [_ Hno].
      destruct (Hno (fun Hi => H0 (or_intror Hi))) as (_ & E2 & _).
      rewrite E2. cbn [modelled]. apply dict_get_set_other.
      intros ->. apply H0. left. reflexivity.
    + destruct (Hall gmpe) as [_ Hno].
      destruct (Hno (fun Hi => H0 (or_intror Hi))) as (_ & _ & E3 & _).
      rewrite E3. cbn [unique_indices]. apply dict_get_set_other.
      intros ->. apply H0. left. reflexivity.
    + destruct (Hall gmpe) as [_ Hno].
      destruct (Hno (fun Hi => H0 (or_intror Hi))) as (_ & _ & _ & E4 & _).
      rewrite E4. cbn [types]. apply dict_get_set_other.
      intros ->. apply H0. left. reflexivity.
    + destruct (Hall gmpe) as [_ Hno].
      destruct (Hno (fun Hi => H0 (or_intror Hi))) as (_ & _ & _ & _ & E5).
      rewrite E5. cbn [gmpe_sa_limits]. apply dict_get_set_other.
      intros ->. apply H0. left. reflexivity.
Qed.

(** The fields the constructor copies from its arguments. *)
Lemma init_fields (gsims : list (string * GMPE)) (self : Residuals) :
  __init__ imt_period gsims imts0 = Ok self ->
  gmpe_list self = OrderedDict gsims /\ imts self = imts0 /\ contexts self = [].
Proof.
  unfold __init__. intros H.
  destruct (init_gmpe_loop _ _ _ H) as (H1 & H2 & H3 & _). auto.
Qed.

(** What the constructor leaves under a model and an IMT. *)
Lemma init_pair (gsims : list (string * GMPE)) (self : Residuals)
  (gmpe : string) (g : GMPE) (imtx : string) :
  __init__ imt_period gsims imts0 = Ok self ->
  dict_get (OrderedDict gsims) gmpe = Some g -> In imtx imts0 ->
  exists min_per max_per sg mg,
    py_min (sa_coeffs_periods g) = Ok min_per /\
    py_max (sa_coeffs_periods g) = Ok max_per /\
    dict_get (gmpe_sa_limits self) gmpe = Some (min_per, max_per) /\
    dict_get (residuals self) gmpe = Some sg /\
    dict_get (modelled self) gmpe = Some mg /\
    let e0 : entry := fold_left (fun e res_type => dict_set e res_type [])
                        (DEFINED_FOR_STANDARD_DEVIATION_TYPES g) [] in
    if outside_period_range imt_period imtx min_per max_per then
      dict_get sg imtx = Some None /\ dict_get mg imtx = Some None /\
      getitem2 (types self) gmpe imtx = Raise KeyError /\
      getitem2 (unique_indices self) gmpe imtx = Raise KeyError
    else
      dict_get sg imtx = Some (Some e0) /\
      dict_get mg imtx = Some (Some (dict_set e0 "Mean" [])) /\
      getitem2 (types self) gmpe imtx = Ok (DEFINED_FOR_STANDARD_DEVIATION_TYPES g) /\
      getitem2 (unique_indices self) gmpe imtx = Ok [].
Proof.
  unfold __init__. intros H Hg Hi.
  destruct (init_gmpe_loop _ _ _ H) as (_ & _ & _ & Hall).
  destruct (Hall gmpe) as [Hyes _].
  destruct Hyes as (g' & min_per & max_per & r1 & r2 & u & t & Hg' & Hmin & Hmax & Hf &
                    E1 & E2 & E3 & E4 & E5).
  { eapply dict_get_In_keys, Hg. }
  cbn [gmpe_list] in Hg'. rewrite Hg in Hg'. injection Hg' as <-.
  exists min_per, max_per, r1, r2. repeat split; try assumption.
  destruct (init_imt_lookup imt_period _ min_per max_per imts0 _ _ _ _ _ _ _ _ Hf imtx)
    as [Hin _].
  specialize (Hin Hi). cbv zeta.
  unfold getitem2, getitem. rewrite E3, E4. cbn [bind].
  destruct (outside_period_range imt_period imtx min_per max_per).
  - destruct Hin as (H1 & H2 & H3 & H4). rewrite H3, H4. simpl. auto.
  - destruct Hin as (H1 & H2 & H3 & H4). rewrite H3, H4. auto.
Qed.

End Constructor.



(** ** Pairs outside the period range, from the constructor to the stores *)

Lemma set_stddevs_keeps (res_types : list string) :
  forall (e e' : entry) (stddev : list (list R)) (k : string),
    set_stddevs e res_types stddev = Ok e' ->
    dict_get e k <> None -> dict_get e' k <> None.
Proof.
  induction res_types as [|t ts IH]; intros e e' stddev k H Hk; simpl in H.
  - injection H as <-. assumption.
  - destruct stddev as [|s stddev]; [discriminate|].
    apply (IH _ _ _ _ H).
    destruct (string_dec t k) as [->|Hne].
    + rewrite dict_get_set_same. discriminate.
    + rewrite dict_get_set_other by assumption. assumption.
Qed.

Lemma set_stddevs_sets (res_types : list string) :
  forall (e e' : entry) (stddev : list (list R)) (k : string),
    set_stddevs e res_types stddev = Ok e' ->
    In k res_types -> dict_get e' k <> None.
Proof.
  induction res_types as [|t ts IH]; intros e e' stddev k H Hk; simpl in H.
  - contradiction.
  - destruct stddev as [|s stddev]; [discriminate|].
    destruct (in_dec string_dec k ts) as [Hin|Hout].
    + apply (IH _ _ _ _ H Hin).
    + destruct Hk as [->|Hk]; [|contradiction].
      apply (set_stddevs_keeps _ _ _ _ _ H).
      rewrite dict_get_set_same. discriminate.
Qed.

(** [get_expected_motions] stores, for every model and IMT, the cell computed
    by its loop body. *)
Lemma get_expected_motions_cell (imt_period : string -> R) (self : Residuals)
  (context context' : Context) (gmpe imtx : string) :
  get_expected_motions imt_period self context = Ok context' ->
  In gmpe (dict_keys (gmpe_list self)) -> In imtx (imts self) ->
  Observations context' = Observations context /\
  Num_Sites context' = Num_Sites context /\
  exists c,
    expected_cell imt_period self (Ctx context') gmpe imtx = Ok c /\
    getitem2 (Expected context') gmpe imtx = Ok c.
Proof.
  unfold get_expected_motions. intros H Hg Hi.
  apply bind_ok in H as (expected & Hexp & H). injection H as <-.
  split; [reflexivity|]. split; [reflexivity|].
  destruct (for_each_set_lookup _ _ _ _ Hexp gmpe) as [Hin _].
  destruct (Hin Hg) as (eg & Heg & Hget).
  destruct (for_each_set_lookup _ _ _ _ Heg imtx) as [Hin' _].
  destruct (Hin' Hi) as (c & Hc & Hget').
  exists c. split; [exact Hc|].
  unfold getitem2, set_Expected; simpl.
  apply getitem_ok in Hget. rewrite Hget. simpl.
  apply getitem_ok. assumption.
Qed.

Lemma outside_period_range_limits (imt_period : string -> R) (imtx : string)
  (min_per max_per : R) :
  outside_period_range imt_period imtx min_per max_per
  = (if contains "SA(" imtx
     then Rltb (imt_period imtx) min_per || Rltb max_per (imt_period imtx)
     else false).
Proof. unfold outside_period_range. destruct (contains "SA(" imtx); reflexivity. Qed.

(** On a state built by the constructor, the cell of the expected motions is
    [None] for a pair outside the period range and holds a mean otherwise. *)
Lemma expected_cell_init (imt_period : string -> R) (gsims : list (string * GMPE))
  (imts0 : list string) (self : Residuals) (ctx : RuptureContext)
  (gmpe : string) (g : GMPE) (imtx : string) (c : cell) (min_per max_per : R) :
  __init__ imt_period gsims imts0 = Ok self ->
  dict_get (OrderedDict gsims) gmpe = Some g -> In imtx imts0 ->
  py_min (sa_coeffs_periods g) = Ok min_per ->
  py_max (sa_coeffs_periods g) = Ok max_per ->
  expected_cell imt_period self ctx gmpe imtx = Ok c ->
  if outside_period_range imt_period imtx min_per max_per then c = None
  else exists e, c = Some e /\ dict_get e "Mean" <> None /\
                 forall t, In t (DEFINED_FOR_STANDARD_DEVIATION_TYPES g) ->
                           dict_get e t <> None.
Proof.
  intros H Hg Hi Hmin Hmax Hc.
  destruct (init_pair _ _ _ _ _ _ _ H Hg Hi)
    as (mn & mx & sg & mg & Hmin' & Hmax' & Hlim & Hsg & Hmg & Hpair).
  rewrite Hmin in Hmin'. rewrite Hmax in Hmax'.
  injection Hmin' as <-. injection Hmax' as <-.
  destruct (init_fields _ _ _ _ H) as (Hgl & _ & _).
  unfold expected_cell in Hc. rewrite Hgl in Hc.
  apply getitem_ok in Hg, Hlim. rewrite Hg, Hlim in Hc. cbn [bind fst snd] in Hc.
  rewrite outside_period_range_limits in *. cbv zeta in Hpair.
  destruct (contains "SA(" imtx); cbn [bind] in Hc.
  - destruct (Rltb (imt_period imtx) min_per || Rltb max_per (imt_period imtx)).
    + injection Hc as <-. reflexivity.
    + destruct Hpair as (_ & _ & Hty & _). rewrite Hty in Hc. cbn [bind] in Hc.
      destruct (get_mean_and_stddevs g ctx imtx _) as [mean stddev].
      apply bind_ok in Hc as (e & He & Hc). injection Hc as <-.
      exists e. split; [reflexivity|]. split.
      * apply (set_stddevs_keeps _ _ _ _ _ He). simpl. discriminate.
      * intros t Ht. apply (set_stddevs_sets _ _ _ _ _ He Ht).
  - destruct Hpair as (_ & _ & Hty & _). rewrite Hty in Hc. cbn [bind] in Hc.
    destruct (get_mean_and_stddevs g ctx imtx _) as [mean stddev].
    apply bind_ok in Hc as (e & He & Hc). injection Hc as <-.
    exists e. split; [reflexivity|]. split.
    + apply (set_stddevs_keeps _ _ _ _ _ He). simpl. discriminate.
    + intros t Ht. apply (set_stddevs_sets _ _ _ _ _ He Ht).
Qed.

(** X2: on a state built by the constructor, the expected motions and the
    residuals of a context are [None] for exactly the pairs the constructor
    marked [None] in the residual store; for every other pair the expected
    motions hold a ["Mean"] array and the residuals a ["Total"] array. *)
Theorem inapplicable_pairs_agree (imt_period : string -> R)
  (gsims : list (string * GMPE)) (imts0 : list string) (self : Residuals)
  (context context1 context2 : Context) (normalise : bool) (gmpe imtx : string) :
  __init__ imt_period gsims imts0 = Ok self ->
  get_expected_motions imt_period self context = Ok context1 ->
  calculate_residuals self context1 normalise = Ok context2 ->
  In gmpe (dict_keys (gmpe_list self)) -> In imtx (imts self) ->
  exists sc ec rc,
    getitem2 (residuals self) gmpe imtx = Ok sc /\
    getitem2 (Expected context2) gmpe imtx = Ok ec /\
    getitem2 (Residual context2) gmpe imtx = Ok rc /\
    match sc with
    | None => ec = None /\ rc = None
    | Some _ =>
        exists e r, ec = Some e /\ rc = Some r /\
                    dict_get e "Mean" <> None /\ dict_get r "Total" <> None
    end.
Proof.
  intros H Hexp Hres Hg Hi.
  destruct (init_fields _ _ _ _ H) as (Hgl & Him & _).
  rewrite Hgl in Hg. rewrite Him in Hi.
  assert (Hg' : exists g, dict_get (OrderedDict gsims) gmpe = Some g).
  { destruct (dict_get (OrderedDict gsims) gmpe) as [g|] eqn:E; [eauto|].
    apply dict_get_none_not_in in E. contradiction. }
  destruct Hg' as [g Hgg].
  destruct (init_pair _ _ _ _ _ _ _ H Hgg Hi)
    as (min_per & max_per & sg & mg & Hmin & Hmax & Hlim & Hsg & Hmg & Hpair).
  destruct (get_expected_motions_cell _ _ _ _ gmpe imtx Hexp) as (_ & _ & ec & Hec & Hget);
    [rewrite Hgl; assumption | rewrite Him; assumption |].
  pose proof (expected_cell_init _ _ _ _ _ _ _ _ _ _ _ H Hgg Hi Hmin Hmax Hec) as Hcell.
  destruct (calculate_residuals_cell _ _ _ _ gmpe imtx Hres) as (rc & Hrc & Hgetr);
    [rewrite Hgl; assumption | rewrite Him; assumption |].
  assert (HE : Expected context2 = Expected context1).
  { unfold calculate_residuals in Hres. apply bind_ok in Hres as (r & _ & Hres).
    injection Hres as <-. reflexivity. }
  cbv zeta in Hpair.
  unfold residual_cell in Hrc. rewrite Hget in Hrc.
  apply bind_ok in Hrc as (o & _ & Hrc). cbn [bind] in Hrc.
  destruct (outside_period_range imt_period imtx min_per max_per).
  - destruct Hpair as (H1 & _). subst ec. cbn [truthy negb] in Hrc. injection Hrc as <-.
    exists None, None, None. rewrite HE. repeat split; try assumption.
    unfold getitem2, getitem. rewrite Hsg. cbn [bind]. rewrite H1. reflexivity.
  - destruct Hpair as (H1 & _). destruct Hcell as (e & -> & Hmean & _).
    assert (Htr : truthy (Some e) = true).
    { destruct e; [exfalso; apply Hmean; reflexivity | reflexivity]. }
    rewrite Htr in Hrc. cbn [negb] in Hrc.
    apply bind_ok in Hrc as (mean & _ & Hrc). apply bind_ok in Hrc as (ts & _ & Hrc).
    apply bind_ok in Hrc as (d & _ & Hrc). apply bind_ok in Hrc as (total & _ & Hrc).
    apply bind_ok in Hrc as (sc & Hsc & Hrc).
    assert (Hr : exists r, rc = Some r /\ dict_get r "Total" <> None).
    { destruct sc as [sd|]; [|discriminate].
      destruct (dict_in "Inter event" sd).
      - apply bind_ok in Hrc as (i0 & _ & Hrc). apply bind_ok in Hrc as (i1 & _ & Hrc).
        apply bind_ok in Hrc as ([a b] & _ & Hrc). injection Hrc as <-.
        eexists. split; [reflexivity|]. simpl. discriminate.
      - injection Hrc as <-. eexists. split; [reflexivity|]. simpl. discriminate. }
    destruct Hr as (r & -> & Hr).
    eexists. exists (Some e), (Some r). rewrite HE. repeat split; try assumption.
    + unfold getitem2, getitem. rewrite Hsg. cbn [bind]. rewrite H1. reflexivity.
    + cbv beta iota. exists e, r. auto.
Qed.

(** Witness for X2: the example event. *)
Lemma inapplicable_pairs_agree_witness :
  exists sc ec rc,
    getitem2 (residuals residuals_mixed_init) "G" "SA(2.0)" = Ok sc /\
    getitem2 (Expected event_mixed) "G" "SA(2.0)" = Ok ec /\
    getitem2 (Residual event_mixed) "G" "SA(2.0)" = Ok rc.
Proof.
  destruct (inapplicable_pairs_agree (fun _ => 2) [("G", gmpe_decomposed)]
              ["PGA"; "SA(2.0)"] residuals_mixed_init event_mixed_raw _ event_mixed true
              "G" "SA(2.0)" residuals_mixed_init_ok event_mixed_expected
              event_mixed_residual (or_introl eq_refl) (or_intror (or_introl eq_refl)))
    as (sc & ec & rc & H1 & H2 & H3 & _).
  exists sc, ec, rc. auto.
Defined.

(** ** The aggregation never changes which pairs are marked *)


Section Marks.

Variables g i : string.









End Marks.



(** ** The inter-event residual as a shrunken event mean *)

(** The entries of the raw inter-event residual. *)
Lemma random_effects_eta_nth (obs mean inter intra eta intra_res : list R) :
  length obs = length mean ->
  length inter = length mean \/ length inter = 1%nat ->
  length intra = length mean ->
  _get_random_effects_residuals obs mean inter intra false = Ok (eta, intra_res) ->
  length eta = length mean /\
  forall i, (i < length mean)%nat ->
    nth i eta 0 =
      (bget inter i) ^ 2 * np_sum (map (fun p => fst p - snd p) (combine obs mean)) /
      (INR (length mean) * (bget inter i) ^ 2 + (nth i intra 0) ^ 2).
Proof.
  intros Hobs Hinter Hintra Hraw.
  destruct (random_effects_steps _ _ _ _ _ _ Hraw)
    as (d & denom & m & Hd & Hden & Heta & _ & _).
  unfold np_sub in Hd. rewrite broadcast_same_length in Hd by assumption.
  injection Hd as <-.
  assert (Ldenom : length denom = length mean).
  { apply broadcast_length in Hden.
    rewrite length_np_scale, !length_np_sq in Hden.
    destruct (Nat.eqb_spec (length inter) 1); lia. }
  assert (Leta : length eta = length mean).
  { apply broadcast_length in Heta.
    rewrite length_np_scale, length_np_sq in Heta.
    destruct (Nat.eqb_spec (length inter) 1); lia. }
  split; [assumption|]. intros i Hi.
  rewrite (broadcast_nth _ _ _ _ Heta) by lia.
  rewrite bget_np_scale, bget_np_sq.
  rewrite (bget_full denom) by lia.
  rewrite (broadcast_nth _ _ _ _ Hden) by lia.
  rewrite bget_np_scale, !bget_np_sq.
  rewrite (bget_full intra) by lia.
  unfold Rdiv. ring.
Qed.

(** X4: without normalisation the inter-event residual of record [i] is the
    mean residual of the event, [sum(obs - mean) / n], shrunk by the factor
    [n tau_i^2 / (n tau_i^2 + phi_i^2)]: for a non-zero intra-event standard
    deviation it has the sign of the mean residual and is smaller in absolute
    value (strictly, unless the mean residual is zero). *)
Theorem inter_event_residual_shrinks (obs mean inter intra eta intra_res : list R)
  (i : nat) :
  length obs = length mean ->
  length inter = length mean \/ length inter = 1%nat ->
  length intra = length mean ->
  _get_random_effects_residuals obs mean inter intra false = Ok (eta, intra_res) ->
  (i < length mean)%nat -> nth i intra 0 <> 0 ->
  let mean_residual := np_mean (map (fun p => fst p - snd p) (combine obs mean)) in
  let tau := bget inter i in
  let phi := nth i intra 0 in
  nth i eta 0
  = INR (length mean) * tau ^ 2 / (INR (length mean) * tau ^ 2 + phi ^ 2) * mean_residual /\
  0 <= nth i eta 0 * mean_residual /\
  Rabs (nth i eta 0) <= Rabs mean_residual /\
  (mean_residual <> 0 -> Rabs (nth i eta 0) < Rabs mean_residual).
Proof.
  intros Hobs Hinter Hintra Hraw Hi Hphi. cbv zeta.
  destruct (random_effects_eta_nth _ _ _ _ _ _ Hobs Hinter Hintra Hraw) as [_ Hnth].
  rewrite (Hnth i Hi). unfold np_mean.
  rewrite length_map, length_combine, Hobs, Nat.min_id.
  set (S := np_sum (map (fun p => fst p - snd p) (combine obs mean))).
  set (n := INR (length mean)). set (tau := bget inter i). set (phi := nth i intra 0).
  assert (Hn : 0 < n) by (apply lt_0_INR; lia).
  assert (Hphi2 : 0 < phi ^ 2).
  { pose proof (pow2_ge_0 phi). pose proof (pow_nonzero phi 2 Hphi). fold phi in H0. lra. }
  assert (Htau2 : 0 <= tau ^ 2) by apply pow2_ge_0.
  assert (HD : 0 < n * tau ^ 2 + phi ^ 2) by nra.
  set (w := n * tau ^ 2 / (n * tau ^ 2 + phi ^ 2)).
  assert (Hw : 0 <= w < 1).
  { unfold w. split.
    - apply Rmult_le_pos; [nra|]. left. apply Rinv_0_lt_compat, HD.
    - apply (Rmult_lt_reg_r (n * tau ^ 2 + phi ^ 2)); [assumption|].
      unfold Rdiv. rewrite Rmult_assoc, Rinv_l by lra. lra. }
  assert (E : tau ^ 2 * S / (n * tau ^ 2 + phi ^ 2) = w * (S / n)).
  { unfold w. field. split; lra. }
  rewrite E. split; [reflexivity|].
  assert (Habs : Rabs (w * (S / n)) = w * Rabs (S / n)).
  { rewrite Rabs_mult, (Rabs_right w) by lra. reflexivity. }
  pose proof (Rabs_pos (S / n)) as Hpos.
  split; [|split].
  - replace (w * (S / n) * (S / n)) with (w * ((S / n) * (S / n))) by ring.
    apply Rmult_le_pos; [lra|]. nra.
  - rewrite Habs. nra.
  - intros Hne. rewrite Habs.
    assert (0 < Rabs (S / n)) by (apply Rabs_pos_lt; assumption). nra.
Qed.

(** Witness for X4: two records with residuals [1] and [2]. *)
Lemma inter_event_residual_shrinks_witness :
  exists eta intra_res,
    _get_random_effects_residuals [1; 3] [0; 1] [1] [1; 1] false = Ok (eta, intra_res) /\
    Rabs (nth 0 eta 0)
    <= Rabs (np_mean (map (fun p => fst p - snd p) (combine [1; 3] [0; 1]))).
Proof.
  destruct (random_effects_returns [1; 3] [0; 1] [1] [1; 1])
    as (eta & ir & a & b & Hraw & _); simpl; auto.
  exists eta, ir. split; [exact Hraw|].
  refine (proj1 (proj2 (proj2 (inter_event_residual_shrinks [1; 3] [0; 1] [1] [1; 1]
                                 eta ir 0 _ _ _ Hraw _ _)))); simpl; auto; lra.
Defined.

(** ** The average sample log-likelihood in closed form *)

Lemma ln_quotient (x y : R) : 0 < x -> 0 < y -> ln (x / y) = ln x - ln y.
Proof.
  intros Hx Hy. unfold Rdiv.
  rewrite ln_mult by (try assumption; apply Rinv_0_lt_compat; assumption).
  rewrite ln_Rinv by assumption. ring.
Qed.

Lemma ln_sqrt_half (x : R) : 0 < x -> ln (sqrt x) = ln x / 2.
Proof.
  intros Hx. pose proof (sqrt_lt_R0 x Hx) as Hs.
  assert (E : ln x = ln (sqrt x) + ln (sqrt x)).
  { rewrite <- ln_mult by assumption. rewrite sqrt_sqrt by lra. reflexivity. }
  lra.
Qed.

Lemma ln_norm_pdf (x : R) : ln (norm_pdf x) = - (x ^ 2) / 2 - ln (2 * PI) / 2.
Proof.
  unfold norm_pdf.
  assert (H2pi : 0 < 2 * PI) by (pose proof PI_RGT_0; lra).
  rewrite ln_quotient by (try apply exp_pos; apply sqrt_lt_R0; assumption).
  rewrite ln_exp, ln_sqrt_half by assumption. reflexivity.
Qed.

Lemma ln_2_pos : 0 < ln 2.
Proof. pose proof ln_lt_2. lra. Qed.

Lemma np_sum_log2_pdf (z : list R) :
  np_sum (map (fun x => np_log2 (norm_pdf x)) z)
  = - (INR (length z) * ln (2 * PI) + np_sum (np_sq z)) / (2 * ln 2).
Proof.
  pose proof ln_2_pos as H2.
  induction z as [|x z IH].
  - simpl. rewrite np_sum_nil. unfold Rdiv. ring.
  - cbn [map np_sq]. rewrite !np_sum_cons. fold (np_sq z). rewrite IH.
    unfold np_log2. rewrite ln_norm_pdf.
    change (length (x :: z)) with (S (length z)). rewrite S_INR. field. lra.
Qed.

(** [-(1.0 / float(len(asll))) * np.sum(asll)] for the log-likelihoods of the
    residuals [z]. *)
Lemma neg_mean_log_closed (z : list R) (v : R) :
  neg_mean_log (map (fun x => np_log2 (norm_pdf x)) z) = Ok v ->
  z <> [] /\ v = (ln (2 * PI) + np_mean (np_sq z)) / (2 * ln 2).
Proof.
  unfold neg_mean_log. intros H. apply bind_ok in H as (inv & Hinv & H).
  injection H as <-. apply py_div_ok in Hinv as [Hn ->].
  rewrite length_map in Hn. split.
  - intros ->. apply Hn. reflexivity.
  - rewrite np_sum_log2_pdf. unfold np_mean, np_sq. rewrite !length_map.
    pose proof ln_2_pos. field. split; first [assumption | lra].
Qed.

Section LlhLoop.

Variable self : Residuals.
Variable gmpe : string.

(** The total residuals an IMT contributes to the LLH of the model: none
    when the IMT is not among those of the analysis or its entry in the
    residual store is [None] or empty. *)
Let total_of (imtx : string) : list R :=
  if existsb (String.eqb imtx) (imts self) then
    match getitem2 (residuals self) gmpe imtx with
    | Ok (Some e) => match dict_get e "Total" with
                     | Some total => total
                     | None => []
                     end
    | _ => []
    end
  else [].

Lemma llh_asll_total (imtx : string) (a : option (list R)) :
  llh_asll self gmpe imtx = Ok a ->
  match a with
  | Some asll =>
      asll = map (fun x => np_log2 (norm_pdf x)) (total_of imtx) /\
      existsb (String.eqb imtx) (imts self) = true /\
      exists e, getitem2 (residuals self) gmpe imtx = Ok (Some e) /\
                dict_get e "Total" = Some (total_of imtx)
  | None => total_of imtx = []
  end.
Proof.
  unfold llh_asll, total_of.
  destruct (existsb (String.eqb imtx) (imts self)); cbn [negb];
    [|intros H; injection H as <-; reflexivity].
  intros H. apply bind_ok in H as (c & Hc & H). rewrite Hc.
  destruct c as [[|kv e]|]; cbn [truthy negb] in H;
    try (injection H as <-; reflexivity).
  apply bind_ok in H as (total & Ht & H). injection H as <-.
  cbn [cell_getitem] in Ht. apply getitem_ok in Ht. rewrite Ht.
  split; [reflexivity|]. split; [reflexivity|]. eauto.
Qed.

(** The loop over the requested IMTs. *)
Lemma llh_imt_loop (xs : list string) :
  forall lr0 d0 lr d,
    for_each xs (llh_imt self gmpe) (lr0, d0) = Ok (lr, d) ->
    lr = lr0 ++ map (fun x => np_log2 (norm_pdf x)) (concat (map total_of xs)) /\
    forall k,
      (In k xs ->
       forall e total,
         existsb (String.eqb k) (imts self) = true ->
         getitem2 (residuals self) gmpe k = Ok (Some e) ->
         dict_get e "Total" = Some total ->
         dict_get d k = Some (Some ((ln (2 * PI) + np_mean (np_sq total)) / (2 * ln 2)))) /\
      (~ In k xs -> dict_get d k = dict_get d0 k).
Proof.
  induction xs as [|x xs IH]; intros lr0 d0 lr d H.
  - simpl in H. injection H as <- <-. simpl. rewrite app_nil_r.
    split; [reflexivity|]. intros k. split; [intros []|reflexivity].
  - simpl in H. apply bind_ok in H as ([lr1 d1] & H1 & H).
    destruct (IH _ _ _ _ H) as [Hlr Hd]. clear IH.
    unfold llh_imt in H1. apply bind_ok in H1 as (a & Ha & H1).
    pose proof (llh_asll_total _ _ Ha) as Hx.
    destruct a as [asll|].
    + apply bind_ok in H1 as (v & Hv & H1). injection H1 as <- <-.
      destruct Hx as (-> & Hex & e & He & Htot).
      apply neg_mean_log_closed in Hv as [_ ->].
      split.
      * rewrite Hlr. cbn [map concat]. rewrite map_app, app_assoc. reflexivity.
      * intros k. destruct (Hd k) as [Hin Hout]. split.
        -- intros Hk e' total Hex' He' Htot'.
           destruct (in_dec string_dec k xs) as [Hi|Hn]; [eapply Hin; eauto|].
           destruct Hk as [->|Hk]; [|contradiction].
           rewrite (Hout Hn), dict_get_set_same.
           rewrite He in He'. injection He' as <-. rewrite Htot in Htot'.
           injection Htot' as <-. reflexivity.
        -- intros Hno. rewrite (Hout (fun Hi => Hno (or_intror Hi))).
           apply dict_get_set_other. intros ->. apply Hno. left. reflexivity.
    + injection H1 as <- <-. split.
      * rewrite Hlr. cbn [map concat]. rewrite Hx. reflexivity.
      * intros k. destruct (Hd k) as [Hin Hout]. split.
        -- intros Hk e' total Hex' He' Htot'.
           destruct (in_dec string_dec k xs) as [Hi|Hn]; [eapply Hin; eauto|].
           destruct Hk as [->|Hk]; [|contradiction].
           exfalso. unfold total_of in Hx. rewrite Hex', He', Htot' in Hx.
           subst total. unfold llh_asll in Ha. rewrite Hex', He' in Ha.
           cbn [negb bind] in Ha.
           assert (Htr : truthy (Some e') = true)
             by (destruct e'; [discriminate Htot'|reflexivity]).
           rewrite Htr in Ha. cbn [negb cell_getitem] in Ha.
           apply getitem_ok in Htot'. rewrite Htot' in Ha. discriminate.
        -- intros Hno. apply Hout. intros Hi. apply Hno. right. exact Hi.
Qed.

(** The LLH dict of one model. *)
Lemma llh_gmpe_closed (imts0 : list string) (l : dict (option R)) :
  llh_gmpe self imts0 gmpe = Ok l ->
  concat (map total_of imts0) <> [] /\
  dict_get l "All"
  = Some (Some ((ln (2 * PI) + np_mean (np_sq (concat (map total_of imts0)))) / (2 * ln 2))) /\
  forall imtx e total,
    In imtx imts0 -> imtx <> "All" ->
    existsb (String.eqb imtx) (imts self) = true ->
    getitem2 (residuals self) gmpe imtx = Ok (Some e) ->
    dict_get e "Total" = Some total ->
    dict_get l imtx = Some (Some ((ln (2 * PI) + np_mean (np_sq total)) / (2 * ln 2))).
Proof.
  unfold llh_gmpe. intros H.
  apply bind_ok in H as ([lr d] & Hloop & H).
  apply bind_ok in H as (v & Hv & H). injection H as <-.
  destruct (llh_imt_loop _ _ _ _ _ Hloop) as [Hlr Hd].
  cbn [app] in Hlr. subst lr. apply neg_mean_log_closed in Hv as [Hne ->].
  split; [assumption|]. split; [apply dict_get_set_same|].
  intros imtx e total Hin Hall Hex He Htot.
  rewrite dict_get_set_other by congruence.
  destruct (Hd imtx) as [Hyes _]. eapply Hyes; eauto.
Qed.

End LlhLoop.

(** X5: when [get_loglikelihood_values] returns, the value stored for a
    model and a requested IMT whose total residuals are [z_1 .. z_n] is
    [(ln(2 pi) + mean(z^2)) / (2 ln 2)], and the value under ["All"] is the
    same expression over the total residuals of all the requested IMTs that
    are applicable to the model, taken together; at least one of them is. *)
Theorem llh_closed_form (self : Residuals) (imts0 : list string)
  (llh : dict (dict (option R))) (model_weights : dict R) (gmpe : string) :
  get_loglikelihood_values self imts0 = Ok (llh, model_weights) ->
  In gmpe (dict_keys (gmpe_list self)) ->
  let total_of := fun imtx =>
    if existsb (String.eqb imtx) (imts self) then
      match getitem2 (residuals self) gmpe imtx with
      | Ok (Some e) => match dict_get e "Total" with
                       | Some total => total
                       | None => []
                       end
      | _ => []
      end
    else [] in
  let z := concat (map total_of imts0) in
  z <> [] /\
  llh_all llh gmpe = Ok ((ln (2 * PI) + np_mean (np_sq z)) / (2 * ln 2)) /\
  forall imtx e total,
    In imtx imts0 -> imtx <> "All" -> In imtx (imts self) ->
    getitem2 (residuals self) gmpe imtx = Ok (Some e) ->
    dict_get e "Total" = Some total ->
    getitem2 llh gmpe imtx
    = Ok (Some ((ln (2 * PI) + np_mean (np_sq total)) / (2 * ln 2))).
Proof.
  intros H Hg. cbv zeta.
  unfold get_loglikelihood_values in H.
  apply bind_ok in H as (llh' & Hllh & H).
  apply bind_ok in H as (weights0 & _ & H). injection H as -> _.
  destruct (for_each_set_lookup _ _ _ _ Hllh gmpe) as [Hin _].
  destruct (Hin Hg) as (l & Hl & Hget).
  destruct (llh_gmpe_closed _ _ _ _ Hl) as (Hne & Hall & Himt).
  split; [exact Hne|]. split.
  - unfold llh_all, getitem2, getitem. rewrite Hget. cbn [bind]. rewrite Hall. reflexivity.
  - intros imtx e total Hi Hna Hself He Htot.
    unfold getitem2, getitem. rewrite Hget. cbn [bind].
    rewrite (Himt imtx e total); auto.
    apply existsb_exists. exists imtx. split; [assumption|apply String.eqb_refl].
Qed.

(** Witness for X5: two models with total residuals [0; 0] and [1; 1]. *)
Lemma llh_closed_form_witness :
  exists llh w,
    get_loglikelihood_values residuals_two_models ["PGA"] = Ok (llh, w) /\
    getitem2 llh "H" "PGA" = Ok (Some ((ln (2 * PI) + np_mean (np_sq [1; 1])) / (2 * ln 2))).
Proof.
  destruct llh_two_models_returns as (llh & w & H).
  exists llh, w. split; [exact H|].
  refine (proj2 (proj2 (llh_closed_form residuals_two_models ["PGA"] llh w "H" H _))
            "PGA" [("Total", [1; 1])] [1; 1] _ _ _ _ _);
    simpl; auto; discriminate.
Defined.

(** ** A model without an applicable IMT *)

Lemma llh_imt_skipped (self : Residuals) (gmpe : string) (xs : list string) :
  (forall imtx, In imtx xs ->
     ~ In imtx (imts self) \/
     exists c, getitem2 (residuals self) gmpe imtx = Ok c /\ truthy c = false) ->
  forall st, for_each xs (llh_imt self gmpe) st = Ok st.
Proof.
  induction xs as [|x xs IH]; intros Hskip st; [reflexivity|].
  cbn [for_each].
  assert (Hx : llh_asll self gmpe x = Ok None).
  { unfold llh_asll.
    destruct (existsb (String.eqb x) (imts self)) eqn:E; [|reflexivity].
    cbn [negb]. destruct (Hskip x (or_introl eq_refl)) as [Hno|(c & Hc & Htr)].
    - exfalso. apply Hno. apply existsb_exists in E as (y & Hy & Exy).
      apply String.eqb_eq in Exy. subst y. assumption.
    - rewrite Hc. cbn [bind]. rewrite Htr. reflexivity. }
  unfold llh_imt at 1. destruct st as [lr d]. rewrite Hx. cbn [bind].
  apply IH. intros imtx Hi. apply Hskip. right. assumption.
Qed.

Lemma llh_gmpe_skipped (self : Residuals) (gmpe : string) (imts0 : list string) :
  (forall imtx, In imtx imts0 ->
     ~ In imtx (imts self) \/
     exists c, getitem2 (residuals self) gmpe imtx = Ok c /\ truthy c = false) ->
  llh_gmpe self imts0 gmpe = Raise ZeroDivisionError.
Proof.
  intros Hskip. unfold llh_gmpe.
  rewrite (llh_imt_skipped self gmpe imts0 Hskip). cbn [bind].
  unfold neg_mean_log. cbn [length INR]. rewrite py_div_zero. reflexivity.
Qed.

(** X6: when no requested IMT is applicable to some model (each is missing
    from the IMTs of the analysis, or its entry in the residual store is
    [None] or empty), [get_loglikelihood_values] does not return; it raises
    [ZeroDivisionError] when that model is the first one. In particular an
    empty list of requested IMTs raises for every analysis with a model. *)
Theorem llh_no_applicable_imt (self : Residuals) (imts0 : list string) (gmpe : string) :
  In gmpe (dict_keys (gmpe_list self)) ->
  (forall imtx, In imtx imts0 ->
     ~ In imtx (imts self) \/
     exists c, getitem2 (residuals self) gmpe imtx = Ok c /\ truthy c = false) ->
  (exists e, get_loglikelihood_values self imts0 = Raise e) /\
  (forall rest, dict_keys (gmpe_list self) = gmpe :: rest ->
     get_loglikelihood_values self imts0 = Raise ZeroDivisionError).
Proof.
  intros Hg Hskip.
  pose proof (llh_gmpe_skipped self gmpe imts0 Hskip) as Hraise.
  split.
  - destruct (get_loglikelihood_values self imts0) as [[llh w]|e] eqn:H;
      [exfalso|exists e; reflexivity].
    unfold get_loglikelihood_values in H.
    apply bind_ok in H as (llh' & Hllh & _).
    destruct (for_each_set_lookup _ _ _ _ Hllh gmpe) as [Hin _].
    destruct (Hin Hg) as (l & Hl & _). rewrite Hraise in Hl. discriminate.
  - intros rest Hkeys. unfold get_loglikelihood_values. rewrite Hkeys.
    cbn [for_each]. rewrite Hraise. reflexivity.
Qed.

(** Witness for X6: the example analysis asked for ["SA(2.0)"] alone. *)
Lemma llh_no_applicable_imt_witness :
  get_loglikelihood_values residuals_mixed ["SA(2.0)"] = Raise ZeroDivisionError.
Proof.
  refine (proj2 (llh_no_applicable_imt residuals_mixed ["SA(2.0)"] "G" _ _) [] eq_refl).
  - simpl. auto.
  - intros imtx [<-|[]]. right. exists None. split; reflexivity.
Defined.

(** ** Euclidean distance-based ranking: degenerate and corrected data *)

Lemma edr_information_no_contexts (self : Residuals) (gmpe : string) :
  contexts self = [] -> _get_edr_gmpe_information self gmpe = Ok ([], [], []).
Proof.
  intros Hc. unfold _get_edr_gmpe_information. rewrite Hc.
  induction (imts self) as [|x xs IH]; [reflexivity|]. exact IH.
Qed.

Lemma get_edr_no_values (norm_cdf : R -> R) (bandwidth multiplier : R) :
  _get_edr norm_cdf [] [] [] bandwidth multiplier = Raise ValueError.
Proof. reflexivity. Qed.

(** X7: after [get_residuals] on a database without events, the EDR of an
    analysis with at least one model raises [ValueError] (the maximum of an
    empty array). *)
Theorem edr_of_empty_database (imt_period : string -> R)
  (convert_accel_units : list R -> list R) (norm_cdf : R -> R)
  (self0 : Residuals) (normalise : bool) (bandwidth multiplier : R) :
  gmpe_list self0 <> [] ->
  exists self,
    get_residuals imt_period convert_accel_units self0 [] normalise = Ok self /\
    contexts self = [] /\
    get_edr_values norm_cdf self bandwidth multiplier = Raise ValueError.
Proof.
  intros Hne. exists (set_contexts self0 []).
  split; [reflexivity|]. split; [reflexivity|].
  unfold get_edr_values. cbn [gmpe_list set_contexts].
  destruct (gmpe_list self0) as [|[g m] rest]; [congruence|].
  cbn [dict_keys map fst for_each].
  rewrite edr_information_no_contexts by reflexivity.
  cbn [bind]. rewrite get_edr_no_values. reflexivity.
Qed.

(** Witness for X7: the example state before any event. *)
Lemma edr_of_empty_database_witness :
  exists self,
    get_residuals (fun _ => 2) (fun a => a) residuals_mixed_init [] true = Ok self /\
    contexts self = [] /\
    get_edr_values (fun x => x) self 0.01 3 = Raise ValueError.
Proof.
  apply (edr_of_empty_database (fun _ => 2) (fun a => a) (fun x => x)
           residuals_mixed_init true 0.01 3).
  discriminate.
Defined.

(** *** The correction factor kappa *)

Lemma np_sum_poly (l : list (R * R)) (c0 c1 c2 c3 c4 c5 : R) :
  np_sum (map (fun p => c0 + c1 * fst p + c2 * snd p + c3 * (fst p * fst p)
                        + c4 * (snd p * snd p) + c5 * (fst p * snd p)) l)
  = c0 * INR (length l) + c1 * np_sum (map fst l) + c2 * np_sum (map snd l)
    + c3 * np_sum (map (fun p => fst p * fst p) l)
    + c4 * np_sum (map (fun p => snd p * snd p) l)
    + c5 * np_sum (map (fun p => fst p * snd p) l).
Proof.
  induction l as [|p l IH].
  - simpl. rewrite !np_sum_nil. ring.
  - cbn [map]. rewrite !np_sum_cons, IH.
    change (length (p :: l)) with (S (length l)). rewrite S_INR. ring.
Qed.

Lemma np_sum_sq_nonneg (l : list R) : 0 <= np_sum (np_sq l).
Proof.
  induction l as [|x l IH]; simpl.
  - rewrite np_sum_nil. lra.
  - rewrite np_sum_cons. pose proof (pow2_ge_0 x). fold (np_sq l). lra.
Qed.

Lemma map_snd_combine_eq {A B : Type} (ks : list A) (vs : list B) :
  length ks = length vs -> map snd (combine ks vs) = vs.
Proof.
  revert vs; induction ks as [|k ks IH]; intros [|v vs]; simpl; intros H;
    try discriminate; [reflexivity|].
  f_equal. apply IH. lia.
Qed.

(** The arrays of [_get_edr_kappa], record by record. *)
Lemma kappa_cross_eq (f g : R -> R) (a y : list R) :
  map (fun p => fst p * snd p) (combine (map f a) (map g y))
  = map (fun p => f (fst p) * g (snd p)) (combine a y).
Proof.
  revert y; induction a as [|x a IH]; intros [|z y]; simpl; try reflexivity.
  f_equal. apply IH.
Qed.

Lemma kappa_corrected_eq (h : R -> R) (a y : list R) :
  length a = length y ->
  map (fun p => fst p - snd p)
    (combine a
       (map (fun p => fst p - snd p)
          (combine y (map (fun p => fst p - snd p) (combine (map h a) a)))))
  = map (fun p => fst p - (snd p - (h (fst p) - fst p))) (combine a y).
Proof.
  revert y; induction a as [|x a IH]; intros [|z y]; simpl; intros H;
    try discriminate; [reflexivity|].
  f_equal. apply IH. lia.
Qed.

(** With arrays of one length [_get_edr_kappa] returns the quotient of the
    two sums of squares. *)
Lemma get_edr_kappa_value (obs expected : list R) :
  length obs = length expected ->
  let mu_a := np_mean obs in
  let mu_y := np_mean expected in
  let sxy := np_sum (map (fun p => (fst p - mu_a) * (snd p - mu_y)) (combine obs expected)) in
  let sxx := np_sum (np_sq (map (fun x => x - mu_a) obs)) in
  let b_1 := sxy / sxx in
  let b_0 := mu_y - b_1 * mu_a in
  _get_edr_kappa obs expected
  = Ok (np_sum (map (fun p => (fst p - snd p) ^ 2) (combine obs expected))
        / np_sum (map (fun p => (b_0 + b_1 * fst p - snd p) ^ 2) (combine obs expected))).
Proof.
  intros Hlen. cbv zeta. unfold _get_edr_kappa, np_mul, np_sub.
  rewrite broadcast_same_length by (rewrite !length_map; assumption).
  cbn [bind]. rewrite kappa_cross_eq.
  rewrite broadcast_same_length by (rewrite !length_map; reflexivity).
  cbn [bind].
  rewrite broadcast_same_length
    by (rewrite length_map, length_combine, !length_map, Nat.min_id; auto).
  cbn [bind].
  rewrite broadcast_same_length by assumption. cbn [bind].
  rewrite broadcast_same_length
    by (rewrite length_map, length_combine, length_map, length_combine, !length_map,
          Nat.min_id, <- Hlen, Nat.min_id; reflexivity).
  cbn [bind]. rewrite kappa_corrected_eq by assumption.
  unfold np_sq. rewrite !map_map. do 3 f_equal.
  apply map_ext. intros p. ring.
Qed.

(** X8: for observed and expected arrays of one length, with observations
    that are not all equal, [_get_edr_kappa] returns; the sum of squares
    [de_orig = sum((obs - expected)^2)] exceeds the corrected one [de_corr] by
    [(sxx - sxy)^2 / sxx + n * (mean(obs) - mean(expected))^2], so
    [0 <= de_corr <= de_orig]; and when [de_corr] is not zero the value
    returned is [kappa = de_orig / de_corr >= 1]. *)
Theorem edr_kappa_at_least_one (obs expected : list R) :
  length obs = length expected ->
  np_sum (np_sq (map (fun x => x - np_mean obs) obs)) <> 0 ->
  let mu_a := np_mean obs in
  let mu_y := np_mean expected in
  let sxx := np_sum (np_sq (map (fun x => x - mu_a) obs)) in
  let sxy := np_sum (map (fun p => (fst p - mu_a) * (snd p - mu_y)) (combine obs expected)) in
  let de_orig := np_sum (map (fun p => (fst p - snd p) ^ 2) (combine obs expected)) in
  exists kappa de_corr,
    _get_edr_kappa obs expected = Ok kappa /\
    de_orig - de_corr
    = (sxx - sxy) ^ 2 / sxx + INR (length obs) * (mu_a - mu_y) ^ 2 /\
    0 <= de_corr <= de_orig /\
    (0 < de_corr -> kappa = de_orig / de_corr /\ 1 <= kappa).
Proof.
  intros Hlen Hsxx. cbv zeta.
  rewrite (get_edr_kappa_value obs expected Hlen). cbv zeta.
  set (mu_a := np_mean obs) in *. set (mu_y := np_mean expected) in *.
  set (sxy := np_sum (map (fun p => (fst p - mu_a) * (snd p - mu_y)) (combine obs expected))).
  set (sxx := np_sum (np_sq (map (fun x => x - mu_a) obs))) in *.
  set (b_1 := sxy / sxx). set (b_0 := mu_y - b_1 * mu_a).
  set (de_orig := np_sum (map (fun p => (fst p - snd p) ^ 2) (combine obs expected))).
  set (de_corr := np_sum (map (fun p => (b_0 + b_1 * fst p - snd p) ^ 2)
                            (combine obs expected))).
  assert (Hn : INR (length obs) <> 0).
  { intros E. apply Hsxx. destruct obs; [reflexivity|].
    change (length (r :: obs)) with (S (length obs)) in E. rewrite S_INR in E.
    pose proof (pos_INR (length obs)). lra. }
  set (l := combine obs expected) in *.
  set (n := INR (length obs)) in *.
  assert (Ll : INR (length l) = n).
  { unfold l, n. rewrite length_combine, <- Hlen, Nat.min_id. reflexivity. }
  set (A2 := np_sum (map (fun p => fst p * fst p) l)).
  set (Y2 := np_sum (map (fun p => snd p * snd p) l)).
  set (AY := np_sum (map (fun p => fst p * snd p) l)).
  assert (HA1 : np_sum (map fst l) = n * mu_a).
  { unfold l. rewrite map_fst_combine_eq by assumption.
    unfold mu_a, np_mean. fold n. field. assumption. }
  assert (HY1 : np_sum (map snd l) = n * mu_y).
  { unfold l. rewrite map_snd_combine_eq by assumption.
    unfold mu_y, np_mean. rewrite <- Hlen. fold n. field. assumption. }
  assert (Esxx : sxx = A2 - n * mu_a ^ 2).
  { unfold sxx, np_sq. rewrite map_map.
    rewrite <- (map_fst_combine_eq obs expected Hlen) at 1. rewrite map_map. fold l.
    replace (np_sum (map (fun x => (fst x - mu_a) ^ 2) l))
      with (np_sum (map (fun p => mu_a ^ 2 + (- 2 * mu_a) * fst p + 0 * snd p
                                  + 1 * (fst p * fst p) + 0 * (snd p * snd p)
                                  + 0 * (fst p * snd p)) l))
      by (f_equal; apply map_ext; intros p; ring).
    rewrite np_sum_poly, HA1, Ll. fold A2. ring. }
  assert (Esxy : sxy = AY - n * mu_a * mu_y).
  { unfold sxy. fold l.
    replace (np_sum (map (fun p => (fst p - mu_a) * (snd p - mu_y)) l))
      with (np_sum (map (fun p => mu_a * mu_y + (- mu_y) * fst p + (- mu_a) * snd p
                                  + 0 * (fst p * fst p) + 0 * (snd p * snd p)
                                  + 1 * (fst p * snd p)) l))
      by (f_equal; apply map_ext; intros p; ring).
    rewrite np_sum_poly, HA1, HY1, Ll. fold AY. ring. }
  assert (Eorig : de_orig = A2 - 2 * AY + Y2).
  { unfold de_orig.
    replace (np_sum (map (fun p => (fst p - snd p) ^ 2) l))
      with (np_sum (map (fun p => 0 + 0 * fst p + 0 * snd p
                                  + 1 * (fst p * fst p) + 1 * (snd p * snd p)
                                  + (- 2) * (fst p * snd p)) l))
      by (f_equal; apply map_ext; intros p; ring).
    rewrite np_sum_poly. fold A2 Y2 AY. ring. }
  assert (Ecorr : de_corr
                  = n * b_0 ^ 2 + 2 * b_0 * b_1 * (n * mu_a) - 2 * b_0 * (n * mu_y)
                    + b_1 ^ 2 * A2 + Y2 - 2 * b_1 * AY).
  { unfold de_corr.
    replace (np_sum (map (fun p => (b_0 + b_1 * fst p - snd p) ^ 2) l))
      with (np_sum (map (fun p => b_0 ^ 2 + (2 * b_0 * b_1) * fst p + (- 2 * b_0) * snd p
                                  + b_1 ^ 2 * (fst p * fst p) + 1 * (snd p * snd p)
                                  + (- 2 * b_1) * (fst p * snd p)) l))
      by (f_equal; apply map_ext; intros p; ring).
    rewrite np_sum_poly, HA1, HY1, Ll. fold A2 Y2 AY. ring. }
  assert (Hsxx_pos : 0 < sxx).
  { pose proof (np_sum_sq_nonneg (map (fun x => x - mu_a) obs)) as H. fold sxx in H. lra. }
  assert (Hcorr_nonneg : 0 <= de_corr).
  { unfold de_corr.
    rewrite <- (map_map (fun p => b_0 + b_1 * fst p - snd p) (fun x => x ^ 2)).
    apply np_sum_sq_nonneg. }
  assert (Hb1 : b_1 * sxx = sxy) by (unfold b_1; field; lra).
  assert (Hdiff : de_orig - de_corr = (sxx - sxy) ^ 2 / sxx + n * (mu_a - mu_y) ^ 2).
  { apply (Rmult_eq_reg_r sxx); [|lra].
    replace (((sxx - sxy) ^ 2 / sxx + n * (mu_a - mu_y) ^ 2) * sxx)
      with ((sxx - sxy) ^ 2 + n * (mu_a - mu_y) ^ 2 * sxx) by (field; lra).
    assert (EA2 : A2 = sxx + n * mu_a ^ 2) by lra.
    assert (EAY : AY = sxy + n * mu_a * mu_y) by lra.
    rewrite Eorig, Ecorr, EA2, EAY, <- Hb1. unfold b_0. ring. }
  do 2 eexists. split; [reflexivity|].
  split; [exact Hdiff|].
  assert (Hge : 0 <= de_orig - de_corr).
  { rewrite Hdiff. apply Rplus_le_le_0_compat.
    - unfold Rdiv. apply Rmult_le_pos; [apply pow2_ge_0|].
      left. apply Rinv_0_lt_compat. assumption.
    - apply Rmult_le_pos; [unfold n; apply pos_INR | apply pow2_ge_0]. }
  split; [lra|].
  intros Hpos. split; [reflexivity|]. apply (Rmult_le_reg_r de_corr); [assumption|].
  unfold Rdiv. rewrite Rmult_assoc, Rinv_l by lra. lra.
Qed.

(** Witness for X8: three records. *)
Lemma edr_kappa_at_least_one_witness :
  exists kappa de_corr,
    _get_edr_kappa [0; 1; 2] [1; 1; 4] = Ok kappa /\
    0 <= de_corr
    <= np_sum (map (fun p => (fst p - snd p) ^ 2) (combine [0; 1; 2] [1; 1; 4])).
Proof.
  destruct (edr_kappa_at_least_one [0; 1; 2] [1; 1; 4] eq_refl)
    as (kappa & de_corr & H1 & _ & H2 & _).
  - unfold np_mean, np_sq, np_sum. simpl. lra.
  - exists kappa, de_corr. auto.
Defined.

(** ** Shape and symmetry of the covariance matrix *)

Lemma set_slice_length (a : list R) (i n : nat) (v a' : list R) :
  set_slice a i n v = Ok a' -> length a' = length a.
Proof.
  unfold set_slice. intros H.
  destruct (Nat.eqb_spec (length v) (Nat.min (i + n) (length a) - Nat.min i (length a)))
    as [E|_].
  - injection H as <-. rewrite !length_app, length_firstn, length_skipn. lia.
  - destruct (length v =? 1)%nat; [|discriminate].
    injection H as <-.
    rewrite !length_app, length_firstn, length_skipn, repeat_length. lia.
Qed.

Lemma set_col_slice_length (z : list (list R)) (i n j : nat) (v : list R)
  (z' : list (list R)) :
  set_col_slice z i n j v = Ok z' -> length z' = length z.
Proof.
  unfold set_col_slice. intros H. apply bind_ok in H as (vals & Hv & H).
  injection H as <-.
  assert (Lv : length vals = (Nat.min (i + n) (length z) - Nat.min i (length z))%nat).
  { destruct (Nat.eqb_spec (length v)
                (Nat.min (i + n) (length z) - Nat.min i (length z))) as [E|_].
    - injection Hv as <-. assumption.
    - destruct (length v =? 1)%nat; [|discriminate].
      injection Hv as <-. apply repeat_length. }
  rewrite !length_app, length_map, length_combine, !length_firstn, !length_skipn, Lv. lia.
Qed.

Lemma dotv_comm (u v : list R) : dotv u v = dotv v u.
Proof.
  unfold dotv. revert v; induction u as [|x u IH]; intros [|y v]; simpl; try reflexivity.
  rewrite !np_sum_cons, IH. ring.
Qed.

Lemma map_seq_nth {A B : Type} (f : A -> B) (l : list A) (d : A) :
  map f l = map (fun k => f (nth k l d)) (seq 0 (length l)).
Proof.
  induction l as [|x l IH]; simpl; [reflexivity|].
  f_equal. rewrite <- seq_shift, map_map. exact IH.
Qed.

Lemma nth_map_seq {B : Type} (f : nat -> B) (n i : nat) (d : B) :
  (i < n)%nat -> nth i (map f (seq 0 n)) d = f i.
Proof.
  intros Hi. rewrite (nth_indep _ d (f 0%nat)) by (rewrite length_map, length_seq; lia).
  rewrite map_nth, seq_nth by lia. reflexivity.
Qed.

Lemma combine_map_same {A B C : Type} (F : A -> B) (G : A -> C) (s : list A) :
  combine (map F s) (map G s) = map (fun a => (F a, G a)) s.
Proof. induction s as [|a s IH]; simpl; [reflexivity|]. f_equal. exact IH. Qed.

(** [diag(d) + z z^T] entry by entry, for [n] standard deviations and [n]
    rows of [z]. *)
Lemma covariance_entries (d : list R) (z : list (list R)) :
  length z = length d ->
  mat_add (np_diag d) (dot_T z)
  = map (fun a => map (fun b => (if (a =? b)%nat then nth a d 0 else 0)
                                + dotv (nth a z []) (nth b z []))
                      (seq 0 (length d)))
        (seq 0 (length d)).
Proof.
  intros Hlen. unfold mat_add, np_diag, dot_T.
  rewrite (map_seq_nth (fun ra => map (fun rb => dotv ra rb) z) z []), Hlen.
  rewrite combine_map_same, map_map. apply map_ext. intros a. cbn [fst snd].
  rewrite (map_seq_nth (fun rb => dotv (nth a z []) rb) z []), Hlen.
  rewrite combine_map_same, map_map. reflexivity.
Qed.

Lemma build_observations_length (imtx : string) (nrecs : nat) (cs : list Context) :
  forall st st',
    for_each cs (build_observations imtx) st = Ok st' ->
    length (fst st) = nrecs -> length (fst st') = nrecs.
Proof.
  intros st st' H.
  refine (for_each_preserves (build_observations imtx)
            (fun s => length (fst s) = nrecs) cs _ st st' H).
  intros [o i] c [o' i'] Hb Hs. unfold build_observations in Hb.
  apply bind_ok in Hb as (ob & _ & Hb). apply bind_ok in Hb as (o2 & Hset & Hb).
  injection Hb as <- _. cbn [fst] in *.
  rewrite (set_slice_length _ _ _ _ _ Hset). assumption.
Qed.

Lemma build_event_length (gmpe imtx : string) (nrecs : nat) (jcs : list (nat * Context)) :
  forall st st',
    for_each jcs (build_event gmpe imtx) st = Ok st' ->
    (let '(r, z, e, _) := st in
     length r = nrecs /\ length z = nrecs /\ length e = nrecs) ->
    (let '(r, z, e, _) := st' in
     length r = nrecs /\ length z = nrecs /\ length e = nrecs).
Proof.
  intros st st' H.
  refine (for_each_preserves (build_event gmpe imtx)
            (fun s => let '(r, z, e, _) := s in
                      length r = nrecs /\ length z = nrecs /\ length e = nrecs)
            jcs _ st st' H).
  intros [[[r z] e] i] [j c] [[[r' z'] e'] i'] Hb (Lr & Lz & Le).
  unfold build_event in Hb.
  apply bind_ok in Hb as (ec & _ & Hb).
  apply bind_ok in Hb as (hi & _ & Hb). apply bind_ok in Hb as (hr & _ & Hb).
  destruct (negb hi && negb hr).
  - apply bind_ok in Hb as (total & _ & Hb). apply bind_ok in Hb as (r2 & Hr & Hb).
    apply bind_ok in Hb as (mean & _ & Hb). apply bind_ok in Hb as (e2 & He & Hb).
    injection Hb as <- <- <- _.
    rewrite (set_slice_length _ _ _ _ _ Hr), (set_slice_length _ _ _ _ _ He). auto.
  - apply bind_ok in Hb as (intra & _ & Hb). apply bind_ok in Hb as (r2 & Hr & Hb).
    apply bind_ok in Hb as (mean & _ & Hb). apply bind_ok in Hb as (e2 & He & Hb).
    apply bind_ok in Hb as (inter & _ & Hb). apply bind_ok in Hb as (z2 & Hz & Hb).
    injection Hb as <- <- <- _.
    rewrite (set_slice_length _ _ _ _ _ Hr), (set_slice_length _ _ _ _ _ He).
    assert (Lz2 : length z2 = length z).
    { destruct (length inter =? 1)%nat; eapply set_col_slice_length; eauto. }
    rewrite Lz2. auto.
Qed.

(** X9: whenever [_build_matrices] returns, the observation and expected
    vectors have one entry per record, the covariance matrix is square with
    one row and one column per record, and it is symmetric. *)
Theorem build_matrices_symmetric (contexts0 : list Context) (gmpe imtx : string)
  (observations : list R) (v_mat : list (list R)) (expected_mat : list R)
  (neqs nrecs : nat) :
  _build_matrices contexts0 gmpe imtx
  = Ok (observations, v_mat, expected_mat, neqs, nrecs) ->
  neqs = length contexts0 /\
  nrecs = list_sum (map Num_Sites contexts0) /\
  length observations = nrecs /\ length expected_mat = nrecs /\
  length v_mat = nrecs /\
  (forall row, In row v_mat -> length row = nrecs) /\
  forall i j, (i < nrecs)%nat -> (j < nrecs)%nat ->
    nth j (nth i v_mat []) 0 = nth i (nth j v_mat []) 0.
Proof.
  unfold _build_matrices. intros H.
  apply bind_ok in H as ([obs i1] & Hobs & H).
  apply bind_ok in H as ([[[r z] e] i2] & Hev & H).
  injection H as <- <- <- <- <-.
  rewrite fold_left_add_acc in *. cbn [Nat.add] in *.
  set (n := list_sum (map Num_Sites contexts0)) in *.
  pose proof (build_observations_length imtx n _ _ _ Hobs) as Lobs.
  cbn [fst] in Lobs. specialize (Lobs (repeat_length 0 n)).
  pose proof (build_event_length gmpe imtx n _ _ _ Hev) as Lev.
  cbv beta iota in Lev.
  destruct Lev as (Lr & Lz & Le).
  { unfold np_zeros, np_zeros2. rewrite !repeat_length. auto. }
  rewrite covariance_entries by (rewrite length_np_sq; lia).
  rewrite length_np_sq, Lr.
  split; [reflexivity|]. split; [reflexivity|]. split; [assumption|].
  split; [assumption|]. split; [rewrite length_map, length_seq; reflexivity|].
  split.
  - intros row Hrow. apply in_map_iff in Hrow as (a & <- & _).
    rewrite length_map, length_seq. reflexivity.
  - intros i j Hi Hj.
    rewrite (nth_map_seq _ n i []) by assumption.
    rewrite (nth_map_seq _ n j []) by assumption.
    rewrite (nth_map_seq _ n j 0) by assumption.
    rewrite (nth_map_seq _ n i 0) by assumption.
    rewrite (dotv_comm (nth i z []) (nth j z [])).
    destruct (Nat.eqb_spec i j) as [->|Hne].
    + rewrite Nat.eqb_refl. reflexivity.
    + destruct (Nat.eqb_spec j i) as [->|_]; [contradiction|reflexivity].
Qed.

(** Witness for X9: the example event. *)
Lemma build_matrices_symmetric_witness :
  exists observations v_mat expected_mat,
    _build_matrices [event_mixed] "G" "PGA" = Ok (observations, v_mat, expected_mat, 1, 2)%nat /\
    length v_mat = 2%nat /\
    nth 1 (nth 0 v_mat []) 0 = nth 0 (nth 1 v_mat []) 0.
Proof.
  pose proof (build_matrices_spec [event_mixed] "G" "PGA"
                (Forall_cons _ event_mixed_shaped (Forall_nil _))) as Hb.
  do 3 eexists. split; [exact Hb|].
  destruct (build_matrices_symmetric _ _ _ _ _ _ _ _ Hb) as (_ & _ & _ & _ & Hl & _ & Hs).
  split; [exact Hl|]. apply Hs; simpl; lia.
Defined.

(** ** The cluster bootstrap *)

Lemma mapM_In {A B : Type} (f : A -> result B) (l : list A) (ys : list B) (x : A) :
  mapM f l = Ok ys -> In x l -> exists y, f x = Ok y /\ In y ys.
Proof.
  revert ys; induction l as [|a l IH]; simpl; intros ys H Hx; [contradiction|].
  apply bind_ok in H as (y & Hy & H). apply bind_ok in H as (ys' & Hys & H).
  injection H as <-. destruct Hx as [->|Hx].
  - exists y. split; [assumption|left; reflexivity].
  - destruct (IH _ Hys Hx) as (y' & Hy' & Hin). exists y'. split; [assumption|right; assumption].
Qed.

Lemma mapM_In_result {A B : Type} (f : A -> result B) (l : list A) (ys : list B) (y : B) :
  mapM f l = Ok ys -> In y ys -> exists x, In x l /\ f x = Ok y.
Proof.
  revert ys; induction l as [|a l IH]; simpl; intros ys H Hy.
  - injection H as <-. contradiction.
  - apply bind_ok in H as (y0 & Hy0 & H). apply bind_ok in H as (ys' & Hys & H).
    injection H as <-. destruct Hy as [<-|Hy].
    + exists a. auto.
    + destruct (IH _ Hys Hy) as (x & Hx & Hfx). exists x. auto.
Qed.

Lemma list_getitem_In {A : Type} (l : list A) (i : nat) (x : A) :
  list_getitem l i = Ok x -> In x l.
Proof.
  unfold list_getitem. destruct (nth_error l i) eqn:E; [|discriminate].
  intros H. injection H as <-. eapply nth_error_In, E.
Qed.

(** [get_multivariate_ll] does not test for a pair marked [None]: on events
    whose expected motions are [None] for the pair it does not return. *)
Lemma get_multivariate_ll_unguarded (cs : list Context) (gmpe imtx : string) (v : R) :
  cs <> [] ->
  (forall c, In c cs -> getitem2 (Expected c) gmpe imtx = Ok None) ->
  get_multivariate_ll cs gmpe imtx <> Ok v.
Proof.
  intros Hne Hnone H. unfold get_multivariate_ll in H.
  apply bind_ok in H as ([[[[o vm] e] neqs] nrecs] & Hb & _).
  unfold _build_matrices in Hb.
  apply bind_ok in Hb as ([obs i1] & _ & Hb).
  apply bind_ok in Hb as ([[[r z] e'] i2] & Hev & _).
  destruct cs as [|c cs]; [congruence|].
  cbn [length seq combine for_each] in Hev.
  apply bind_ok in Hev as (st1 & Hstep & _).
  unfold build_event in Hstep. rewrite (Hnone c (or_introl eq_refl)) in Hstep.
  discriminate.
Qed.

(** X10: the bootstrap has no guard for a pair marked [None]: when the
    expected motions of the events are [None] for a model and an IMT of the
    analysis (the IMT is outside the period range of the model), a bootstrap
    with at least one draw over at least one event does not return, while
    [get_multivariate_loglikelihood_values] stores [0.0] for the pair. *)
Theorem bootstrap_unguarded (draws : nat -> list nat) (self : Residuals)
  (number_bootstraps : nat) (sum_imts : bool) (gmpe imtx : string) :
  In gmpe (dict_keys (gmpe_list self)) -> In imtx (imts self) ->
  contexts self <> [] ->
  (forall j, length (draws j) = length (contexts self)) ->
  (forall c, In c (contexts self) -> getitem2 (Expected c) gmpe imtx = Ok None) ->
  number_bootstraps <> 0%nat ->
  exists e,
    bootstrap_multivariate_llhvalues draws self number_bootstraps sum_imts false
    = Bootstrapped (Raise e).
Proof.
  intros Hg Hi Hctx Hdraw Hnone Hnb.
  unfold bootstrap_multivariate_llhvalues.
  match goal with |- exists e, Bootstrapped ?c = _ => destruct c as [r|e] eqn:H end;
    [exfalso|exists e; reflexivity].
  apply bind_ok in H as (samples & Hs & _).
  destruct (mapM_In _ _ _ 0%nat Hs) as (s & Hboot & _).
  { apply in_seq. lia. }
  unfold bootstrap_llh in Hboot.
  apply bind_ok in Hboot as (new_contexts & Hnew & Hboot).
  destruct (mapM_In _ _ _ gmpe Hboot Hg) as (row & Hrow & _).
  destruct (mapM_In _ _ _ imtx Hrow Hi) as (v & Hv & _).
  apply (get_multivariate_ll_unguarded new_contexts gmpe imtx v); [| |exact Hv].
  - intros E. subst new_contexts. apply mapM_length in Hnew. simpl in Hnew.
    rewrite Hdraw in Hnew. destruct (contexts self); [congruence|discriminate].
  - intros c Hc. destruct (mapM_In_result _ _ _ c Hnew Hc) as (idx & _ & Hget).
    apply Hnone. eapply list_getitem_In, Hget.
Qed.

(** Witness for X10: the example analysis, where ["SA(2.0)"] is outside the
    period range of the model. *)
Lemma bootstrap_unguarded_witness :
  exists e,
    bootstrap_multivariate_llhvalues (fun _ => [0%nat]) residuals_mixed 1 false false
    = Bootstrapped (Raise e).
Proof.
  apply (bootstrap_unguarded (fun _ => [0%nat]) residuals_mixed 1 false "G" "SA(2.0)").
  - simpl. auto.
  - simpl. auto.
  - discriminate.
  - reflexivity.
  - intros c [<-|[]]. reflexivity.
  - discriminate.
Defined.

Lemma mapM_seq_nth {B : Type} (f : nat -> result B) (n : nat) (ys : list B) (d : B) :
  mapM f (seq 0 n) = Ok ys ->
  length ys = n /\ forall j, (j < n)%nat -> f j = Ok (nth j ys d).
Proof.
  intros H. split.
  - rewrite (mapM_length _ _ _ H). apply length_seq.
  - intros j Hj. pose proof (mapM_nth _ _ _ 0%nat d H j) as Hn.
    rewrite length_seq, seq_nth in Hn by assumption. apply Hn, Hj.
Qed.

(** The values of one bootstrap sample, by model and IMT. *)
Lemma bootstrap_llh_values (isamp : list nat) (contexts0 : list Context)
  (gmpes imts0 : list string) (sample : list (list R)) :
  bootstrap_llh isamp contexts0 gmpes imts0 = Ok sample ->
  exists new_contexts,
    mapM (list_getitem contexts0) isamp = Ok new_contexts /\
    length sample = length gmpes /\
    forall i, (i < length gmpes)%nat ->
      length (nth i sample []) = length imts0 /\
      forall k, (k < length imts0)%nat ->
        get_multivariate_ll new_contexts (nth i gmpes "") (nth k imts0 "")
        = Ok (nth k (nth i sample []) 0).
Proof.
  unfold bootstrap_llh. intros H.
  apply bind_ok in H as (new_contexts & Hnew & H).
  exists new_contexts. split; [assumption|].
  split; [apply (mapM_length _ _ _ H)|].
  intros i Hi. pose proof (mapM_nth _ _ _ "" [] H i Hi) as Hrow. cbv beta in Hrow.
  split; [apply (mapM_length _ _ _ Hrow)|].
  intros k Hk. apply (mapM_nth _ _ _ "" 0 Hrow k Hk).
Qed.

(** X11: with [parallelize] set the bootstrap raises [NotImplementedError].
    Otherwise, for at least one bootstrap (and at least one IMT when summing
    over the IMTs), if the likelihoods of every draw can be computed, the
    bootstrap returns the distinctiveness of a cube [outputs] with one row
    per model, one column per IMT and one entry per draw, and
    [outputs[i][k][j]] is the multivariate log-likelihood of model [i] and
    IMT [k] on the events of draw [j]. *)
Theorem bootstrap_returns_cube (draws : nat -> list nat) (self : Residuals)
  (number_bootstraps : nat) (sum_imts : bool) :
  number_bootstraps <> 0%nat ->
  (sum_imts = true -> imts self <> []) ->
  (forall j, (j < number_bootstraps)%nat ->
     exists sample,
       bootstrap_llh (draws j) (contexts self) (dict_keys (gmpe_list self)) (imts self)
       = Ok sample) ->
  bootstrap_multivariate_llhvalues draws self number_bootstraps sum_imts true
  = NotImplementedError /\
  exists distinctiveness outputs,
    bootstrap_multivariate_llhvalues draws self number_bootstraps sum_imts false
    = Bootstrapped (Ok (distinctiveness, outputs)) /\
    get_distinctiveness self outputs number_bootstraps sum_imts = Ok distinctiveness /\
    length outputs = length (gmpe_list self) /\
    (forall o, In o outputs ->
       length o = length (imts self) /\
       forall a, In a o -> length a = number_bootstraps) /\
    forall i k j,
      (i < length (gmpe_list self))%nat -> (k < length (imts self))%nat ->
      (j < number_bootstraps)%nat ->
      exists new_contexts,
        mapM (list_getitem (contexts self)) (draws j) = Ok new_contexts /\
        get_multivariate_ll new_contexts (nth i (dict_keys (gmpe_list self)) "")
          (nth k (imts self) "")
        = Ok (nth j (nth k (nth i outputs []) []) 0).
Proof.
  intros Hnb Hsum Hdraws. split; [reflexivity|].
  unfold bootstrap_multivariate_llhvalues.
  destruct (mapM_total
              (fun j => bootstrap_llh (draws j) (contexts self)
                          (dict_keys (gmpe_list self)) (imts self))
              (seq 0 number_bootstraps)) as [samples Hs].
  { intros j Hj. apply in_seq in Hj. apply Hdraws. lia. }
  rewrite Hs. cbn [bind].
  destruct (mapM_seq_nth _ _ _ [] Hs) as [Ls Hsample].
  set (ng := length (dict_keys (gmpe_list self))).
  set (ni := length (imts self)).
  set (outputs :=
         map (fun i => map (fun k => map (fun sample => nth k (nth i sample []) 0) samples)
                         (seq 0 ni))
             (seq 0 ng)).
  assert (Hng : ng = length (gmpe_list self)) by (unfold ng, dict_keys; apply length_map).
  assert (Lout : length outputs = length (gmpe_list self)).
  { unfold outputs. rewrite length_map, length_seq. exact Hng. }
  assert (Hshape : forall o, In o outputs ->
            length o = ni /\ forall a, In a o -> length a = number_bootstraps).
  { intros o Ho. unfold outputs in Ho. apply in_map_iff in Ho as (i & <- & _).
    split; [rewrite length_map, length_seq; reflexivity|].
    intros a Ha. apply in_map_iff in Ha as (k & <- & _).
    rewrite length_map. exact Ls. }
  destruct (get_distinctiveness_returns self outputs number_bootstraps sum_imts Lout)
    as [D HD]; try assumption.
  { intros o Ho. apply Hshape, Ho. }
  rewrite HD. cbn [bind]. exists D, outputs.
  split; [reflexivity|]. split; [exact HD|]. split; [exact Lout|].
  split; [exact Hshape|].
  intros i k j Hi Hk Hj.
  destruct (bootstrap_llh_values _ _ _ _ _ (Hsample j Hj)) as (nc & Hnc & _ & Hval).
  exists nc. split; [exact Hnc|].
  destruct (Hval i) as [_ Hik]; [fold ng; lia|].
  rewrite (Hik k Hk). f_equal.
  unfold outputs.
  rewrite (nth_map_seq _ ng i []) by lia.
  rewrite (nth_map_seq _ ni k []) by assumption.
  set (f := fun sample : list (list R) => nth k (nth i sample []) 0).
  rewrite (nth_indep (map f samples) 0 (f [])) by (rewrite length_map; lia).
  rewrite map_nth. reflexivity.
Qed.

Lemma bootstrap_llh_pga :
  exists sample, bootstrap_llh [0%nat] [event_mixed] ["G"] ["PGA"] = Ok sample.
Proof.
  destruct (get_multivariate_ll_returns [event_mixed] "G" "PGA"
              (Forall_cons _ event_mixed_shaped (Forall_nil _)) event_mixed_regular)
    as (v & Hv).
  unfold bootstrap_llh. cbn [mapM list_getitem nth_error bind].
  rewrite Hv. cbn [bind]. eauto.
Qed.

(** Witness for X11: one model, one IMT, one event, one draw. *)
Lemma bootstrap_returns_cube_witness :
  exists distinctiveness outputs,
    bootstrap_multivariate_llhvalues (fun _ => [0%nat]) residuals_pga 1 false false
    = Bootstrapped (Ok (distinctiveness, outputs)) /\
    length outputs = 1%nat.
Proof.
  destruct (bootstrap_returns_cube (fun _ => [0%nat]) residuals_pga 1 false)
    as (_ & D & outputs & H & _ & Hl & _).
  - discriminate.
  - discriminate.
  - intros j _. exact bootstrap_llh_pga.
  - exists D, outputs. auto.
Defined.

(** ** Single-station analysis: site-corrected residuals and the pooled phi *)

(** What the step of [residual_statistics] at a pair with a within-event
    decomposition leaves in the [site_analysis] cell. *)
Lemma residual_statistics_imt_cell (t_resid r r' : SiteResiduals)
  (gmpe imtx : string) (tc : entry) (total intra : list R) :
  residual_statistics_imt t_resid gmpe r imtx = Ok r' ->
  resid r = resid t_resid ->
  getitem2 (residuals (resid t_resid)) gmpe imtx = Ok (Some tc) ->
  dict_get tc "Total" = Some total ->
  dict_get tc "Intra event" = Some intra ->
  length intra = length total ->
  intra <> [] /\
  exists sa,
    getitem2 (site_analysis r') gmpe imtx = Ok sa /\
    dict_get sa "events" = Some (SInt (length intra)) /\
    dict_get sa "Intra event" = Some (SArr intra) /\
    dict_get sa "dS2ss" = Some (SNum (np_mean intra)) /\
    dict_get sa "dWo,es" = Some (SArr (map (fun x => x - np_mean intra) intra)) /\
    dict_get sa "phi_ss,s"
    = Some (SNum (sqrt (np_sum (map (fun x => (x - np_mean intra) ^ 2) intra)
                        / (INR (length intra) - 1)))).
Proof.
  unfold residual_statistics_imt. intros H Hres Hcell Htotal Hintra Hlen.
  rewrite Hres, Hcell in H. cbn [bind] in H.
  assert (Htruthy : truthy (Some tc) = true) by (destruct tc; [discriminate|reflexivity]).
  rewrite Htruthy in H. cbn [negb cell_getitem cell_in] in H.
  apply getitem_ok in Htotal. rewrite Htotal in H. cbn [bind] in H.
  apply bind_ok in H as (sa0 & _ & H).
  apply bind_ok in H as (tm & _ & H). apply bind_ok in H as (tet & _ & H).
  unfold dict_in in H. rewrite Hintra in H. cbn [bind negb] in H.
  apply getitem_ok in Hintra. rewrite Hintra in H. cbn [bind] in H.
  apply bind_ok in H as (t_inter & _ & H).
  apply bind_ok in H as (d & Hd & H).
  apply bind_ok in H as (tei & _ & H). apply bind_ok in H as (tea & _ & H).
  unfold _get_delta_s2ss in Hd. apply bind_ok in Hd as (inv & Hinv & Hd).
  injection Hd as <-. apply py_div_ok in Hinv as [Hnz ->].
  assert (Hmean : 1 / INR (length total) * np_sum intra = np_mean intra).
  { unfold np_mean. rewrite Hlen. field. assumption. }
  rewrite Hmean in H. split.
  { intros ->. apply Hnz. rewrite <- Hlen. reflexivity. }
  eexists. split; [eapply set_site_analysis_same; eassumption|].
  rewrite <- Hlen in *.
  repeat split;
    try (rewrite !dict_get_set_other by discriminate;
         rewrite dict_get_set_same; reflexivity).
  rewrite !dict_get_set_other by discriminate.
  rewrite dict_get_set_same. unfold _get_single_station_phi.
  rewrite minus_IZR, <- INR_IZR_INZ. reflexivity.
Qed.

(** The same, after the loops over the models and the IMTs for one site. *)
Lemma residual_statistics_site_cell (self : SingleStation.t) (t_resid r : SiteResiduals)
  (gmpe imtx : string) (tc : entry) (total intra : list R) :
  residual_statistics_site self t_resid = Ok r ->
  In gmpe (dict_keys (SingleStation.gmpe_list self)) ->
  In imtx (SingleStation.imts self) ->
  getitem2 (residuals (resid t_resid)) gmpe imtx = Ok (Some tc) ->
  dict_get tc "Total" = Some total ->
  dict_get tc "Intra event" = Some intra ->
  length intra = length total ->
  intra <> [] /\
  exists sa,
    getitem2 (site_analysis r) gmpe imtx = Ok sa /\
    dict_get sa "events" = Some (SInt (length intra)) /\
    dict_get sa "Intra event" = Some (SArr intra) /\
    dict_get sa "dS2ss" = Some (SNum (np_mean intra)) /\
    dict_get sa "dWo,es" = Some (SArr (map (fun x => x - np_mean intra) intra)) /\
    dict_get sa "phi_ss,s"
    = Some (SNum (sqrt (np_sum (map (fun x => (x - np_mean intra) ^ 2) intra)
                        / (INR (length intra) - 1)))).
Proof.
  intros Hsite Hg Hi Hcell Htotal Hintra Hlen.
  set (Inv := fun s : SiteResiduals => resid s = resid t_resid).
  set (Post := fun s : SiteResiduals =>
     intra <> [] /\
     exists sa,
       getitem2 (site_analysis s) gmpe imtx = Ok sa /\
       dict_get sa "events" = Some (SInt (length intra)) /\
       dict_get sa "Intra event" = Some (SArr intra) /\
       dict_get sa "dS2ss" = Some (SNum (np_mean intra)) /\
       dict_get sa "dWo,es" = Some (SArr (map (fun x => x - np_mean intra) intra)) /\
       dict_get sa "phi_ss,s"
       = Some (SNum (sqrt (np_sum (map (fun x => (x - np_mean intra) ^ 2) intra)
                           / (INR (length intra) - 1))))).
  assert (Hstep_inv : forall g s y s',
            residual_statistics_imt t_resid g s y = Ok s' -> Inv s -> Inv s').
  { intros g s y s' Hb Hs. unfold Inv in *.
    destruct (residual_statistics_imt_frame _ _ _ _ _ Hb) as [-> _]. assumption. }
  assert (Hstep_keep : forall g s y s',
            residual_statistics_imt t_resid g s y = Ok s' -> Inv s -> Post s -> Post s').
  { intros g s y s' Hb Hs Hp.
    destruct (string_dec g gmpe) as [->|Hg'];
      [destruct (string_dec y imtx) as [->|Hy]|].
    - eapply residual_statistics_imt_cell; eauto.
    - destruct (residual_statistics_imt_frame _ _ _ _ _ Hb) as [_ Hfr].
      unfold Post. rewrite Hfr by congruence. exact Hp.
    - destruct (residual_statistics_imt_frame _ _ _ _ _ Hb) as [_ Hfr].
      unfold Post. rewrite Hfr by congruence. exact Hp. }
  unfold residual_statistics_site in Hsite.
  apply (for_each_establishes
           (fun r0 g => for_each (SingleStation.imts self)
                          (residual_statistics_imt t_resid g) r0)
           Inv Post gmpe (dict_keys (SingleStation.gmpe_list self)))
    with (s0 := t_resid); try assumption; try reflexivity.
  - intros s g s' Hb Hs.
    eapply (for_each_preserves _ Inv); eauto.
  - intros s s' Hb Hs.
    eapply (for_each_establishes (residual_statistics_imt t_resid gmpe) Inv Post imtx);
      eauto.
    intros s1 s2 Hb1 Hs1. eapply residual_statistics_imt_cell; eauto.
  - intros s g s' Hb Hs Hp.
    apply (for_each_preserves (residual_statistics_imt t_resid g)
             (fun s => Inv s /\ Post s) (SingleStation.imts self)) with (s0 := s);
      [|assumption|auto].
    intros s1 y s2 Hb1 [Hs1 Hp1]. split; eauto.
Qed.

Lemma np_sum_map_minus_const (l : list R) (c : R) :
  np_sum (map (fun x => x - c) l) = np_sum l - INR (length l) * c.
Proof.
  induction l as [|x l IH].
  - simpl. rewrite np_sum_nil. ring.
  - cbn [map]. rewrite !np_sum_cons, IH.
    change (length (x :: l)) with (S (length l)). rewrite S_INR. ring.
Qed.

(** X12: for each analysed site and each pair with a within-event
    decomposition, the site-corrected residuals [dWo,es] stored by
    [residual_statistics] sum to zero, and for a site with more than one
    record [phi_ss,s^2 * (n - 1)] is the sum of their squares. *)
Theorem site_corrected_residuals_centred (self self' : SingleStation.t)
  (out : result (dict (dict (option R)) * dict (dict (option (R * R)))))
  (k : nat) (t_resid : SiteResiduals) (gmpe imtx : string) (tc : entry)
  (total intra : list R) :
  residual_statistics self = Ok (self', out) ->
  nth_error (SingleStation.site_residuals self) k = Some t_resid ->
  In gmpe (dict_keys (SingleStation.gmpe_list self)) ->
  In imtx (SingleStation.imts self) ->
  getitem2 (residuals (resid t_resid)) gmpe imtx = Ok (Some tc) ->
  dict_get tc "Total" = Some total ->
  dict_get tc "Intra event" = Some intra ->
  length intra = length total ->
  exists r sa dwoes phi,
    nth_error (SingleStation.site_residuals self') k = Some r /\
    getitem2 (site_analysis r) gmpe imtx = Ok sa /\
    dict_get sa "dWo,es" = Some (SArr dwoes) /\
    dict_get sa "phi_ss,s" = Some (SNum phi) /\
    length dwoes = length intra /\
    np_sum dwoes = 0 /\
    ((1 < length intra)%nat ->
     phi ^ 2 * (INR (length intra) - 1) = np_sum (np_sq dwoes)).
Proof.
  intros H Hk Hg Hi Hcell Htotal Hintra Hlen.
  unfold residual_statistics in H.
  apply bind_ok in H as (output_resid & Hmap & H). injection H as <- _.
  destruct (mapM_nth_error _ _ _ Hmap k t_resid Hk) as (r & Hr & Hsite).
  destruct (residual_statistics_site_cell _ _ _ _ _ _ _ _ Hsite Hg Hi Hcell Htotal
              Hintra Hlen) as (Hne & sa & Hsa & _ & _ & _ & Hw & Hphi).
  exists r, sa. do 2 eexists.
  split; [exact Hr|]. split; [exact Hsa|]. split; [exact Hw|]. split; [exact Hphi|].
  assert (Hn : INR (length intra) <> 0).
  { apply not_0_INR. destruct intra; [congruence|discriminate]. }
  split; [apply length_map|]. split.
  - rewrite np_sum_map_minus_const. unfold np_mean. field. assumption.
  - intros Hgt. unfold np_sq. rewrite map_map.
    set (S := np_sum (map (fun x => (x - np_mean intra) ^ 2) intra)).
    assert (HS : 0 <= S).
    { unfold S. rewrite <- (map_map (fun x => x - np_mean intra) (fun x => x ^ 2)).
      apply np_sum_sq_nonneg. }
    assert (Hd : 0 < INR (length intra) - 1).
    { apply lt_INR in Hgt. simpl in Hgt. lra. }
    replace (sqrt (S / (INR (length intra) - 1)) ^ 2)
      with (sqrt (S / (INR (length intra) - 1)) * sqrt (S / (INR (length intra) - 1)))
      by ring.
    rewrite sqrt_sqrt.
    + field. lra.
    + unfold Rdiv. apply Rmult_le_pos; [assumption|].
      left. apply Rinv_0_lt_compat. assumption.
Qed.

(** Witness for X12: one site with the intra-event residuals [1; 2; 3; 6]. *)
Lemma site_corrected_residuals_centred_witness :
  exists self' out r sa dwoes,
    residual_statistics station_example = Ok (self', out) /\
    nth_error (SingleStation.site_residuals self') 0 = Some r /\
    getitem2 (site_analysis r) "G" "PGA" = Ok sa /\
    dict_get sa "dWo,es" = Some (SArr dwoes) /\
    np_sum dwoes = 0.
Proof.
  destruct station_example_returns as (self' & out & H).
  destruct (site_corrected_residuals_centred station_example self' out 0
              site_residuals_example "G" "PGA"
              [("Total", [1; 2; 3; 4]); ("Inter event", [0; 0; 0; 1]);
               ("Intra event", [1; 2; 3; 6])]
              [1; 2; 3; 4] [1; 2; 3; 6] H)
    as (r & sa & dwoes & phi & H1 & H2 & H3 & _ & _ & H5 & _);
    try reflexivity; simpl; auto.
  exists self', out, r, sa, dwoes. auto.
Defined.

(** *** The pooled single-station phi *)

Lemma getitem2_set_same {V : Type} (d : dict (dict V)) (g i : string) (pg : dict V) (v : V) :
  getitem2 (dict_set d g (dict_set pg i v)) g i = Ok v.
Proof.
  unfold getitem2, getitem. rewrite dict_get_set_same. cbn [bind].
  rewrite dict_get_set_same. reflexivity.
Qed.

Lemma getitem2_set_other {V : Type} (d : dict (dict V)) (g i g' i' : string)
  (pg : dict V) (v : V) :
  getitem d g = Ok pg -> (g, i) <> (g', i') ->
  getitem2 (dict_set d g (dict_set pg i v)) g' i' = getitem2 d g' i'.
Proof.
  intros Hpg Hne. unfold getitem2, getitem.
  destruct (string_dec g g') as [<-|Hg].
  - rewrite dict_get_set_same. cbn [bind].
    apply getitem_ok in Hpg. rewrite Hpg. cbn [bind].
    rewrite dict_get_set_other by congruence. reflexivity.
  - rewrite dict_get_set_other by assumption. reflexivity.
Qed.

(** The loop over the sites in [get_total_phi_ss]. *)
Lemma phi_ss_sites_loop (gmpe imtx : string) (sites : list SiteResiduals) :
  forall (intras : list (list R)),
    Forall2 (fun r intra =>
               exists sa,
                 getitem2 (site_analysis r) gmpe imtx = Ok sa /\
                 dict_get sa "events" = Some (SInt (length intra)) /\
                 dict_get sa "Intra event" = Some (SArr intra) /\
                 dict_get sa "dS2ss" = Some (SNum (np_mean intra)))
            sites intras ->
    forall (n0 : list nat) (num0 : R) (d0 : list R),
      for_each sites
        (fun st r =>
           let '(n_events, numerator_sum, d2ss) := st in
           sa <- getitem2 (site_analysis r) gmpe imtx ;;
           d_v <- getitem sa "dS2ss" ;;
           d <- sa_num d_v ;;
           n_v <- getitem sa "events" ;;
           n <- sa_int n_v ;;
           i_v <- getitem sa "Intra event" ;;
           intra <- sa_arr i_v ;;
           Ok (n_events ++ [n],
               numerator_sum + np_sum (map (fun x => (x - d) ^ 2) intra),
               d2ss ++ [d]))
        (n0, num0, d0)
      = Ok (n0 ++ map (@length R) intras,
            fold_left (fun acc intra =>
                         acc + np_sum (map (fun x => (x - np_mean intra) ^ 2) intra))
                      intras num0,
            d0 ++ map np_mean intras).
Proof.
  induction sites as [|r sites IH]; intros intras HF n0 num0 d0.
  - inversion HF; subst. simpl. rewrite !app_nil_r. reflexivity.
  - inversion HF as [|? intra ? intras' (sa & Hsa & He & Hi & Hd) HF']; subst.
    cbn [for_each]. rewrite Hsa. cbn [bind].
    apply getitem_ok in He, Hi, Hd. rewrite Hd, He, Hi. cbn [bind sa_num sa_int sa_arr].
    rewrite (IH _ HF'). cbn [map fold_left]. rewrite <- !app_assoc. reflexivity.
Qed.

Lemma fold_left_sum_acc {A : Type} (f : A -> R) (l : list A) (acc : R) :
  fold_left (fun a x => a + f x) l acc = acc + np_sum (map f l).
Proof.
  revert acc; induction l as [|x l IH]; intros acc; simpl.
  - rewrite np_sum_nil. ring.
  - rewrite IH, np_sum_cons. ring.
Qed.

(** What [get_total_phi_ss] computes for one pair. *)
Lemma total_phi_ss_cell_value (self : SingleStation.t) (gmpe imtx : string)
  (intras : list (list R)) :
  Forall2 (fun r intra =>
             exists sa,
               getitem2 (site_analysis r) gmpe imtx = Ok sa /\
               dict_get sa "events" = Some (SInt (length intra)) /\
               dict_get sa "Intra event" = Some (SArr intra) /\
               dict_get sa "dS2ss" = Some (SNum (np_mean intra)))
          (SingleStation.site_residuals self) intras ->
  intras <> [] ->
  total_phi_ss_cell self gmpe imtx
  = Ok (Some (sqrt (np_sum (map (fun intra =>
                                   np_sum (map (fun x => (x - np_mean intra) ^ 2) intra))
                                intras)
                    / (INR (list_sum (map (@length R) intras)) - 1)),
              (np_mean (map np_mean intras), np_std (map np_mean intras)))).
Proof.
  intros HF Hne. unfold total_phi_ss_cell.
  rewrite (phi_ss_sites_loop gmpe imtx _ _ HF).
  inversion HF as [|r intra sites intras' (sa & Hsa & He & Hi & Hd) HF' Es Ei];
    [congruence|].
  cbn [list_getitem nth_error bind]. rewrite Hsa. cbn [bind].
  unfold dict_in. rewrite Hi. cbn [negb bind app].
  rewrite fold_left_sum_acc, fold_left_add_acc, minus_IZR, <- INR_IZR_INZ.
  cbn [Nat.add]. rewrite Rplus_0_l. reflexivity.
Qed.

(** The two dictionaries [get_total_phi_ss] returns hold, under a pair, what
    the loop body computed for it. *)
Lemma get_total_phi_ss_lookup (self : SingleStation.t)
  (phi_ss : dict (dict (option R))) (phi_s2ss : dict (dict (option (R * R))))
  (gmpe imtx : string) (p : R) (ms : R * R) :
  get_total_phi_ss self = Ok (phi_ss, phi_s2ss) ->
  In gmpe (dict_keys (SingleStation.gmpe_list self)) ->
  In imtx (SingleStation.imts self) ->
  total_phi_ss_cell self gmpe imtx = Ok (Some (p, ms)) ->
  getitem2 phi_ss gmpe imtx = Ok (Some p) /\
  getitem2 phi_s2ss gmpe imtx = Ok (Some ms).
Proof.
  unfold get_total_phi_ss. intros H Hg Hi Hcell.
  set (Post := fun st : dict (dict (option R)) * dict (dict (option (R * R))) =>
                 getitem2 (fst st) gmpe imtx = Ok (Some p) /\
                 getitem2 (snd st) gmpe imtx = Ok (Some ms)).
  set (body := fun g (st : dict (dict (option R)) * dict (dict (option (R * R))))
                   (i : string) =>
                 let '(phi_ss, phi_s2ss) := st in
                 c <- total_phi_ss_cell self g i ;;
                 match c with
                 | None => Ok (phi_ss, phi_s2ss)
                 | Some (p, ms) =>
                     pg <- getitem phi_ss g ;;
                     sg <- getitem phi_s2ss g ;;
                     Ok (dict_set phi_ss g (dict_set pg i (Some p)),
                         dict_set phi_s2ss g (dict_set sg i (Some ms)))
                 end).
  assert (Hkeep : forall g i st st', body g st i = Ok st' ->
            (g, i) <> (gmpe, imtx) -> Post st -> Post st').
  { intros g i [a b] st' Hb Hne [Pa Pb]. unfold body in Hb.
    apply bind_ok in Hb as (c & _ & Hb). destruct c as [[p' ms']|].
    - apply bind_ok in Hb as (pg & Hpg & Hb). apply bind_ok in Hb as (sg & Hsg & Hb).
      injection Hb as <-. split; cbn [fst snd].
      + rewrite (getitem2_set_other _ _ _ _ _ _ _ Hpg Hne). exact Pa.
      + rewrite (getitem2_set_other _ _ _ _ _ _ _ Hsg Hne). exact Pb.
    - injection Hb as <-. split; assumption. }
  assert (Hest : forall st st', body gmpe st imtx = Ok st' -> Post st').
  { intros [a b] st' Hb. unfold body in Hb. rewrite Hcell in Hb. cbn [bind] in Hb.
    apply bind_ok in Hb as (pg & Hpg & Hb). apply bind_ok in Hb as (sg & Hsg & Hb).
    injection Hb as <-. split; cbn [fst snd]; apply getitem2_set_same. }
  assert (Hstep : forall g i st st', body g st i = Ok st' -> Post st -> Post st').
  { intros g i st st' Hb HP.
    destruct (string_dec g gmpe) as [->|Hg'];
      [destruct (string_dec i imtx) as [->|Hi']|].
    - eapply Hest; eauto.
    - eapply Hkeep; eauto. congruence.
    - eapply Hkeep; eauto. congruence. }
  change (Post (phi_ss, phi_s2ss)).
  apply (for_each_establishes
           (fun st g => for_each (SingleStation.imts self) (body g) st)
           (fun _ => True) Post gmpe (dict_keys (SingleStation.gmpe_list self)))
    with (s0 := (OrderedDict
       (map (fun gmpe => (gmpe, OrderedDict (map (fun imtx => (imtx, None))
                                               (SingleStation.imts self))))
          (dict_keys (SingleStation.gmpe_list self))),
     OrderedDict
       (map (fun gmpe => (gmpe, OrderedDict (map (fun imtx => (imtx, None))
                                               (SingleStation.imts self))))
          (dict_keys (SingleStation.gmpe_list self))))); auto.
  - intros s s' Hb _.
    apply (for_each_establishes (body gmpe) (fun _ => True) Post imtx
             (SingleStation.imts self)) with (s0 := s); auto.
    + intros s1 s2 Hb1 _. eapply Hest; eauto.
    + intros s1 y s2 Hb1 _ HP. eapply Hstep; eauto.
  - intros s g s' Hb _ HP.
    apply (for_each_preserves (body g) Post (SingleStation.imts self)) with (s0 := s); auto.
    intros s1 y s2 Hb1 HP1. eapply Hstep; eauto.
Qed.

Lemma mapM_Forall2 {A B : Type} (f : A -> result B) (l : list A) (ys : list B) :
  mapM f l = Ok ys -> Forall2 (fun x y => f x = Ok y) l ys.
Proof.
  revert ys; induction l as [|x l IH]; simpl; intros ys H.
  - injection H as <-. constructor.
  - apply bind_ok in H as (y & Hy & H). apply bind_ok in H as (ys' & Hys & H).
    injection H as <-. constructor; auto.
Qed.

Lemma Forall2_compose {A B C : Type} (R1 : A -> B -> Prop) (R2 : A -> C -> Prop)
  (R3 : B -> C -> Prop) (l : list A) :
  (forall x y z, R1 x y -> R2 x z -> R3 y z) ->
  forall ys zs, Forall2 R1 l ys -> Forall2 R2 l zs -> Forall2 R3 ys zs.
Proof.
  intros Hc. induction l as [|x l IH]; intros ys zs H1 H2;
    inversion H1; inversion H2; subst; constructor; eauto.
Qed.

(** X13: when [residual_statistics] returns the two dictionaries of
    [get_total_phi_ss], then for a pair with a within-event decomposition at
    every site and more than one record in all, with the intra-event
    residuals [intra_s] of site [s],
    [phi_ss = sqrt(sum_s sum((intra_s - mean(intra_s))^2) / (sum_s n_s - 1))]
    and [phi_s2ss] holds the mean and the standard deviation of the site means
    [mean(intra_s)]. *)
Theorem pooled_single_station_phi (self self' : SingleStation.t)
  (phi_ss : dict (dict (option R))) (phi_s2ss : dict (dict (option (R * R))))
  (gmpe imtx : string) (intras : list (list R)) :
  residual_statistics self = Ok (self', Ok (phi_ss, phi_s2ss)) ->
  In gmpe (dict_keys (SingleStation.gmpe_list self)) ->
  In imtx (SingleStation.imts self) ->
  Forall2 (fun t_resid intra =>
             exists tc total,
               getitem2 (residuals (resid t_resid)) gmpe imtx = Ok (Some tc) /\
               dict_get tc "Total" = Some total /\
               dict_get tc "Intra event" = Some intra /\
               length intra = length total)
          (SingleStation.site_residuals self) intras ->
  intras <> [] -> (1 < list_sum (map (@length R) intras))%nat ->
  getitem2 phi_ss gmpe imtx
  = Ok (Some (sqrt (np_sum (map (fun intra =>
                                   np_sum (map (fun x => (x - np_mean intra) ^ 2) intra))
                                intras)
                    / (INR (list_sum (map (@length R) intras)) - 1)))) /\
  getitem2 phi_s2ss gmpe imtx
  = Ok (Some (np_mean (map np_mean intras), np_std (map np_mean intras))).
Proof.
  intros H Hg Hi HF Hne _.
  unfold residual_statistics in H.
  apply bind_ok in H as (output_resid & Hmap & H). injection H as <- Hout.
  apply (get_total_phi_ss_lookup _ _ _ _ _ _ _ Hout); try assumption.
  apply total_phi_ss_cell_value; [|assumption].
  cbn [set_site_residuals SingleStation.site_residuals].
  eapply Forall2_compose; [|exact (mapM_Forall2 _ _ _ Hmap)|exact HF].
  intros t_resid r intra Hsite Hcell. cbv beta in Hsite, Hcell.
  destruct Hcell as (tc & total & Hc & Ht & Hin & Hl).
  destruct (residual_statistics_site_cell _ _ _ _ _ _ _ _ Hsite Hg Hi Hc Ht Hin Hl)
    as (_ & sa & Hsa & He & Hia & Hd & _).
  exists sa. auto.
Qed.

Lemma station_example_phi :
  exists self' phi_ss phi_s2ss,
    residual_statistics station_example = Ok (self', Ok (phi_ss, phi_s2ss)).
Proof.
  unfold residual_statistics, residual_statistics_site, residual_statistics_imt,
    _get_delta_s2ss, set_site_analysis.
  cbn -[py_div np_sum INR _get_single_station_phi get_total_phi_ss].
  rewrite py_div_nonzero by (simpl; lra).
  cbn -[py_div np_sum INR _get_single_station_phi get_total_phi_ss].
  unfold get_total_phi_ss, total_phi_ss_cell.
  cbn -[py_div np_sum np_mean np_std INR IZR _get_single_station_phi sqrt Rdiv Rplus].
  do 3 eexists. reflexivity.
Qed.

(** Witness for X13: one site with the intra-event residuals [1; 2; 3; 6]. *)
Lemma pooled_single_station_phi_witness :
  exists self' phi_ss phi_s2ss,
    residual_statistics station_example = Ok (self', Ok (phi_ss, phi_s2ss)) /\
    getitem2 phi_s2ss "G" "PGA"
    = Ok (Some (np_mean (map np_mean [[1; 2; 3; 6]]), np_std (map np_mean [[1; 2; 3; 6]]))).
Proof.
  destruct station_example_phi as (self' & phi_ss & phi_s2ss & H).
  exists self', phi_ss, phi_s2ss. split; [exact H|].
  refine (proj2 (pooled_single_station_phi station_example self' phi_ss phi_s2ss
                   "G" "PGA" [[1; 2; 3; 6]] H _ _ _ _ _)).
  - simpl. auto.
  - simpl. auto.
  - constructor; [|constructor].
    exists [("Total", [1; 2; 3; 4]); ("Inter event", [0; 0; 0; 1]);
            ("Intra event", [1; 2; 3; 6])], [1; 2; 3; 4].
    repeat split; reflexivity.
  - discriminate.
  - simpl. lia.
Defined.

(** *** An analysis without sites *)

(** X14: without any site residuals, the pooled statistics of an analysis
    with at least one model and one IMT raise [IndexError] (the first site is
    subscripted), and [residual_statistics] leaves the state as it was. *)
Theorem total_phi_ss_without_sites (self : SingleStation.t) :
  SingleStation.site_residuals self = [] ->
  SingleStation.gmpe_list self <> [] -> SingleStation.imts self <> [] ->
  get_total_phi_ss self = Raise IndexError /\
  residual_statistics self = Ok (self, Raise IndexError).
Proof.
  intros Hs Hg Hi.
  assert (H : get_total_phi_ss self = Raise IndexError).
  { unfold get_total_phi_ss.
    destruct (SingleStation.gmpe_list self) as [|[g m] gl]; [congruence|].
    destruct (SingleStation.imts self) as [|i il]; [congruence|].
    cbn [dict_keys map fst for_each]. unfold total_phi_ss_cell at 1.
    rewrite Hs. reflexivity. }
  split; [exact H|].
  unfold residual_statistics. rewrite Hs. cbn [mapM bind].
  assert (E : set_site_residuals self [] = self).
  { destruct self. cbn in Hs. subst. reflexivity. }
  rewrite E, H. reflexivity.
Qed.

(** Witness for X14: the example analysis before any site is added. *)
Lemma total_phi_ss_without_sites_witness :
  get_total_phi_ss (set_site_residuals station_example []) = Raise IndexError.
Proof.
  apply (total_phi_ss_without_sites (set_site_residuals station_example [])).
  - reflexivity.
  - discriminate.
  - discriminate.
Defined.

(** ** The distinctiveness array *)

(** X15: the array [get_distinctiveness] returns has one row and one column
    per model (and, when the IMTs are not summed, one entry per IMT in each
    cell), and its diagonal is zero. *)
Theorem distinctiveness_shape (self : Residuals) (outputs : list (list (list R)))
  (number_bootstraps : nat) (sum_imts : bool) (D : distinctiveness_t) :
  get_distinctiveness self outputs number_bootstraps sum_imts = Ok D ->
  match D with
  | Summed d =>
      sum_imts = true /\ length d = length (gmpe_list self) /\
      forall i, (i < length (gmpe_list self))%nat ->
        length (nth i d []) = length (gmpe_list self) /\
        nth i (nth i d []) 0 = 0
  | PerIMT d =>
      sum_imts = false /\ length d = length (gmpe_list self) /\
      forall i, (i < length (gmpe_list self))%nat ->
        length (nth i d []) = length (gmpe_list self) /\
        (forall j, (j < length (gmpe_list self))%nat ->
           length (nth j (nth i d []) []) = length (imts self)) /\
        forall k, nth k (nth i (nth i d []) []) 0 = 0
  end.
Proof.
  unfold get_distinctiveness, dict_keys. rewrite length_map.
  set (ng := length (gmpe_list self)). set (ni := length (imts self)).
  intros H. destruct sum_imts.
  - apply bind_ok in H as (d & Hd & H). injection H as <-.
    destruct (mapM_seq_nth _ _ _ [] Hd) as [Ld Hrow].
    split; [reflexivity|]. split; [assumption|].
    intros i Hi. specialize (Hrow i Hi).
    destruct (mapM_seq_nth _ _ _ 0 Hrow) as [Lr Hcell].
    split; [assumption|].
    specialize (Hcell i Hi). rewrite Nat.eqb_refl in Hcell. congruence.
  - apply bind_ok in H as (d & Hd & H). injection H as <-.
    destruct (mapM_seq_nth _ _ _ [] Hd) as [Ld Hrow].
    split; [reflexivity|]. split; [assumption|].
    intros i Hi. specialize (Hrow i Hi).
    destruct (mapM_seq_nth _ _ _ [] Hrow) as [Lr Hcell].
    split; [assumption|]. split.
    + intros j Hj. specialize (Hcell j Hj).
      destruct (i =? j)%nat.
      * injection Hcell as <-. apply repeat_length.
      * rewrite (mapM_length _ _ _ Hcell). apply length_seq.
    + intros k. specialize (Hcell i Hi). rewrite Nat.eqb_refl in Hcell.
      injection Hcell as <-. destruct (Nat.lt_ge_cases k ni) as [Hk|Hk].
      * apply nth_repeat.
      * apply nth_overflow. rewrite repeat_length. assumption.
Qed.

(** Witness for X15: two models, one IMT, two bootstrap draws. *)
Lemma distinctiveness_shape_witness :
  exists d,
    get_distinctiveness residuals_two_models [[[1; 1]]; [[2; 2]]] 2 false = Ok (PerIMT d) /\
    length d = 2%nat /\ nth 0 (nth 1 (nth 1 d []) []) 0 = 0.
Proof.
  destruct (get_distinctiveness_returns residuals_two_models [[[1; 1]]; [[2; 2]]] 2 false)
    as [D HD]; try (simpl; congruence).
  { simpl. intros o [<-|[<-|[]]]; reflexivity. }
  pose proof (distinctiveness_shape residuals_two_models [[[1; 1]]; [[2; 2]]] 2 false D HD)
    as H.
  destruct D as [d|d]; [destruct H as [H _]; discriminate H|].
  destruct H as (_ & Hl & Hrows). exists d. split; [exact HD|]. split; [exact Hl|].
  destruct (Hrows 1%nat) as (_ & _ & Hdiag); [simpl; lia|]. apply Hdiag.
Defined.

(** X16: with two or more models and a cube of the matching shape,
    [get_distinctiveness] raises [ZeroDivisionError] when the number of
    bootstraps is zero (for the per-IMT mode: when there is an IMT); in the
    summed mode it does so too when there is no IMT. *)
Theorem distinctiveness_divides_by_zero (self : Residuals)
  (outputs : list (list (list R))) (number_bootstraps : nat) (sum_imts : bool) :
  (2 <= length (gmpe_list self))%nat ->
  length outputs = length (gmpe_list self) ->
  (forall o, In o outputs -> length o = length (imts self)) ->
  (if sum_imts then number_bootstraps = 0%nat \/ imts self = []
   else number_bootstraps = 0%nat /\ imts self <> []) ->
  get_distinctiveness self outputs number_bootstraps sum_imts = Raise ZeroDivisionError.
Proof.
  intros Hng Hlen Hshape Hzero.
  unfold get_distinctiveness, dict_keys. rewrite length_map.
  destruct (length (gmpe_list self)) as [|[|m]] eqn:Eng; try lia.
  destruct outputs as [|o0 [|o1 outputs]]; try discriminate Hlen.
  destruct sum_imts.
  - assert (Hz : INR number_bootstraps * INR (length (imts self)) = 0).
    { destruct Hzero as [->| ->]; simpl; ring. }
    cbn [seq mapM Nat.eqb list_getitem nth_error bind]. rewrite Hz, py_div_zero.
    reflexivity.
  - destruct Hzero as [-> Hni].
    pose proof (Hshape o0 (or_introl eq_refl)) as L0.
    pose proof (Hshape o1 (or_intror (or_introl eq_refl))) as L1.
    destruct (imts self) as [|i0 il]; [congruence|]. cbn [length] in *.
    destruct o0 as [|a0 o0]; [discriminate|]. destruct o1 as [|a1 o1]; [discriminate|].
    cbn [seq mapM Nat.eqb list_getitem nth_error bind INR]. rewrite py_div_zero.
    reflexivity.
Qed.

(** Witness for X16: two models, one IMT and no bootstrap. *)
Lemma distinctiveness_divides_by_zero_witness :
  get_distinctiveness residuals_two_models [[[]]; [[]]] 0 false = Raise ZeroDivisionError.
Proof.
  apply (distinctiveness_divides_by_zero residuals_two_models [[[]]; [[]]] 0 false).
  - simpl. lia.
  - reflexivity.
  - simpl. intros o [<-|[<-|[]]]; reflexivity.
  - split; [reflexivity|discriminate].
Defined.

(** ** Resolving the model identifiers *)

Lemma for_each_app {A S : Type} (body : S -> A -> result S) (xs ys : list A) (s0 : S) :
  for_each (xs ++ ys) body s0 = (s1 <- for_each xs body s0 ;; for_each ys body s1).
Proof.
  revert s0; induction xs as [|x xs IH]; intros s0; simpl; [reflexivity|].
  destruct (body s0 x) as [s1|e]; simpl; [apply IH|reflexivity].
Qed.

(** X17: a name that does not start with ["GMPETable"] and is not in the
    registry of models makes [_check_gsim_list] raise [ValueError], whatever
    follows it, when the identifiers before it resolve. *)
Theorem check_gsim_list_unsupported (_get_gmpe_name : GMPE -> string)
  (GSIM_LIST : dict (result GMPE)) (GMPETable : string -> result GMPE)
  (before after : list gsim_arg) (resolved : list (string * GMPE)) (gsim : string) :
  for_each before (check_gsim _get_gmpe_name GSIM_LIST GMPETable) [] = Ok resolved ->
  String.prefix "GMPETable" gsim = false ->
  dict_get GSIM_LIST gsim = None ->
  _check_gsim_list _get_gmpe_name GSIM_LIST GMPETable (before ++ GsimName gsim :: after)
  = Raise ValueError.
Proof.
  intros Hpre Hp Hg. unfold _check_gsim_list.
  rewrite for_each_app, Hpre. cbn [bind for_each].
  unfold check_gsim at 1. rewrite Hp, Hg. reflexivity.
Qed.

(** Witness for X17: an unknown name after an instantiated model. *)
Lemma check_gsim_list_unsupported_witness :
  _check_gsim_list (fun _ => "G") [("BooreAtkinson2008", Ok gmpe_total_only)]
    (fun _ => Raise ValueError)
    ([GsimInstance gmpe_decomposed] ++ [GsimName "NoSuchModel"; GsimName "BooreAtkinson2008"])
  = Raise ValueError.
Proof.
  apply (check_gsim_list_unsupported (fun _ => "G")
           [("BooreAtkinson2008", Ok gmpe_total_only)] (fun _ => Raise ValueError)
           [GsimInstance gmpe_decomposed] [GsimName "BooreAtkinson2008"]
           [("G", gmpe_decomposed)] "NoSuchModel");
    reflexivity.
Defined.

Lemma string_app_assoc (a b c : string) :
  ((a ++ b) ++ c)%string = (a ++ (b ++ c))%string.
Proof. induction a as [|x a IH]; simpl; [reflexivity|]. rewrite IH. reflexivity. Qed.

Lemma prefix_empty (s : string) : String.prefix "" s = true.
Proof. destruct s; reflexivity. Qed.

Lemma substring_all (s : string) : substring 0 (String.length s) s = s.
Proof. induction s as [|c s IH]; simpl; [reflexivity|]. rewrite IH. reflexivity. Qed.

Lemma has_char_app (c : ascii) (a b : string) :
  has_char c (a ++ b)%string = has_char c a || has_char c b.
Proof.
  induction a as [|x a IH]; simpl; [reflexivity|].
  rewrite IH, orb_assoc. reflexivity.
Qed.

Lemma until_paren_app (a t : string) :
  has_char ")" a = false ->
  until_paren (a ++ String ")" t)%string = Some (a, t).
Proof.
  induction a as [|x a IH]; simpl; intros H; [reflexivity|].
  apply orb_false_iff in H as [Hx Ha]. rewrite Hx, (IH Ha). reflexivity.
Qed.

Lemma py_split_none (c : ascii) (s : string) :
  has_char c s = false -> py_split c s = [s].
Proof.
  induction s as [|x s IH]; simpl; intros H; [reflexivity|].
  apply orb_false_iff in H as [Hx Hs]. rewrite Hx, (IH Hs). reflexivity.
Qed.

Lemma py_split_app (c : ascii) (a b : string) :
  has_char c a = false ->
  py_split c (a ++ String c b)%string = a :: py_split c b.
Proof.
  induction a as [|x a IH]; simpl; intros H.
  - rewrite Ascii.eqb_refl. reflexivity.
  - apply orb_false_iff in H as [Hx Ha]. rewrite Hx, (IH Ha). reflexivity.
Qed.

Lemma drop_last_app (p : string) (q : ascii) :
  drop_last (p ++ String q "")%string = p.
Proof.
  induction p as [|x p IH]; [reflexivity|].
  cbn [append drop_last]. rewrite IH.
  destruct p; reflexivity.
Qed.

(** X18: an identifier written [GMPETable(key=QpathQ)], where [Q] is a
    quote character and neither the key nor the path holds a [")"] or an
    ["="], resolves to the table built from [path], under the name
    [_get_gmpe_name] gives it. *)
Theorem gmpe_table_path_round_trip (_get_gmpe_name : GMPE -> string)
  (GSIM_LIST : dict (result GMPE)) (GMPETable : string -> result GMPE)
  (output_gsims : list (string * GMPE)) (key path : string) (quote : ascii) :
  has_char ")" key = false -> has_char "=" key = false ->
  has_char ")" path = false -> has_char "=" path = false ->
  Ascii.eqb quote ")" = false -> Ascii.eqb quote "=" = false ->
  check_gsim _get_gmpe_name GSIM_LIST GMPETable output_gsims
    (GsimName ("GMPETable(" ++ key ++ "=" ++ String quote (path ++ String quote ")"))%string)
  = (gmpe_table <- GMPETable path ;;
     Ok (output_gsims ++ [(_get_gmpe_name gmpe_table, gmpe_table)])).
Proof.
  intros Hk1 Hk2 Hp1 Hp2 Hq1 Hq2.
  set (body := (key ++ "=" ++ String quote (path ++ String quote ""))%string).
  assert (Ebody : (key ++ "=" ++ String quote (path ++ String quote ")"))%string
                  = (body ++ String ")" "")%string).
  { unfold body. rewrite string_app_assoc. cbn [append].
    rewrite string_app_assoc. reflexivity. }
  rewrite Ebody.
  assert (Hb : has_char ")" body = false).
  { unfold body. rewrite !has_char_app. simpl. rewrite has_char_app. simpl.
    rewrite Hk1, Hp1, Hq1. reflexivity. }
  unfold check_gsim, match_gmpe_table.
  cbn [append String.prefix String.length Nat.sub substring].
  repeat (destruct (ascii_dec _ _) as [_|Hne]; [|exfalso; apply Hne; reflexivity]).
  rewrite prefix_empty, Nat.sub_0_r, substring_all, (until_paren_app body "" Hb).
  assert (Hne : String.eqb body "" = false).
  { unfold body. destruct key; reflexivity. }
  rewrite Hne. cbn [negb andb orb String.eqb].
  unfold body. cbn [append]. rewrite py_split_app by assumption.
  rewrite py_split_none
    by (simpl; rewrite has_char_app; simpl; rewrite Hq2, Hp2; reflexivity).
  cbn [list_getitem nth_error bind strip_ends]. rewrite drop_last_app. reflexivity.
Qed.

(** Witness for X18: a table file given in single quotes. *)
Lemma gmpe_table_path_round_trip_witness :
  check_gsim (fun _ => "T") [] (fun _ => Ok gmpe_total_only) []
    (GsimName "GMPETable(gmpe_table='tables/model.hdf5')")
  = Ok [("T", gmpe_total_only)].
Proof.
  exact (gmpe_table_path_round_trip (fun _ => "T") [] (fun _ => Ok gmpe_total_only) []
           "gmpe_table" "tables/model.hdf5" "'" eq_refl eq_refl eq_refl eq_refl
           eq_refl eq_refl).
Defined.

(** *** The three values of the ranking *)

Lemma broadcast_same_length_ok (f : R -> R -> R) (a b : list R) :
  length a = length b ->
  exists c, broadcast f a b = Ok c /\ length c = length a.
Proof.
  intros H. rewrite (broadcast_same_length f a b H).
  eexists. split; [reflexivity|]. apply length_map_combine, H.
Qed.

Lemma np_sub_ok (a b : list R) :
  length a = length b -> exists c, np_sub a b = Ok c /\ length c = length a.
Proof. apply broadcast_same_length_ok. Qed.

Lemma np_add_ok (a b : list R) :
  length a = length b -> exists c, np_add a b = Ok c /\ length c = length a.
Proof. apply broadcast_same_length_ok. Qed.

Lemma np_mul_ok (a b : list R) :
  length a = length b -> exists c, np_mul a b = Ok c /\ length c = length a.
Proof. apply broadcast_same_length_ok. Qed.

Lemma np_div_ok (a b : list R) :
  length a = length b -> exists c, np_div a b = Ok c /\ length c = length a.
Proof. apply broadcast_same_length_ok. Qed.

Section EdrReturns.

Variable norm_cdf : R -> R.

Lemma cdf_band_ok (d mu_d stddev : list R) :
  length mu_d = length d -> length stddev = length d ->
  exists p, cdf_band norm_cdf d mu_d stddev = Ok p /\ length p = length d.
Proof.
  intros Hm Hs. unfold cdf_band.
  destruct (np_sub_ok d mu_d) as (up0 & -> & L0); [lia|].
  cbn [bind].
  destruct (np_div_ok up0 stddev) as (up1 & -> & L1); [lia|].
  cbn [bind].
  destruct (np_sub_ok (map Ropp d) mu_d) as (lo0 & -> & L2);
    [rewrite length_map; lia|].
  cbn [bind]. rewrite length_map in L2.
  destruct (np_div_ok lo0 stddev) as (lo1 & -> & L3); [lia|].
  cbn [bind].
  destruct (np_sub_ok (map norm_cdf up1) (map norm_cdf lo1))
    as (p & -> & L4); [rewrite !length_map; lia|].
  exists p. split; [reflexivity|]. rewrite L4, length_map. lia.
Qed.

Lemma edr_loop_ok (mu_d stddev : list R) (nvals : nat) (min_d bandwidth : R)
  (ilocs : list nat) :
  length mu_d = nvals -> length stddev = nvals ->
  forall mde, length mde = nvals ->
    exists mde',
      for_each ilocs
        (fun mde iloc =>
           let d_val := np_scale (min_d + INR iloc * bandwidth) (repeat 1 nvals) in
           let d_1 := map (fun x => x - min_d) d_val in
           let d_2 := map (fun x => x + min_d) d_val in
           p_1 <- cdf_band norm_cdf d_1 mu_d stddev ;;
           p_2 <- cdf_band norm_cdf d_2 mu_d stddev ;;
           dp <- np_sub p_2 p_1 ;;
           inc <- np_mul dp d_val ;;
           np_add mde inc)
        mde = Ok mde'.
Proof.
  intros Hm Hs. induction ilocs as [|iloc ilocs IH]; intros mde Lmde; [simpl; eauto|].
  cbn [for_each]. cbv zeta.
  set (d_val := np_scale (min_d + INR iloc * bandwidth) (repeat 1 nvals)).
  assert (Ld : length d_val = nvals).
  { unfold d_val. rewrite length_np_scale. apply repeat_length. }
  destruct (cdf_band_ok (map (fun x => x - min_d) d_val) mu_d stddev)
    as (p_1 & -> & L1); try (rewrite length_map; lia).
  cbn [bind].
  destruct (cdf_band_ok (map (fun x => x + min_d) d_val) mu_d stddev)
    as (p_2 & -> & L2); try (rewrite length_map; lia).
  cbn [bind]. rewrite length_map in L1, L2.
  destruct (np_sub_ok p_2 p_1) as (dp & -> & L3); [lia|].
  cbn [bind].
  destruct (np_mul_ok dp d_val) as (inc & -> & L4); [lia|].
  cbn [bind].
  destruct (np_add_ok mde inc) as (mde1 & -> & L5); [lia|].
  cbn [bind]. apply IH. lia.
Qed.

Lemma np_max_ok (a : list R) : a <> [] -> exists m, np_max a = Ok m.
Proof. destruct a; [congruence|]. simpl. eauto. Qed.

(** X19: for observed, expected and standard-deviation arrays of one
    non-zero length and a positive discretisation width [_get_edr] returns;
    its second value is the square root
    of the correction factor [kappa] of [_get_edr_kappa], its first value,
    the normalised MDE, is not negative, and for [kappa >= 0] its third
    value is their product: [EDR = sqrt(kappa) * MDE_norm]. *)
Theorem edr_is_kappa_times_mde (obs expected stddev : list R)
  (bandwidth multiplier : R) :
  obs <> [] -> length expected = length obs -> length stddev = length obs ->
  0 < bandwidth ->
  exists kappa mde_norm edr,
    _get_edr_kappa obs expected = Ok kappa /\
    _get_edr norm_cdf obs expected stddev bandwidth multiplier
    = Ok (mde_norm, sqrt kappa, edr) /\
    0 <= mde_norm /\
    (0 <= kappa -> edr = sqrt kappa * mde_norm).
Proof.
  intros Hne Le Ls _.
  pose proof (get_edr_kappa_value obs expected (eq_sym Le)) as Hk. cbv zeta in Hk.
  unfold _get_edr. rewrite Hk. cbn [bind].
  destruct (np_sub_ok obs expected) as (mu_d & -> & L0); [lia|].
  cbn [bind].
  destruct (np_sub_ok expected (np_scale multiplier stddev))
    as (lower & -> & L1); [rewrite length_np_scale; lia|].
  cbn [bind].
  destruct (np_sub_ok obs lower) as (d1 & -> & L2); [lia|].
  cbn [bind].
  destruct (np_add_ok expected (np_scale multiplier stddev))
    as (upper & -> & L3); [rewrite length_np_scale; lia|].
  cbn [bind].
  destruct (np_sub_ok obs upper) as (d2 & -> & L4); [lia|].
  cbn [bind].
  assert (Hlen : length obs <> 0%nat) by (destruct obs; [congruence|discriminate]).
  destruct (np_max_ok (np_fabs d1)) as (m1 & ->).
  { unfold np_fabs. destruct d1; [simpl in L2; lia|discriminate]. }
  cbn [bind].
  destruct (np_max_ok (np_fabs d2)) as (m2 & ->).
  { unfold np_fabs. destruct d2; [simpl in L4; lia|discriminate]. }
  cbn [bind].
  destruct (edr_loop_ok mu_d stddev (length obs) (bandwidth / 2) bandwidth
              (seq 0 (arange_len (bandwidth / 2) (IZR (py_ceil (Rmax m1 m2))) bandwidth))
              L0 Ls (np_zeros (length obs)) (repeat_length 0 (length obs)))
    as (mde & Hmde).
  cbv zeta in Hmde. rewrite Hmde. cbn [bind].
  assert (Hn : INR (length obs) <> 0) by (apply not_0_INR; assumption).
  rewrite py_div_nonzero by assumption. cbn [bind].
  do 3 eexists. split; [reflexivity|]. split; [reflexivity|].
  split; [apply sqrt_pos|].
  intros Hpos. rewrite Rmult_assoc. apply sqrt_mult; [assumption|].
  apply Rmult_le_pos; [|apply np_sum_sq_nonneg].
  unfold Rdiv. rewrite Rmult_1_l. left. apply Rinv_0_lt_compat.
  pose proof (pos_INR (length obs)). lra.
Qed.

End EdrReturns.

(** Witness for X19: three records. *)
Lemma edr_is_kappa_times_mde_witness :
  exists kappa mde_norm edr,
    _get_edr_kappa [0; 1; 2] [1; 1; 4] = Ok kappa /\
    _get_edr (fun x => x) [0; 1; 2] [1; 1; 4] [1; 1; 1] 0.01 3
    = Ok (mde_norm, sqrt kappa, edr) /\
    0 <= mde_norm.
Proof.
  destruct (edr_is_kappa_times_mde (fun x => x) [0; 1; 2] [1; 1; 4] [1; 1; 1] 0.01 3)
    as (kappa & mde_norm & edr & H1 & H2 & H3 & _);
    try reflexivity; try discriminate; try lra.
  exists kappa, mde_norm, edr. auto.
Defined.

(** ** The contexts kept by [get_residuals] *)

Lemma iter_shift {A : Type} (f : A -> A) (n : nat) (x : A) :
  Nat.iter n f (f x) = f (Nat.iter n f x).
Proof. induction n as [|n IH]; simpl; [reflexivity|]. rewrite IH. reflexivity. Qed.

(** The loop that converts the units: every IMT is converted once per
    occurrence in the list. *)
Lemma convert_loop (convert_accel_units : list R -> list R) (xs : list string) :
  forall o0 o : dict (list R),
    for_each xs
      (fun o a_imt => v <- getitem o a_imt ;; Ok (dict_set o a_imt (convert_accel_units v)))
      o0 = Ok o ->
    forall k,
      dict_get o k
      = option_map (Nat.iter (count_occ string_dec xs k) convert_accel_units)
          (dict_get o0 k).
Proof.
  induction xs as [|x xs IH]; intros o0 o H k.
  - simpl in H. injection H as <-. simpl. destruct (dict_get o0 k); reflexivity.
  - simpl in H. apply bind_ok in H as (o1 & H1 & H).
    apply bind_ok in H1 as (v & Hv & H1). injection H1 as <-.
    rewrite (IH _ _ H k). apply getitem_ok in Hv. cbn [count_occ].
    destruct (string_dec x k) as [->|Hne].
    + rewrite dict_get_set_same, Hv. cbn [option_map Nat.iter].
      rewrite iter_shift. reflexivity.
    + rewrite dict_get_set_other by assumption. reflexivity.
Qed.

Lemma count_occ_filter (p : string -> bool) (l : list string) (k : string) :
  count_occ string_dec (filter p l) k
  = if p k then count_occ string_dec l k else 0%nat.
Proof.
  induction l as [|x l IH]; simpl; [destruct (p k); reflexivity|].
  destruct (p x) eqn:Ex; simpl; destruct (string_dec x k) as [->|Hne];
    rewrite IH; try rewrite Ex; try reflexivity.
Qed.

(** X20: the context [get_residuals] keeps for an event has the event's
    number of records and magnitude, a rake that is never [None] ([0] when
    the event had none), and the event's observations, where for IMTs that
    occur once in the list of the analysis the accelerations (["PGA"] and
    every IMT containing ["SA("]) have been converted from cm/s/s to g and all
    other IMTs are untouched; every acceleration IMT of the analysis has to be
    observed. *)
Theorem stored_context_units (imt_period : string -> R)
  (convert_accel_units : list R -> list R) (normalise : bool)
  (self self' : Residuals) (context : Context) :
  get_residuals_context imt_period convert_accel_units normalise self context = Ok self' ->
  NoDup (imts self) ->
  exists stored,
    contexts self' = contexts self ++ [stored] /\
    Num_Sites stored = Num_Sites context /\
    mag (Ctx stored) = mag (Ctx context) /\
    rake (Ctx stored) = Some (match rake (Ctx context) with Some r => r | None => 0 end) /\
    forall imtx,
      if (String.eqb imtx "PGA" || contains "SA(" imtx) && existsb (String.eqb imtx) (imts self)
      then exists v, dict_get (Observations context) imtx = Some v /\
                     dict_get (Observations stored) imtx = Some (convert_accel_units v)
      else dict_get (Observations stored) imtx = dict_get (Observations context) imtx.
Proof.
  unfold get_residuals_context. intros H Hnd.
  apply bind_ok in H as (observations & Hconv & H).
  apply bind_ok in H as (context1 & Hexp & H).
  apply bind_ok in H as (c2 & Hres & H).
  apply bind_ok in H as (self1 & Hloop & H). injection H as <-.
  assert (Hctx : contexts self1 = contexts self).
  { apply (for_each_preserves (aggregate_gmpe c2)
             (fun s => contexts s = contexts self) (dict_keys (residuals self)))
      with (s0 := self); [|assumption|reflexivity].
    intros s y s' Hb Hs. rewrite (aggregate_gmpe_contexts _ _ _ _ Hb). assumption. }
  unfold get_expected_motions in Hexp. apply bind_ok in Hexp as (expected & _ & Hexp).
  injection Hexp as <-.
  unfold calculate_residuals in Hres. apply bind_ok in Hres as (residual & _ & Hres).
  injection Hres as <-.
  eexists. cbn [contexts set_contexts]. rewrite Hctx. split; [reflexivity|].
  cbn [Num_Sites Ctx mag rake Observations set_Residual set_Expected set_Observations].
  split; [reflexivity|]. split; [reflexivity|]. split; [reflexivity|].
  intros imtx. rewrite (convert_loop _ _ _ _ Hconv imtx), count_occ_filter.
  destruct (String.eqb imtx "PGA" || contains "SA(" imtx) eqn:Eacc; cbn [andb];
    [|destruct (dict_get (Observations context) imtx); reflexivity].
  destruct (existsb (String.eqb imtx) (imts self)) eqn:Ein.
  - assert (Hin : In imtx (imts self)).
    { apply existsb_exists in Ein as (y & Hy & E). apply String.eqb_eq in E.
      subst y. assumption. }
    assert (Hone : count_occ string_dec (imts self) imtx = 1%nat).
    { apply NoDup_count_occ' with (decA := string_dec); assumption. }
    rewrite Hone.
    assert (Hobs : exists v, dict_get (Observations context) imtx = Some v).
    { assert (Hacc : In imtx (filter (fun i => String.eqb i "PGA" || contains "SA(" i)
                                (imts self))).
      { apply filter_In. split; assumption. }
      clear - Hconv Hacc.
      revert Hconv Hacc. generalize (Observations context) as o0.
      induction (filter _ (imts self)) as [|x xs IH]; intros o0 Hc Hi; [contradiction|].
      simpl in Hc. apply bind_ok in Hc as (o1 & H1 & Hc).
      apply bind_ok in H1 as (v & Hv & H1). injection H1 as <-.
      apply getitem_ok in Hv. destruct (string_dec x imtx) as [->|Hne]; [eauto|].
      destruct Hi as [E|Hi]; [contradiction|].
      destruct (IH _ Hc Hi) as (w & Hw).
      rewrite dict_get_set_other in Hw by assumption. eauto. }
    destruct Hobs as (v & Hv). exists v. rewrite Hv. auto.
  - assert (Hzero : count_occ string_dec (imts self) imtx = 0%nat).
    { apply count_occ_not_In. intros Hin.
      assert (existsb (String.eqb imtx) (imts self) = true).
      { apply existsb_exists. exists imtx. split; [assumption|apply String.eqb_refl]. }
      congruence. }
    rewrite Hzero. destruct (dict_get (Observations context) imtx); reflexivity.
Qed.

(** Witness for X20: the example event, with the identity as conversion. *)
Lemma stored_context_units_witness :
  exists self' stored,
    get_residuals_context (fun _ => 2) (fun a => a) true residuals_mixed_init event_mixed_raw
    = Ok self' /\
    contexts self' = contexts residuals_mixed_init ++ [stored] /\
    rake (Ctx stored) = Some 0.
Proof.
  pose proof residuals_mixed_ok as H. unfold get_residuals in H. cbn [for_each] in H.
  change (set_contexts residuals_mixed_init []) with residuals_mixed_init in H.
  destruct (get_residuals_context (fun _ => 2) (fun a => a) true residuals_mixed_init
              event_mixed_raw) as [self'|e] eqn:E; [|discriminate H].
  destruct (stored_context_units _ _ _ _ _ _ E) as (stored & H1 & _ & _ & H2 & _).
  - simpl. repeat constructor; simpl; intuition discriminate.
  - exists self', stored. auto.
Defined.

(** ** The descriptive statistics *)

Lemma OrderedDict_const_get {V : Type} (v : V) (ks : list string) (k : string) :
  dict_get (OrderedDict (map (fun g => (g, v)) ks)) k
  = if in_dec string_dec k ks then Some v else None.
Proof.
  unfold OrderedDict.
  assert (H : forall d0 : dict V,
             dict_get (fold_left (fun d p => dict_set d (fst p) (snd p))
                         (map (fun g => (g, v)) ks) d0) k
             = if in_dec string_dec k ks then Some v else dict_get d0 k).
  { induction ks as [|x xs IH]; intros d0; simpl; [reflexivity|].
    rewrite IH. destruct (in_dec string_dec k xs) as [Hin|Hout].
    - destruct (string_dec x k); reflexivity.
    - destruct (string_dec x k) as [->|Hne].
      + apply dict_get_set_same.
      + apply dict_get_set_other. assumption. }
  apply H.
Qed.

Lemma for_each_ext {A S : Type} (body1 body2 : S -> A -> result S) (xs : list A) :
  (forall s x, body1 s x = body2 s x) ->
  forall s0, for_each xs body1 s0 = for_each xs body2 s0.
Proof.
  intros H. induction xs as [|x xs IH]; intros s0; simpl; [reflexivity|].
  rewrite H. destruct (body2 s0 x); simpl; [apply IH|reflexivity].
Qed.

(** X21: [get_residual_statistics] holds, for every model and IMT of the
    analysis whose entry in the residual store is populated, an entry for
    each residual type of the pair, with the mean and the standard deviation
    of the stored residuals of that type (when there are any), and no entry
    for a pair whose store entry is [None] or empty. *)
Theorem residual_statistics_entries (self : Residuals)
  (stats : dict (dict (dict (dict R)))) (gmpe imtx : string) (c : cell) :
  get_residual_statistics self = Ok stats ->
  In gmpe (dict_keys (gmpe_list self)) -> In imtx (imts self) ->
  getitem2 (residuals self) gmpe imtx = Ok c ->
  if truthy c then
    exists ty s,
      getitem2 (types self) gmpe imtx = Ok ty /\
      getitem2 stats gmpe imtx = Ok s /\
      forall t, In t ty ->
        exists v stat,
          cell_getitem c t = Ok v /\ dict_get s t = Some stat /\
          (v <> [] -> stat = [("Mean", np_mean v); ("Std Dev", np_std v)])
  else getitem2 stats gmpe imtx = Raise KeyError.
Proof.
  unfold get_residual_statistics. intros H Hg Hi Hc.
  set (body := fun g (statistics : dict (dict (dict (dict R)))) (i : string) =>
                 c <- getitem2 (residuals self) g i ;;
                 if negb (truthy c) then Ok statistics
                 else
                   s <- get_residual_statistics_for self g i ;;
                   sg <- getitem statistics g ;;
                   Ok (dict_set statistics g (dict_set sg i s))).
  set (init := OrderedDict (map (fun gmpe => (gmpe, @nil (string * dict (dict R))))
                              (dict_keys (gmpe_list self)))) in H.
  assert (Hframe : forall g i st st', body g st i = Ok st' -> (g, i) <> (gmpe, imtx) ->
            getitem2 st' gmpe imtx = getitem2 st gmpe imtx).
  { intros g i st st' Hb Hne. unfold body in Hb.
    apply bind_ok in Hb as (c' & _ & Hb).
    destruct (negb (truthy c')); [injection Hb as <-; reflexivity|].
    apply bind_ok in Hb as (s & _ & Hb). apply bind_ok in Hb as (sg & Hsg & Hb).
    injection Hb as <-. apply (getitem2_set_other _ _ _ _ _ _ _ Hsg Hne). }
  destruct (truthy c) eqn:Htr.
  - set (Post := fun st : dict (dict (dict (dict R))) =>
                   exists s, get_residual_statistics_for self gmpe imtx = Ok s /\
                             getitem2 st gmpe imtx = Ok s).
    assert (Hest : forall st st', body gmpe st imtx = Ok st' -> Post st').
    { intros st st' Hb. unfold body in Hb. rewrite Hc in Hb. cbn [bind] in Hb.
      rewrite Htr in Hb. cbn [negb] in Hb.
      apply bind_ok in Hb as (s & Hs & Hb). apply bind_ok in Hb as (sg & Hsg & Hb).
      injection Hb as <-. exists s. split; [assumption|apply getitem2_set_same]. }
    assert (Hstep : forall g i st st', body g st i = Ok st' -> Post st -> Post st').
    { intros g i st st' Hb HP.
      destruct (string_dec g gmpe) as [->|Hg'];
        [destruct (string_dec i imtx) as [->|Hi']|].
      - eapply Hest; eauto.
      - destruct HP as (s & Hs & Hget). exists s. split; [assumption|].
        rewrite (Hframe _ _ _ _ Hb); [assumption|congruence].
      - destruct HP as (s & Hs & Hget). exists s. split; [assumption|].
        rewrite (Hframe _ _ _ _ Hb); [assumption|congruence]. }
    assert (HP : Post stats).
    { apply (for_each_establishes
               (fun st g => for_each (imts self) (body g) st)
               (fun _ => True) Post gmpe (dict_keys (gmpe_list self)))
        with (s0 := init); auto.
      - intros s s' Hb _.
        apply (for_each_establishes (body gmpe) (fun _ => True) Post imtx (imts self))
          with (s0 := s); auto.
        + intros s1 s2 Hb1 _. eapply Hest; eauto.
        + intros s1 y s2 Hb1 _ HP. eapply Hstep; eauto.
      - intros s g s' Hb _ HP.
        apply (for_each_preserves (body g) Post (imts self)) with (s0 := s); auto.
        intros s1 y s2 Hb1 HP1. eapply Hstep; eauto. }
    destruct HP as (s & Hs & Hget).
    unfold get_residual_statistics_for in Hs. rewrite Hc in Hs. cbn [bind] in Hs.
    apply bind_ok in Hs as (ty & Hty & Hs).
    exists ty, s. split; [assumption|]. split; [assumption|].
    intros t Ht.
    rewrite (for_each_ext _
               (fun d res_type =>
                  val <- (v <- cell_getitem c res_type ;;
                          Ok [("Mean", np_mean v); ("Std Dev", np_std v)]) ;;
                  Ok (dict_set d res_type val))) in Hs
      by (intros d x; destruct (cell_getitem c x); reflexivity).
    destruct (for_each_set_lookup _ _ _ _ Hs t) as [Hin _].
    destruct (Hin Ht) as (val & Hval & Hget').
    apply bind_ok in Hval as (v & Hv & Hval). injection Hval as <-.
    exists v. eexists. split; [exact Hv|]. split; [exact Hget'|]. reflexivity.
  - set (Post := fun st : dict (dict (dict (dict R))) =>
                   getitem2 st gmpe imtx = Raise KeyError).
    assert (Hstep : forall g i st st', body g st i = Ok st' -> Post st -> Post st').
    { intros g i st st' Hb HP. unfold Post.
      destruct (string_dec g gmpe) as [->|Hg'];
        [destruct (string_dec i imtx) as [->|Hi']|].
      - unfold body in Hb. rewrite Hc in Hb. cbn [bind] in Hb. rewrite Htr in Hb.
        injection Hb as <-. exact HP.
      - rewrite (Hframe _ _ _ _ Hb); [assumption|congruence].
      - rewrite (Hframe _ _ _ _ Hb); [assumption|congruence]. }
    change (Post stats).
    apply (for_each_preserves (fun st g => for_each (imts self) (body g) st) Post
             (dict_keys (gmpe_list self))) with (s0 := init); [|assumption|].
    + intros s g s' Hb HP.
      apply (for_each_preserves (body g) Post (imts self)) with (s0 := s); auto.
      intros s1 y s2 Hb1 HP1. eapply Hstep; eauto.
    + unfold Post, getitem2, getitem, init. rewrite OrderedDict_const_get.
      destruct (in_dec string_dec gmpe (dict_keys (gmpe_list self))); [|contradiction].
      reflexivity.
Qed.

(** Witness for X21: the example analysis. *)
Lemma residual_statistics_entries_witness :
  exists stats ty s,
    get_residual_statistics residuals_mixed = Ok stats /\
    getitem2 (types residuals_mixed) "G" "PGA" = Ok ty /\
    getitem2 stats "G" "PGA" = Ok s.
Proof.
  destruct residual_statistics_mixed as (stats & H & _).
  pose proof (residual_statistics_entries residuals_mixed stats "G" "PGA" _ H
                (or_introl eq_refl) (or_introl eq_refl) eq_refl) as He.
  cbn [truthy] in He. destruct He as (ty & s & H1 & H2 & _).
  exists stats, ty, s. auto.
Defined.

(** ** Models with a total standard deviation only: independent records *)

Lemma np_sum_all_zero {A : Type} (f : A -> R) (l : list A) :
  (forall x, In x l -> f x = 0) -> np_sum (map f l) = 0.
Proof.
  induction l as [|x l IH]; intros H; simpl.
  - apply np_sum_nil.
  - rewrite np_sum_cons, (H x (or_introl eq_refl)), IH; [ring|].
    intros y Hy. apply H. right. assumption.
Qed.

Lemma np_diag_cons (x : R) (d : list R) :
  np_diag (x :: d) = (x :: repeat 0 (length d)) :: map (cons 0) (np_diag d).
Proof.
  unfold np_diag. cbn [length seq map Nat.eqb nth]. f_equal.
  - f_equal. rewrite <- seq_shift, map_map. apply map_seq_const. reflexivity.
  - rewrite <- seq_shift, !map_map. apply map_ext. intros a.
    cbn [Nat.eqb nth]. f_equal.
    rewrite map_map. reflexivity.
Qed.

Lemma length_np_diag (d : list R) : length (np_diag d) = length d.
Proof. unfold np_diag. rewrite length_map, length_seq. reflexivity. Qed.

Lemma np_diag_rows (d row : list R) : In row (np_diag d) -> length row = length d.
Proof.
  unfold np_diag. intros H. apply in_map_iff in H as (a & <- & _).
  rewrite length_map, length_seq. reflexivity.
Qed.

Lemma det_rec_cons (n : nat) (row : list R) (rest : list (list R)) :
  det_rec (S n) (row :: rest)
  = np_sum (map (fun j => (-1) ^ j * nth j row 0 * det_rec n (map (remove_nth j) rest))
              (seq 0 (length row))).
Proof. reflexivity. Qed.

(** A square matrix whose first column is zero has determinant zero. *)
Lemma det_rec_zero_column (n : nat) :
  forall m : list (list R),
    length m = S n ->
    (forall row, In row m -> exists r, row = 0 :: r /\ length r = n) ->
    det_rec (S n) m = 0.
Proof.
  induction n as [|n IH]; intros m Hlen Hrows.
  - destruct m as [|row [|row2 m]]; try discriminate.
    destruct (Hrows row (or_introl eq_refl)) as (r & -> & Lr).
    destruct r; [|discriminate]. cbn. unfold np_sum. simpl. ring.
  - destruct m as [|row rest]; [discriminate|].
    destruct (Hrows row (or_introl eq_refl)) as (r & -> & Lr).
    rewrite det_rec_cons. apply np_sum_all_zero. intros j Hj. apply in_seq in Hj.
    destruct j as [|j]; [cbn [nth]; ring|].
    rewrite (IH (map (remove_nth (S j)) rest)); [ring| |].
    + rewrite length_map. simpl in Hlen. lia.
    + intros row' Hrow'. apply in_map_iff in Hrow' as (row0 & <- & Hin).
      destruct (Hrows row0 (or_intror Hin)) as (r0 & -> & Lr0).
      exists (remove_nth j r0). split; [reflexivity|].
      unfold remove_nth. rewrite length_app, length_firstn, length_skipn.
      cbn [length] in Hj. lia.
Qed.

Lemma map_remove_first (m : list (list R)) :
  map (remove_nth 0) (map (cons 0) m) = m.
Proof. rewrite map_map. rewrite <- (map_id m) at 2. apply map_ext. reflexivity. Qed.

(** The determinant of a diagonal matrix. *)
Lemma det_diag (d : list R) : det (np_diag d) = fold_right Rmult 1 d.
Proof.
  unfold det. rewrite length_np_diag.
  induction d as [|x d IH]; [reflexivity|].
  rewrite np_diag_cons. cbn [length]. rewrite det_rec_cons.
  cbn [length seq map fold_right nth].
  rewrite np_sum_cons, map_remove_first, IH.
  rewrite np_sum_all_zero; [simpl; ring|].
  intros j Hj. apply in_seq in Hj.
  destruct j as [|j]; [exfalso; lia|]. cbn [nth].
  rewrite nth_repeat. ring.
Qed.

Lemma set_nth_cons_S (x v : R) (row : list R) (k : nat) :
  set_nth (x :: row) (S k) v = x :: set_nth row k v.
Proof. reflexivity. Qed.

Lemma set_nth_length (row : list R) (k : nat) (v : R) :
  (k < length row)%nat -> length (set_nth row k v) = length row.
Proof.
  intros Hk. unfold set_nth.
  rewrite length_app, length_firstn. cbn [length]. rewrite length_skipn. lia.
Qed.

Lemma fold_right_mult_remove (d : list R) :
  forall k, (k < length d)%nat ->
    fold_right Rmult 1 d = nth k d 0 * fold_right Rmult 1 (remove_nth k d).
Proof.
  induction d as [|x d IH]; intros k Hk; [simpl in Hk; lia|].
  destruct k as [|k]; [reflexivity|].
  change (remove_nth (S k) (x :: d)) with (x :: remove_nth k d).
  cbn [fold_right nth]. rewrite (IH k) by (simpl in Hk; lia). ring.
Qed.

(** Cramer's numerator for a diagonal matrix: column [k] replaced by [b]. *)
Lemma det_diag_replaced (d : list R) :
  forall (b : list R) (k : nat),
    length b = length d -> (k < length d)%nat ->
    det (map (fun p => set_nth (fst p) k (snd p)) (combine (np_diag d) b))
    = nth k b 0 * fold_right Rmult 1 (remove_nth k d).
Proof.
  unfold det.
  induction d as [|x d IH]; intros b k Hb Hk; [simpl in Hk; lia|].
  destruct b as [|y b]; [discriminate|].
  injection Hb as Hb.
  rewrite length_map, length_combine, length_np_diag.
  cbn [length]. rewrite Hb, Nat.min_id.
  rewrite np_diag_cons. cbn [combine map fst snd].
  rewrite det_rec_cons.
  assert (Lc : length (combine (map (cons 0) (np_diag d)) b) = length d).
  { rewrite length_combine, length_map, length_np_diag. lia. }
  destruct k as [|k].
  - change (set_nth (x :: repeat 0 (length d)) 0 y) with (y :: repeat 0 (length d)).
    cbn [length seq map nth]. rewrite np_sum_cons.
    rewrite np_sum_all_zero.
    + assert (E : map (remove_nth 0)
                    (map (fun p => set_nth (fst p) 0 (snd p))
                       (combine (map (cons 0) (np_diag d)) b))
                  = np_diag d).
      { rewrite map_map.
        transitivity (map fst (combine (np_diag d) b)).
        - clear - b. generalize (np_diag d) as m. intros m. revert b.
          induction m as [|row m IHm]; intros [|v b]; simpl; try reflexivity.
          f_equal. apply IHm.
        - apply map_fst_combine_eq. rewrite length_np_diag. lia. }
      rewrite E. change (remove_nth 0 (x :: d)) with d.
      pose proof (det_diag d) as Hd. unfold det in Hd. rewrite length_np_diag in Hd.
      rewrite Hd. simpl. ring.
    + intros j Hj. apply in_seq in Hj.
      destruct j as [|j]; [exfalso; lia|]. cbn [nth].
      rewrite nth_repeat. ring.
  - rewrite set_nth_cons_S.
    assert (Hk' : (k < length d)%nat) by (simpl in Hk; lia).
    cbn [length]. rewrite set_nth_length by (rewrite repeat_length; exact Hk').
    rewrite repeat_length.
    cbn [seq map nth]. rewrite np_sum_cons.
    assert (E : map (remove_nth 0)
                  (map (fun p => set_nth (fst p) (S k) (snd p))
                     (combine (map (cons 0) (np_diag d)) b))
                = map (fun p => set_nth (fst p) k (snd p)) (combine (np_diag d) b)).
    { rewrite map_map. clear. generalize (np_diag d) as m. intros m. revert b.
      induction m as [|row m IHm]; intros [|v b]; simpl; try reflexivity.
      f_equal. apply IHm. }
    rewrite E.
    pose proof (IH b k Hb Hk') as Hd.
    rewrite length_map, length_combine, length_np_diag, Hb, Nat.min_id in Hd.
    rewrite Hd.
    rewrite np_sum_all_zero.
    + change (remove_nth (S k) (x :: d)) with (x :: remove_nth k d).
      simpl. ring.
    + intros j Hj. apply in_seq in Hj.
      destruct j as [|j]; [exfalso; lia|].
      destruct (length d) as [|n] eqn:Ln; [exfalso; lia|].
      rewrite det_rec_zero_column; [ring| |].
      * rewrite !length_map. exact Lc.
      * intros row Hrow.
        apply in_map_iff in Hrow as (row1 & <- & Hrow).
        apply in_map_iff in Hrow as ([row0 v] & <- & Hrow).
        cbn [fst snd].
        apply in_combine_l in Hrow.
        apply in_map_iff in Hrow as (r & <- & Hr).
        rewrite set_nth_cons_S.
        exists (remove_nth j (set_nth r k v)). split; [reflexivity|].
        apply np_diag_rows in Hr.
        unfold remove_nth. rewrite length_app, length_firstn, length_skipn.
        rewrite set_nth_length by lia. lia.
Qed.

Lemma fold_right_mult_nonzero (d : list R) :
  Forall (fun x => x <> 0) d -> fold_right Rmult 1 d <> 0.
Proof.
  induction 1 as [|x d Hx Hd IH]; simpl; [lra|].
  apply Rmult_integral_contrapositive. split; assumption.
Qed.

Lemma map_combine_seq (b d : list R) :
  length b = length d ->
  map (fun k => nth k b 0 / nth k d 0) (seq 0 (length d))
  = map (fun p => fst p / snd p) (combine b d).
Proof.
  revert d. induction b as [|x b IH]; intros [|y d] H; try discriminate; [reflexivity|].
  injection H as H. cbn [length seq map combine nth fst snd]. f_equal.
  rewrite <- seq_shift, map_map. cbn [nth]. apply IH. exact H.
Qed.

(** A regular diagonal system is solved entry by entry. *)
Lemma solve_diag (d b : list R) :
  length b = length d ->
  Forall (fun x => x <> 0) d ->
  solve (np_diag d) b = Ok (map (fun p => fst p / snd p) (combine b d)).
Proof.
  intros Hb Hd. unfold solve. rewrite det_diag.
  pose proof (fold_right_mult_nonzero d Hd) as Hprod.
  destruct (Req_dec_T (fold_right Rmult 1 d) 0) as [E|_]; [contradiction|].
  f_equal. rewrite length_np_diag, <- (map_combine_seq b d Hb).
  apply map_ext_in. intros k Hk. apply in_seq in Hk.
  rewrite det_diag_replaced by (try assumption; lia).
  rewrite (fold_right_mult_remove d k) by lia.
  assert (Hdk : nth k d 0 <> 0).
  { rewrite Forall_forall in Hd. apply Hd. apply nth_In. lia. }
  assert (Hrest : fold_right Rmult 1 (remove_nth k d) <> 0).
  { intros E. apply Hprod. rewrite (fold_right_mult_remove d k) by lia.
    rewrite E. ring. }
  field. split; assumption.
Qed.

Lemma dotv_solved (b sigma : list R) :
  Forall (fun s => s <> 0) sigma ->
  dotv b (map (fun p => fst p / snd p) (combine b (np_sq sigma)))
  = np_sum (map (fun p => (fst p / snd p) ^ 2) (combine b sigma)).
Proof.
  intros Hs. revert b. unfold dotv.
  induction Hs as [|s sigma Hs _ IH]; intros [|x b]; try reflexivity.
  cbn [np_sq map combine fst snd]. rewrite !np_sum_cons.
  unfold np_sq in IH. rewrite IH. field. exact Hs.
Qed.

Lemma slogdet_diag_sq (sigma : list R) :
  Forall (fun s => s <> 0) sigma ->
  slogdet (np_diag (np_sq sigma)) = np_sum (map (fun s => ln (s ^ 2)) sigma).
Proof.
  intros Hs. unfold slogdet. rewrite det_diag.
  induction Hs as [|s sigma Hs Hrest IH]; cbn [np_sq map fold_right].
  - rewrite np_sum_nil, Rabs_R1. apply ln_1.
  - rewrite np_sum_cons, <- IH, Rabs_mult.
    assert (Hpos : 0 < s ^ 2).
    { pose proof (pow2_ge_0 s). pose proof (pow_nonzero s 2 Hs). lra. }
    rewrite (Rabs_pos_eq (s ^ 2)) by lra.
    apply ln_mult; [exact Hpos|].
    apply Rabs_pos_lt. apply fold_right_mult_nonzero.
    unfold np_sq. apply Forall_map.
    eapply Forall_impl; [|exact Hrest]. intros a Ha. apply pow_nonzero. exact Ha.
Qed.

Lemma dotv_zero_l (u v : list R) :
  (forall x, In x u -> x = 0) -> dotv u v = 0.
Proof.
  intros H. unfold dotv. apply np_sum_all_zero.
  intros [x y] Hin. apply in_combine_l in Hin. cbn [fst snd].
  rewrite (H x Hin). ring.
Qed.

(** Without inter-event terms the covariance matrix is diagonal. *)
Lemma mat_add_diag_zero (d : list R) (z : list (list R)) :
  length z = length d ->
  (forall row, In row z -> forall x, In x row -> x = 0) ->
  mat_add (np_diag d) (dot_T z) = np_diag d.
Proof.
  intros Hlen Hz. rewrite covariance_entries by exact Hlen. unfold np_diag.
  apply map_ext_in. intros a Ha. apply in_seq in Ha.
  apply map_ext_in. intros b Hb.
  rewrite dotv_zero_l; [ring|].
  apply Hz. apply nth_In. lia.
Qed.

Lemma spec_Z_rows_count (gmpe imtx : string) (neqs : nat) (cs : list Context) :
  forall j0,
    length (concat (map (fun jc => spec_Z_rows gmpe imtx neqs (fst jc) (snd jc))
                      (combine (seq j0 (length cs)) cs)))
    = list_sum (map Num_Sites cs).
Proof.
  induction cs as [|c cs IH]; intros j0; [reflexivity|].
  cbn [length seq combine map concat list_sum fold_right fst snd].
  rewrite length_app, IH. unfold spec_Z_rows.
  rewrite length_map, length_seq. reflexivity.
Qed.

Lemma spec_phi_count (gmpe imtx : string) (cs : list Context) :
  Forall (event_shaped gmpe imtx) cs ->
  length (concat (map (spec_event_phi gmpe imtx) cs)) = list_sum (map Num_Sites cs).
Proof.
  induction 1 as [|c cs Hc _ IH]; [reflexivity|].
  cbn [map concat list_sum fold_right]. rewrite length_app, IH.
  destruct (spec_event_lengths _ _ _ Hc) as (-> & _). reflexivity.
Qed.

(** X22: for events whose model has no inter-event / intra-event
    decomposition for the IMT, with at least one record and non-zero total
    standard deviations, the multivariate log-likelihood is that of
    independent records:
    [(n ln(2 pi) + sum_i ln(sigma_i^2) + sum_i (r_i / sigma_i)^2) / 2]. *)
Theorem multivariate_ll_independent_records (contexts0 : list Context)
  (gmpe imt : string) :
  Forall (event_shaped gmpe imt) contexts0 ->
  Forall (fun ctxt => exists e,
            getitem2 (Expected ctxt) gmpe imt = Ok (Some e) /\
            dict_get e "Intra event" = None /\ dict_get e "Inter event" = None)
         contexts0 ->
  (0 < list_sum (map Num_Sites contexts0))%nat ->
  Forall (fun s => s <> 0) (concat (map (spec_event_phi gmpe imt) contexts0)) ->
  get_multivariate_ll contexts0 gmpe imt
  = Ok ((INR (list_sum (map Num_Sites contexts0)) * ln (2 * PI)
         + np_sum (map (fun s => ln (s ^ 2))
                     (concat (map (spec_event_phi gmpe imt) contexts0)))
         + np_sum (map (fun p => (fst p / snd p) ^ 2)
                     (combine (spec_r gmpe imt contexts0)
                        (concat (map (spec_event_phi gmpe imt) contexts0))))) / 2).
Proof.
  intros Hshape Htot _ Hsigma.
  set (sigma := concat (map (spec_event_phi gmpe imt) contexts0)) in *.
  assert (HV : spec_V gmpe imt contexts0 = np_diag (np_sq sigma)).
  { unfold spec_V. fold sigma. apply mat_add_diag_zero.
    - unfold spec_Z, np_sq. rewrite spec_Z_rows_count, length_map.
      symmetry. apply spec_phi_count. exact Hshape.
    - intros row Hrow x Hx. unfold spec_Z in Hrow.
      apply in_concat in Hrow as (rows & Hrows & Hrow).
      apply in_map_iff in Hrows as ([j c] & <- & Hjc).
      apply in_combine_r in Hjc. cbn [fst snd] in Hrow.
      rewrite Forall_forall in Htot.
      destruct (Htot c Hjc) as (e & He & _ & Hinter).
      unfold spec_Z_rows in Hrow.
      apply in_map_iff in Hrow as (k & <- & _).
      apply in_map_iff in Hx as (col & <- & _).
      unfold spec_event_tau. rewrite He, Hinter.
      destruct (col =? j)%nat; reflexivity. }
  unfold get_multivariate_ll. rewrite (build_matrices_spec _ _ _ Hshape). cbn [bind].
  unfold np_sub.
  rewrite (broadcast_same_length _ _ _ (spec_vectors_same_length _ _ _ Hshape)).
  cbn [bind]. fold (spec_r gmpe imt contexts0). rewrite HV.
  assert (Hsq : Forall (fun x => x <> 0) (np_sq sigma)).
  { unfold np_sq. apply Forall_map. eapply Forall_impl; [|exact Hsigma].
    intros a Ha. apply pow_nonzero. exact Ha. }
  assert (Lr : length (spec_r gmpe imt contexts0) = length (np_sq sigma)).
  { unfold spec_r, np_sq. rewrite !length_map, length_combine.
    rewrite <- (spec_vectors_same_length _ _ _ Hshape), Nat.min_id.
    unfold sigma. rewrite (spec_phi_count _ _ _ Hshape).
    clear - Hshape. induction Hshape as [|c cs Hc _ IH]; [reflexivity|].
    cbn [map concat list_sum fold_right]. rewrite length_app, IH.
    destruct (spec_event_lengths _ _ _ Hc) as (_ & _ & ->). reflexivity. }
  rewrite (solve_diag _ _ Lr Hsq). cbn [bind].
  rewrite (slogdet_diag_sq _ Hsigma), (dotv_solved _ _ Hsigma). reflexivity.
Qed.

Lemma multivariate_ll_independent_records_witness :
  get_multivariate_ll [event_two_records_expected] "G" "PGA"
  = Ok ((INR 2 * ln (2 * PI)
         + np_sum (map (fun s => ln (s ^ 2)) [1; 2])
         + np_sum (map (fun p => (fst p / snd p) ^ 2)
                     (combine (spec_r "G" "PGA" [event_two_records_expected]) [1; 2]))) / 2).
Proof.
  apply (multivariate_ll_independent_records [event_two_records_expected] "G" "PGA").
  - constructor; [|constructor].
    exists [("Mean", [0; 0]); ("Total", [1; 2])], [1; 2], [0; 0].
    repeat split; try reflexivity.
    left. repeat split; try reflexivity. exists [1; 2]. split; reflexivity.
  - constructor; [|constructor].
    exists [("Mean", [0; 0]); ("Total", [1; 2])]. repeat split; reflexivity.
  - simpl. lia.
  - simpl. repeat constructor; lra.
Defined.
